(** * Backfill batch sequencer (beacon-chain/sync/backfill)

    A shallow embedding of [batcher.go] and of [MinimumBackfillSlot] from
    [service.go], with the properties of the batch window that the backfill
    specification states about them.

    Conventions.
    - [primitives.Slot] and [primitives.Epoch] are [uint64]: a slot is a [Z]
      in [0, 2^64) and the arithmetic of the source is written with its
      wrap-around ([slot_add], [slot_sub]).
    - Go [int] values (indices, counters, lengths) are [nat]; they stay far
      from the limits of a machine [int].
    - A method with a pointer receiver that updates the sequencer in place is
      a function returning the updated sequencer.  A run that panics (an
      index out of range) returns [None]. *)

From Stdlib Require Import ZArith List Lia.
From stdpp Require Import base decidable option list.

(** ** Slots: 64-bit unsigned arithmetic *)

Definition Slot : Type := Z.

Bind Scope Z_scope with Slot.

Definition slot_modulus : Z := (2 ^ 64)%Z.

Definition slot_wrap (z : Z) : Slot := (z mod slot_modulus)%Z.

Definition slot_add (a b : Slot) : Slot := slot_wrap (a + b).

Definition slot_sub (a b : Slot) : Slot := slot_wrap (a - b).

Definition slot_mul (a b : Slot) : Slot := slot_wrap (a * b).

(** The values a [uint64] can hold. *)
Definition is_slot (z : Z) : Prop := (0 <= z < slot_modulus)%Z.

(** ** Batches *)

(** Modelled from the spec: the declaration of [batchState] (batch.go) is not
    among the sources.  The constructors are the states the sequencer names
    ([batchNil] is the zero value), and [batchInFlight] is the remaining
    state of the specification's list, which the sequencer never tests. *)
Inductive batchState : Type :=
  | batchNil
  | batchInit
  | batchSequenced
  | batchInFlight
  | batchErrRetryable
  | batchImportable
  | batchImportComplete
  | batchEndSequence.

#[global] Instance batchState_eq_dec : EqDecision batchState.
Proof. solve_decision. Defined.

(** Modelled from the spec: the declaration of [batch] (batch.go) is not among
    the sources.  [begin], [end] and [state] are the fields the sequencer and
    the batcher read and write; [pid] and [results] stand for what a batch
    carries besides them (the peer it was assigned to and the verified
    blocks), so that overwriting a window entry by another batch is more than
    a change of state. *)
Record batch : Type := mkBatch {
  begin : Slot;
  end_ : Slot;
  state : batchState;
  pid : nat;
  results : list Z
}.

#[global] Instance batch_eq_dec : EqDecision batch.
Proof. solve_decision. Defined.

(** The zero value of [batch], what [make([]batch, n)] fills a slice with. *)
Definition zeroBatch : batch :=
  {| begin := 0%Z; end_ := 0%Z; state := batchNil; pid := 0; results := [] |}.

(** Modelled from the spec: [batch.withState] (batch.go) is not among the
    sources; it returns the batch with its state field updated. *)
Definition withState (b : batch) (s : batchState) : batch :=
  {| begin := begin b; end_ := end_ b; state := s;
     pid := pid b; results := results b |}.

(** Modelled from the spec: [batch.replaces] (batch.go) is not among the
    sources; it holds iff both bounds of the two batches agree. *)
Definition replaces (b other : batch) : bool :=
  (begin b =? begin other)%Z && (end_ b =? end_ other)%Z.

(** ** Errors *)

Inductive error : Type :=
  | errSequencerMisconfigured
  | errMaxBatches
  | errEndSequence
  | errCannotDecreaseMinimum.

(** ** The batcher *)

Record batcher : Type := mkBatcher {
  min : Slot;
  max : Slot;
  size : Slot
}.

(** [func (r batcher) before(upTo primitives.Slot) batch] *)
Definition before (r : batcher) (upTo : Slot) : batch :=
  if (upTo <=? min r)%Z then
    {| begin := upTo; end_ := upTo; state := batchEndSequence;
       pid := 0; results := [] |}
  else
    let begin0 := min r in
    let begin1 :=
      if (upTo >? slot_add (size r) (min r))%Z
      then slot_sub upTo (size r) else begin0 in
    {| begin := begin1; end_ := upTo; state := batchInit;
       pid := 0; results := [] |}.

(** [func (r batcher) beforeBatch(upTo batch) batch] *)
Definition beforeBatch (r : batcher) (upTo : batch) : batch :=
  before r (begin upTo).

(** ** The sequencer *)

Record batchSequencer : Type := mkSequencer {
  batcher_ : batcher;
  seq : list batch
}.

(** [newBatchSequencer(seqLen, min, max, size)]: a window of [seqLen] zero
    batches ([make] panics on a negative length; the length is a [nat]
    here). *)
Definition newBatchSequencer (seqLen : nat) (mn mx sz : Slot) : batchSequencer :=
  {| batcher_ := {| min := mn; max := mx; size := sz |};
     seq := replicate seqLen zeroBatch |}.

(** [func (c *batchSequencer) moveMinimum(min primitives.Slot) error]: the
    updated sequencer and the returned error ([None] is Go's [nil]). *)
Definition moveMinimum (m : Slot) (c : batchSequencer)
  : batchSequencer * option error :=
  if (m <? min (batcher_ c))%Z then (c, Some errCannotDecreaseMinimum)
  else ({| batcher_ := {| min := m; max := max (batcher_ c);
                          size := size (batcher_ c) |};
           seq := seq c |}, None).

(** [func (c *batchSequencer) minimum() primitives.Slot] *)
Definition minimum (c : batchSequencer) : Slot := min (batcher_ c).

(** A counted loop [for i := lo; i < lo+n; i++ { body }] over a state [St];
    the body may panic. *)
Fixpoint for_loop {St : Type} (n i : nat) (body : nat -> St -> option St)
    (s : St) : option St :=
  match n with
  | O => Some s
  | S n' => s' ← body i s; for_loop n' (S i) body s'
  end.

(** The body of the first loop of [update]: the state is the window and the
    counter [done].  [c.seq[i-done]] with [done > i] would be a negative
    index. *)
Definition update_scan (b : batch) (i : nat) (st : list batch * nat)
  : option (list batch * nat) :=
  let '(w, done) := st in
  x ← w !! i;
  let w1 := if replaces b x then <[i:=b]> w else w in
  x1 ← w1 !! i;
  if decide (state x1 = batchImportComplete) then Some (w1, S done)
  else if decide (done <= i) then Some (<[i - done := x1]> w1, done)
  else None.

(** The body of the second loop of [update]: the state is the window and
    [last]. *)
Definition update_fill (r : batcher) (i : nat) (st : list batch * batch)
  : option (list batch * batch) :=
  let '(w, last) := st in
  if decide (i < length w) then
    let w' := <[i := beforeBatch r last]> w in
    last' ← w' !! i;
    Some (w', last')
  else None.

(** [func (c *batchSequencer) update(b batch)].  [c.seq[len(c.seq)-1]] panics
    on an empty window. *)
Definition update (b : batch) (c : batchSequencer) : option batchSequencer :=
  let n := length (seq c) in
  '(w, done) ← for_loop n 0 (update_scan b) (seq c, 0);
  last ← (if decide (n = 0) then None else w !! (n - 1));
  '(w', _) ← for_loop done (n - done) (update_fill (batcher_ c)) (w, last);
  Some {| batcher_ := batcher_ c; seq := w' |}.

(** The body of the loop of [sequence]: the state is the window and the
    output slice [s].  The [break] of the [batchEndSequence] case leaves the
    [switch], not the [for]: the scan goes on with the next index. *)
Definition sequence_scan (r : batcher) (i : nat) (st : list batch * list batch)
  : option (list batch * list batch) :=
  let '(w, s) := st in
  x ← w !! i;
  match state x with
  | batchInit | batchErrRetryable =>
      let x' := withState x batchSequenced in
      Some (<[i:=x']> w, s ++ [x'])
  | batchNil =>
      b ← (if decide (i = 0) then Some (before r (max r))
           else beforeBatch r <$> w !! (i - 1));
      let x' := withState b batchSequenced in
      Some (<[i:=x']> w, s ++ [x'])
  | batchEndSequence =>
      Some (w, if decide (length s = 0) then s ++ [x] else s)
  | _ => Some (w, s)
  end.

(** [func (c *batchSequencer) sequence() ([]batch, error)]: the updated
    sequencer, the returned slice ([[]] for [nil]) and the error. *)
Definition sequence (c : batchSequencer)
  : option (batchSequencer * (list batch * option error)) :=
  '(w, s) ← for_loop (length (seq c)) 0 (sequence_scan (batcher_ c)) (seq c, []);
  let c' := {| batcher_ := batcher_ c; seq := w |} in
  if decide (length s = 0) then Some (c', ([], Some errMaxBatches))
  else Some (c', (s, None)).

(** [func (c *batchSequencer) importable() []batch]: [n] iterations are left,
    [i] is the index and [imp] the slice built so far; the loop is left at the
    first batch in another state. *)
Fixpoint importable_scan (w : list batch) (n i : nat) (imp : list batch)
  : list batch :=
  match n with
  | O => imp
  | S n' =>
      match w !! i with
      | Some x =>
          if decide (state x = batchImportable)
          then importable_scan w n' (S i) (imp ++ [x])
          else imp
      | None => imp
      end
  end.

Definition importable (c : batchSequencer) : list batch :=
  importable_scan (seq c) (length (seq c)) 0 [].

(** [func (c *batchSequencer) countWithState(s batchState) int]: the loop
    over the indices of the window, the state being the counter [n]. *)
Definition countWithState (c : batchSequencer) (s : batchState) : option nat :=
  for_loop (length (seq c)) 0
    (fun i n => x ← seq c !! i;
                if decide (state x = s) then Some (n + 1) else Some n)
    0.

(** Go's [int] is a signed 64-bit integer here: [int_wrap] is what a value
    becomes when it is stored in one, by the conversion [int(x)] of a
    [uint64] or by a sum. *)
Definition int_wrap (z : Z) : Z := ((z + 2 ^ 63) mod 2 ^ 64 - 2 ^ 63)%Z.

(** The values an [int] can hold. *)
Definition is_int (z : Z) : Prop := (- 2 ^ 63 <= z < 2 ^ 63)%Z.

(** [func (r batcher) remaining(upTo primitives.Slot) int].  [delta%r.size]
    and [delta/r.size] panic (integer divide by zero) when [r.size] is 0. *)
Definition remaining (r : batcher) (upTo : Slot) : option Z :=
  if (min r >=? upTo)%Z then Some 0%Z
  else
    let delta := slot_sub upTo (min r) in
    if (size r =? 0)%Z then None
    else if negb (delta mod size r =? 0)%Z
         then Some (int_wrap (int_wrap (delta / size r) + 1))
         else Some (int_wrap (delta / size r)).

(** [func (c *batchSequencer) numTodo() int].  The deferred
    [backfillRemainingBatches.Set] writes the result to a metrics gauge and
    is left out. *)
Definition numTodo (c : batchSequencer) : option Z :=
  if decide (length (seq c) = 0) then Some 0%Z
  else
    lowest ← seq c !! (length (seq c) - 1);
    todo ← (if decide (state lowest <> batchEndSequence)
            then remaining (batcher_ c) (begin lowest) else Some 0%Z);
    Some (fold_left
            (fun todo b =>
               match state b with
               | batchEndSequence | batchImportComplete | batchNil => todo
               | _ => int_wrap (todo + 1)
               end)
            (seq c) todo).

(** ** [MinimumBackfillSlot] (service.go) *)

Section MinimumBackfill.

(** [helpers.MinEpochsForBlockRequests()], [slots.MaxSafeEpoch()] and
    [params.BeaconConfig().SlotsPerEpoch]: three [uint64] values of packages
    that are not among the sources. *)
Variables MinEpochsForBlockRequests MaxSafeEpoch SlotsPerEpoch : Z.

(** Modelled from the spec: [slots.UnsafeEpochStart] is not among the sources;
    the first slot of an epoch is the epoch times [SLOTS_PER_EPOCH], here a
    [uint64] product. *)
Definition UnsafeEpochStart (epoch : Z) : Slot :=
  slot_mul SlotsPerEpoch epoch.

(** [func MinimumBackfillSlot(current primitives.Slot) primitives.Slot] *)
Definition MinimumBackfillSlot (current : Slot) : Slot :=
  let oe := MinEpochsForBlockRequests in
  let oe := if (oe >? MaxSafeEpoch)%Z then MaxSafeEpoch else oe in
  let offset := UnsafeEpochStart oe in
  if (offset >? current)%Z then 0%Z
  else slot_sub current offset.

End MinimumBackfill.

(** ** The driver (service.go) *)

#[global] Instance error_eq_dec : EqDecision error.
Proof. solve_decision. Defined.

Section Driver.

(** The status updater, with the database behind it, is a collaborator of the
    service: its state is a type of its own here, and the [batchImporter] of
    the service (a field of [Service], [defaultBatchImporter] unless a test
    replaces it) is a function that takes a batch and that state, and
    returns the new state and an error or [nil].  The [*BackfillStatus] it
    returns as well is dropped by [importBatches]. *)
Variable StatusUpdater : Type.
Variable batchImporter : batch -> StatusUpdater -> StatusUpdater * option error.

(** The loop of [importBatches] over the slice [importable], which is not
    modified: [ib :: rest] is what is left of it, [imported] the counter.
    [downscore] does nothing; the log entries are left out. *)
Fixpoint importBatches_loop (importable : list batch) (c : batchSequencer)
    (su : StatusUpdater) (imported : nat)
  : option (batchSequencer * StatusUpdater * nat) :=
  match importable with
  | [] => Some (c, su, imported)
  | ib :: rest =>
      let '(su', err) := batchImporter ib su in
      match err with
      | Some _ =>
          c' ← update (withState ib batchErrRetryable) c;
          Some (c', su', imported)
      | None =>
          c' ← update (withState ib batchImportComplete) c;
          importBatches_loop rest c' su' (imported + 1)
      end
  end.

(** [func (s *Service) importBatches(ctx context.Context)]: the sequencer and
    the status updater after the call, and the number of batches imported
    (what the deferred function adds to the [backfillBatchesImported]
    counter).  The last log entry calls [numTodo]. *)
Definition importBatches (c : batchSequencer) (su : StatusUpdater)
  : option (batchSequencer * StatusUpdater * nat) :=
  '(c', su', imported) ← importBatches_loop (importable c) c su 0;
  _ ← numTodo c';
  Some (c', su', imported).

(** [func (s *Service) scheduleTodos()]: the sequencer after the call and the
    batches handed to [s.pool.Todo], in order. *)
Definition scheduleTodos (c : batchSequencer)
  : option (batchSequencer * list batch) :=
  '(c', (batches, err)) ← sequence c;
  match err with
  | Some e => if decide (e = errMaxBatches) then Some (c', [])
              else Some (c', batches)
  | None => Some (c', batches)
  end.


(** [func (s *Service) updateComplete() bool], given what [s.pool.Complete()]
    returns: the sequencer after the call and the result.  [log.Fatal] ends
    the process: no state is returned. *)
Definition updateComplete (completed : batch * option error)
    (c : batchSequencer) : option (batchSequencer * bool) :=
  let '(b, err) := completed in
  match err with
  | Some e => if decide (e = errEndSequence) then Some (c, true) else None
  | None => c' ← update b c; Some (c', false)
  end.

(** One round of the loop of [Start], given what [s.pool.Complete()] and
    [s.ms.minimumSlot()] return in it: [Some None] when the loop is left
    (backfill complete), [None] on a panic or on [log.Fatal], and otherwise
    the sequencer and the status updater after the round with the batches
    handed to the pool.  [batchesWaiting.Set] writes [countWithState] to a
    gauge. *)
Definition loop_round (completed : batch * option error) (minimumSlot : Slot)
    (c : batchSequencer) (su : StatusUpdater)
  : option (option (batchSequencer * StatusUpdater * list batch)) :=
  r ← updateComplete completed c;
  if (r.2 : bool) then Some None
  else
    '(c2, su', _) ← importBatches r.1 su;
    _ ← countWithState c2 batchImportable;
    let '(c3, err) := moveMinimum minimumSlot c2 in
    match err with
    | Some _ => None
    | None =>
        '(c4, todo) ← scheduleTodos c3;
        Some (Some (c4, su', todo))
    end.

End Driver.

(** ** The service and its start (service.go) *)










(** * Specification vocabulary *)

(** ** The batcher *)

(** What the specification says [before] returns: the sentinel at or below
    the floor, and otherwise the range that ends at [upTo] and begins at
    [max(min, upTo - size)], the difference being that of the integers. *)
Definition before_spec (r : batcher) (upTo : Slot) : Prop :=
  ((upTo <= min r)%Z ->
     state (before r upTo) = batchEndSequence /\
     begin (before r upTo) = upTo /\ end_ (before r upTo) = upTo) /\
  ((min r < upTo)%Z ->
     end_ (before r upTo) = upTo /\
     begin (before r upTo) = Z.max (min r) (upTo - size r)%Z).

(** ** [update] *)

(** What an entry [x] of the window becomes when [update b] visits it. *)
Definition replace_by (b x : batch) : batch :=
  if replaces b x then b else x.

(** The entries that [update] keeps. *)
Definition unfinished (x : batch) : Prop := state x <> batchImportComplete.

#[global] Instance unfinished_dec (x : batch) : Decision (unfinished x).
Proof. unfold unfinished. apply _. Defined.

(** The [n] batches the batcher issues below [lst], each one below the one
    before it. *)
Fixpoint chain (r : batcher) (n : nat) (lst : batch) : list batch :=
  match n with
  | O => []
  | S n' => let nb := beforeBatch r lst in nb :: chain r n' nb
  end.

(** The batch that [n] calls of [beforeBatch] reach from [lst]. *)
Fixpoint chain_end (r : batcher) (n : nat) (lst : batch) : batch :=
  match n with
  | O => lst
  | S n' => beforeBatch r (chain_end r n' lst)
  end.

(** The straightforward implementation of [update] that the specification's
    design note allows: rebuild the window from the entries that are kept,
    then the batches the batcher issues below the last entry. *)
Definition update_rebuild (b : batch) (c : batchSequencer)
  : option batchSequencer :=
  let w := replace_by b <$> seq c in
  lst ← last w;
  let kept := filter unfinished w in
  Some {| batcher_ := batcher_ c;
          seq := kept ++ chain (batcher_ c) (length w - length kept) lst |}.

(** The invariant of the first loop of [update] on the window [w0], before
    the round of index [i]: the first [i - done] entries are the kept ones
    among the first [i] entries, the entries from [i] on are untouched, and
    the entry before [i] is the one that was visited last. *)
Definition scan_inv (b : batch) (w0 : list batch) (i : nat)
    (st : list batch * nat) : Prop :=
  let '(w, done) := st in
  length w = length w0 /\ done <= i /\
  take (i - done) w = filter unfinished (replace_by b <$> take i w0) /\
  drop i w = drop i w0 /\
  (0 < i -> w !! (i - 1) = replace_by b <$> w0 !! (i - 1)).

(** The invariant of the second loop of [update], which starts at index [k]
    with the window [w1] and [lst = l0]: after [j] rounds the entries from
    [k] on are the first [j] batches of the chain below [l0]. *)
Definition fill_inv (r : batcher) (w1 : list batch) (k : nat) (l0 : batch)
    (i : nat) (st : list batch * batch) : Prop :=
  let '(w, lst) := st in
  exists j, i = k + j /\ length w = length w1 /\ take k w = take k w1 /\
    take j (drop k w) = chain r j l0 /\ lst = chain_end r j l0.

(** ** [sequence] *)

(** The states of the batches that [sequence] hands out. *)
Definition sequenced_or_end (x : batch) : Prop :=
  state x = batchSequenced \/ state x = batchEndSequence.

(** The invariant of the scan for the output: the window keeps its length
    and the output holds sequenced batches and sentinels only. *)
Definition output_inv (n : nat) (i : nat) (st : list batch * list batch) : Prop :=
  let '(w, s) := st in length w = n /\ Forall sequenced_or_end s.

(** ** The window *)

(** Adjacent entries tile: the lower bound of an entry is the upper bound of
    the entry after it. *)
Definition tiled (w : list batch) : Prop :=
  forall i x y, w !! i = Some x -> w !! S i = Some y -> begin x = end_ y.

(** The states a fresh sequencer reaches by any calls of [update] and
    [sequence] that return. *)
Inductive reachable : batchSequencer -> Prop :=
  | reachable_new (seqLen : nat) (mn mx sz : Slot) :
      reachable (newBatchSequencer seqLen mn mx sz)
  | reachable_update (c : batchSequencer) (b : batch) (c' : batchSequencer) :
      reachable c -> update b c = Some c' -> reachable c'
  | reachable_sequence (c c' : batchSequencer) (out : list batch * option error) :
      reachable c -> sequence c = Some (c', out) -> reachable c'.

(** The assumption that [update] documents, "batches complete and update is
    called in order": the entries that an [batchImportComplete] batch
    replaces are the leading entries of the window. *)
Definition in_order (b : batch) (c : batchSequencer) : Prop :=
  state b = batchImportComplete ->
  exists k, replaces b <$> seq c
            = replicate k true ++ replicate (length (seq c) - k) false.

(** The states a fresh sequencer reaches when [update] is called in order,
    and never with a batch in state [batchNil]. *)
Inductive reachable_in_order : batchSequencer -> Prop :=
  | in_order_new (seqLen : nat) (mn mx sz : Slot) :
      reachable_in_order (newBatchSequencer seqLen mn mx sz)
  | in_order_update (c : batchSequencer) (b : batch) (c' : batchSequencer) :
      reachable_in_order c -> state b <> batchNil -> in_order b c ->
      update b c = Some c' -> reachable_in_order c'
  | in_order_sequence (c c' : batchSequencer) (out : list batch * option error) :
      reachable_in_order c -> sequence c = Some (c', out) ->
      reachable_in_order c'.

(** Either the window is the one a fresh sequencer has, or no entry of it is
    [batchNil]. *)
Definition nil_uniform (w : list batch) : Prop :=
  w = replicate (length w) zeroBatch \/
  Forall (fun x => state x <> batchNil) w.

(** What [sequence] needs of a window to leave it tiled: an entry that is not
    [batchNil] follows an entry that is not [batchNil] either, and tiles with
    it. *)
Definition seq_ready (w : list batch) : Prop :=
  forall i x y, w !! i = Some x -> w !! S i = Some y ->
    state y <> batchNil -> state x <> batchNil /\ begin x = end_ y.

(** The invariant of the scan of [sequence] on the window [w0] for the
    window: the entries before [i] tile and none of them is [batchNil], the
    entries from [i] on are untouched, and an entry that was not [batchNil]
    has kept its bounds. *)
Definition window_inv (w0 : list batch) (i : nat)
    (st : list batch * list batch) : Prop :=
  let '(w, _) := st in
  length w = length w0 /\
  drop i w = drop i w0 /\
  tiled (take i w) /\
  Forall (fun x => state x <> batchNil) (take i w) /\
  (Forall unfinished w0 -> Forall unfinished (take i w)) /\
  (forall j x x0, w !! j = Some x -> w0 !! j = Some x0 -> j < i ->
     state x0 <> batchNil -> begin x = begin x0 /\ end_ x = end_ x0).

(** The parameters of the batcher are [uint64]s and [min + size] fits in one:
    the sum of its guard does not wrap around. *)
Definition batcher_fits (r : batcher) : Prop :=
  is_slot (min r) /\ is_slot (max r) /\ is_slot (size r) /\
  (min r + size r < slot_modulus)%Z.

(** The bounds of a batch are [uint64]s, the lower one at or below the upper
    one. *)
Definition valid_range (x : batch) : Prop :=
  is_slot (begin x) /\ is_slot (end_ x) /\ (begin x <= end_ x)%Z.

(** The invariant of the scan of [sequence] for the bounds. *)
Definition range_inv (n : nat) (i : nat) (st : list batch * list batch) : Prop :=
  let '(w, _) := st in length w = n /\ Forall valid_range w.

(** Every slot of the sequencer holds a [uint64]. *)
Definition slots_typed (c : batchSequencer) : Prop :=
  is_slot (min (batcher_ c)) /\ is_slot (max (batcher_ c)) /\
  is_slot (size (batcher_ c)) /\
  Forall (fun x => is_slot (begin x) /\ is_slot (end_ x)) (seq c).

(** No batch of the window ends below its beginning. *)
Definition ranges_ordered (w : list batch) : Prop :=
  Forall (fun x => (begin x <= end_ x)%Z) w.

(** The lower bound of the batch that the batcher issues below a slot. *)
Definition begin_before (r : batcher) (v : Slot) : Slot := begin (before r v).

(** The batches that [numTodo] counts: those that are neither the sentinel,
    nor complete, nor [batchNil]. *)
Definition active (x : batch) : Prop :=
  state x <> batchEndSequence /\ state x <> batchImportComplete /\
  state x <> batchNil.

#[global] Instance active_dec (x : batch) : Decision (active x).
Proof. unfold active. apply _. Defined.

(** The states in which [sequence] hands a batch out as sequenced. *)
Definition sequencable (x : batch) : Prop :=
  state x = batchNil \/ state x = batchInit \/ state x = batchErrRetryable.

#[global] Instance sequencable_dec (x : batch) : Decision (sequencable x).
Proof. unfold sequencable. apply _. Defined.

(** The invariant of the scan of [sequence] on the window [w0] that tells
    what has become of each entry and what the output holds: a sequencable
    entry is now [batchSequenced], any other entry is untouched; the output
    is empty as long as the scan has met neither a sequencable entry nor the
    sentinel; and as long as it has met no sequencable entry, the output is
    the first sentinel it has met, if any. *)
Definition sequence_inv (w0 : list batch) (i : nat)
    (st : list batch * list batch) : Prop :=
  let '(w, s) := st in
  length w = length w0 /\
  drop i w = drop i w0 /\
  (forall j x, j < i -> w0 !! j = Some x ->
     exists x', w !! j = Some x' /\
       (sequencable x ->
          state x' = batchSequenced /\
          (state x <> batchNil -> x' = withState x batchSequenced)) /\
       (~ sequencable x -> x' = x)) /\
  (s = [] <->
   Forall (fun x => ~ sequencable x /\ state x <> batchEndSequence) (take i w0)) /\
  (Forall (fun x => ~ sequencable x) (take i w0) ->
   s = take 1 (filter (fun x => state x = batchEndSequence) (take i w0))).

(** ** The service *)

(** The window as the service keeps it between two calls of the sequencer:
    the batcher's guard does not wrap around, the bounds of the batches are
    ordered [uint64]s, the window tiles, holds no [batchImportComplete] entry,
    and no [batchNil] entry unless it is fresh. *)
Definition window_wf (c : batchSequencer) : Prop :=
  batcher_fits (batcher_ c) /\ Forall valid_range (seq c) /\
  tiled (seq c) /\ Forall unfinished (seq c) /\ nil_uniform (seq c).

(** The range of a batch, which is all that [replaces] compares. *)
Definition bounds (x : batch) : Slot * Slot := (begin x, end_ x).

(** How the batches [l] that [importBatches] has still to import lie in the
    window [w] while its loop runs: the first [t] of them are stale, matching
    no entry of the window any more, and the others have the ranges of the
    leading entries of the window, in the same order. *)
Definition aligned (l w : list batch) : Prop :=
  exists t, t <= length l /\
    (forall x z, x ∈ take t l -> z ∈ w -> replaces x z = false) /\
    bounds <$> drop t l = bounds <$> take (length l - t) w.

(** * Properties *)

(** ** Slot arithmetic *)

Lemma slot_modulus_pos : (0 < slot_modulus)%Z.
Proof. reflexivity. Qed.

Lemma slot_wrap_id (z : Z) : is_slot z -> slot_wrap z = z.
Proof. intros Hz. unfold slot_wrap. apply Z.mod_small. exact Hz. Qed.

Lemma slot_wrap_is_slot (z : Z) : is_slot (slot_wrap z).
Proof. unfold is_slot, slot_wrap. apply Z.mod_pos_bound. reflexivity. Qed.

(** ** Counted loops *)

Section ForLoop.

Context {St : Type}.
Variable body : nat -> St -> option St.

(** The last iteration of a loop of [S n] rounds. *)
Lemma for_loop_snoc (n i : nat) (s : St) :
  for_loop (S n) i body s = for_loop n i body s ≫= body (i + n).
Proof.
  revert i s. induction n as [|n IH]; intros i s.
  - cbn. replace (i + 0) with i by lia. destruct (body i s); reflexivity.
  - change (for_loop (S (S n)) i body s)
      with (body i s ≫= for_loop (S n) (S i) body).
    change (for_loop (S n) i body s)
      with (body i s ≫= for_loop n (S i) body).
    destruct (body i s) as [s1|]; [|reflexivity].
    cbn [mbind option_bind]. rewrite (IH (S i) s1).
    replace (S i + n) with (i + S n) by lia. reflexivity.
Qed.

(** The invariant rule: a body that keeps [Inv] and does not panic below
    [hi] yields a loop that does not panic and ends in [Inv]. *)
Lemma for_loop_invariant (Inv : nat -> St -> Prop) (hi : nat) :
  (forall i s, i < hi -> Inv i s -> exists s', body i s = Some s' /\ Inv (S i) s') ->
  forall n i s, i + n <= hi -> Inv i s ->
    exists s', for_loop n i body s = Some s' /\ Inv (i + n) s'.
Proof.
  intros Hstep n. induction n as [|n IH]; intros i s Hle HI.
  - exists s. split; [reflexivity|]. replace (i + 0) with i by lia. exact HI.
  - destruct (Hstep i s) as (s1 & E1 & HI1); [lia|exact HI|].
    destruct (IH (S i) s1) as (s2 & E2 & HI2); [lia|exact HI1|].
    exists s2. split.
    + simpl. rewrite E1. exact E2.
    + replace (i + S n) with (S i + n) by lia. exact HI2.
Qed.

End ForLoop.

(** ** The batcher: [before] *)

Section Before.

Local Open Scope Z_scope.

(** The upper bound of a batch of the batcher is the slot it was asked for. *)
Lemma before_end (r : batcher) (upTo : Slot) : end_ (before r upTo) = upTo.
Proof. unfold before. destruct (upTo <=? min r); reflexivity. Qed.

(** The batcher issues batches in state [batchInit] or [batchEndSequence]. *)
Lemma before_state (r : batcher) (upTo : Slot) :
  state (before r upTo) = batchInit \/ state (before r upTo) = batchEndSequence.
Proof. unfold before. destruct (upTo <=? min r); [right|left]; reflexivity. Qed.

Lemma before_not_complete (r : batcher) (upTo : Slot) :
  state (before r upTo) <> batchImportComplete.
Proof. destruct (before_state r upTo) as [E|E]; rewrite E; discriminate. Qed.

(** Without wrap-around the batcher issues ranges that are in order: the
    batch below [upTo] begins at or below [upTo]. *)
Lemma before_valid (r : batcher) (upTo : Slot) :
  batcher_fits r -> is_slot upTo -> valid_range (before r upTo).
Proof.
  unfold batcher_fits, valid_range, is_slot, before.
  intros (Hmin & _ & Hsize & Hfit) Hup.
  destruct (Z.leb_spec upTo (min r)) as [Hle|Hgt]; cbn [begin end_]; [lia|].
  unfold slot_add, slot_sub, slot_wrap.
  rewrite (Z.mod_small (size r + min r)) by lia.
  destruct (Z.gtb_spec upTo (size r + min r)) as [Hbig|Hsmall]; [|lia].
  rewrite Z.mod_small by lia. lia.
Qed.

(** C3 (counterexample): with a floor ten slots below [2^64] and batches of 64
    slots, [size + min] wraps around to 54; [before(2^64 - 1)] then begins at
    [2^64 - 65], below the floor, where [max(min, upTo - size)] is the
    floor. *)
Lemma before_spec_counterexample :
  let r := {| min := 2 ^ 64 - 10; max := 2 ^ 64 - 1; size := 64 |} in
  let upTo := 2 ^ 64 - 1 in
  is_slot (min r) /\ is_slot (max r) /\ is_slot (size r) /\ is_slot upTo /\
  0 < size r /\ min r <= max r /\
  begin (before r upTo) = 2 ^ 64 - 65 /\
  ~ before_spec r upTo.
Proof.
  cbv zeta. repeat split; try (vm_compute; congruence).
  intros [_ H]. destruct H as [_ H]; [reflexivity|]. vm_compute in H. discriminate H.
Qed.

(** C3 (amended): for a batcher whose [min + size] fits in a [uint64], and
    every slot [upTo], [before upTo] is the [batchEndSequence] sentinel with
    both bounds [upTo] when [upTo <= min], and otherwise ends at [upTo] and
    begins at [max(min, upTo - size)], the subtraction never wrapping. *)
Theorem before_spec_no_overflow (r : batcher) (upTo : Slot) :
  is_slot (min r) -> is_slot (size r) -> is_slot upTo ->
  min r + size r < slot_modulus ->
  before_spec r upTo.
Proof.
  intros Hmin Hsize Hup Hfit. unfold before_spec, before.
  assert (Hsum : slot_add (size r) (min r) = size r + min r).
  { unfold slot_add. apply slot_wrap_id. unfold is_slot in *. lia. }
  rewrite Hsum. split.
  - intros Hle. apply Z.leb_le in Hle. rewrite Hle. repeat split.
  - intros Hlt. apply Z.leb_gt in Hlt. rewrite Hlt. cbn [end_ begin].
    split; [reflexivity|].
    destruct (Z.gtb_spec upTo (size r + min r)) as [Hgt|Hngt].
    + unfold slot_sub. rewrite slot_wrap_id by (unfold is_slot in *; lia). lia.
    + apply Z.leb_gt in Hlt. lia.
Qed.

(** An instance: the batcher of scenario S2 (min 0, max 320, size 64) asked
    for the batch below slot 100. *)
Lemma before_spec_no_overflow_witness :
  before_spec {| min := 0; max := 320; size := 64 |} 100.
Proof.
  apply before_spec_no_overflow; unfold is_slot, slot_modulus; simpl; lia.
Defined.

End Before.

(** ** [moveMinimum] *)

Section MoveMinimum.

Local Open Scope Z_scope.

(** C6: [moveMinimum m] returns [errCannotDecreaseMinimum] exactly when [m] is
    below the current minimum, and then the sequencer (batcher and window) is
    the one it was; otherwise it returns no error and the minimum is [m]. *)
Theorem moveMinimum_error_iff (m : Slot) (c : batchSequencer) :
  (snd (moveMinimum m c) = Some errCannotDecreaseMinimum <-> m < min (batcher_ c)) /\
  (m < min (batcher_ c) -> fst (moveMinimum m c) = c) /\
  (min (batcher_ c) <= m ->
     snd (moveMinimum m c) = None /\ minimum (fst (moveMinimum m c)) = m).
Proof.
  unfold moveMinimum, minimum.
  destruct (Z.ltb_spec m (min (batcher_ c))) as [Hlt|Hge]; cbn.
  - split; [split; [intros _; exact Hlt | reflexivity]|].
    split; [reflexivity | intros Hge; lia].
  - split; [split; [discriminate | intros Hlt; lia]|].
    split; [intros Hlt; lia | intros _; split; reflexivity].
Qed.

(** C10: a [moveMinimum m] with [m] at or above the current minimum returns
    no error and changes the batcher's [min] only: the window keeps every
    batch as it is (bounds, state and all), and [max] and [size] are
    unchanged; the batches that the batcher issues from then on are those of
    the floor [m], the sentinel at or below [m]. *)
Theorem moveMinimum_frame (m : Slot) (c : batchSequencer) :
  min (batcher_ c) <= m ->
  snd (moveMinimum m c) = None /\
  seq (fst (moveMinimum m c)) = seq c /\
  max (batcher_ (fst (moveMinimum m c))) = max (batcher_ c) /\
  size (batcher_ (fst (moveMinimum m c))) = size (batcher_ c) /\
  min (batcher_ (fst (moveMinimum m c))) = m /\
  (forall upTo,
     before (batcher_ (fst (moveMinimum m c))) upTo
     = before {| min := m; max := max (batcher_ c);
                 size := size (batcher_ c) |} upTo) /\
  (forall upTo, upTo <= m ->
     state (before (batcher_ (fst (moveMinimum m c))) upTo) = batchEndSequence).
Proof.
  intros Hge. unfold moveMinimum.
  destruct (Z.ltb_spec m (min (batcher_ c))) as [Hlt|_]; [lia|].
  cbn [fst snd seq batcher_ max size min].
  split; [reflexivity|]. split; [reflexivity|]. split; [reflexivity|].
  split; [reflexivity|]. split; [reflexivity|]. split; [reflexivity|].
  intros upTo Hup. unfold before. cbn [min].
  apply Z.leb_le in Hup. rewrite Hup. reflexivity.
Qed.

(** An instance: scenario S6, the floor of a sequencer of five entries raised
    from 0 to 80. *)
Lemma moveMinimum_frame_witness :
  let c := newBatchSequencer 5 0 320 64 in
  snd (moveMinimum 80 c) = None /\
  seq (fst (moveMinimum 80 c)) = seq c /\
  max (batcher_ (fst (moveMinimum 80 c))) = max (batcher_ c) /\
  size (batcher_ (fst (moveMinimum 80 c))) = size (batcher_ c) /\
  min (batcher_ (fst (moveMinimum 80 c))) = 80 /\
  (forall upTo,
     before (batcher_ (fst (moveMinimum 80 c))) upTo
     = before {| min := 80; max := max (batcher_ c);
                 size := size (batcher_ c) |} upTo) /\
  (forall upTo, upTo <= 80 ->
     state (before (batcher_ (fst (moveMinimum 80 c))) upTo) = batchEndSequence).
Proof.
  apply (moveMinimum_frame 80 (newBatchSequencer 5 0 320 64)). simpl. lia.
Defined.

End MoveMinimum.

(** ** [MinimumBackfillSlot] *)

Section MinimumBackfillSlot.

Local Open Scope Z_scope.

(** C8: the three configuration values being [uint64]s and [MaxSafeEpoch] an
    epoch whose first slot fits in a [uint64], for every slot [current],
    [MinimumBackfillSlot current] is [max(0, current - offset)] with
    [offset = min(MIN_EPOCHS_FOR_BLOCK_REQUESTS, MaxSafeEpoch) * SLOTS_PER_EPOCH]
    (a difference of integers); it is 0 whenever [offset] exceeds [current]. *)
Theorem MinimumBackfillSlot_spec (minEpochs maxSafeEpoch slotsPerEpoch : Z)
    (current : Slot) :
  is_slot minEpochs -> is_slot maxSafeEpoch -> is_slot slotsPerEpoch ->
  maxSafeEpoch * slotsPerEpoch < slot_modulus ->
  is_slot current ->
  let offset := Z.min minEpochs maxSafeEpoch * slotsPerEpoch in
  MinimumBackfillSlot minEpochs maxSafeEpoch slotsPerEpoch current
    = Z.max 0 (current - offset) /\
  (current < offset ->
     MinimumBackfillSlot minEpochs maxSafeEpoch slotsPerEpoch current = 0).
Proof.
  intros Hme Hms Hspe Hsafe Hcur offset.
  assert (Hoe : (if minEpochs >? maxSafeEpoch then maxSafeEpoch else minEpochs)
                = Z.min minEpochs maxSafeEpoch).
  { destruct (Z.gtb_spec minEpochs maxSafeEpoch); lia. }
  assert (Hoff : is_slot offset).
  { unfold is_slot, offset in *. nia. }
  assert (Hval : MinimumBackfillSlot minEpochs maxSafeEpoch slotsPerEpoch current
                 = Z.max 0 (current - offset)).
  { unfold MinimumBackfillSlot, UnsafeEpochStart, slot_mul. rewrite Hoe.
    replace (slotsPerEpoch * Z.min minEpochs maxSafeEpoch) with offset
      by (unfold offset; lia).
    rewrite (slot_wrap_id offset Hoff).
    destruct (Z.gtb_spec offset current) as [Hgt|Hle]; [lia|].
    unfold slot_sub. rewrite slot_wrap_id by (unfold is_slot in *; lia). lia. }
  split; [exact Hval|]. intros Hlt. rewrite Hval. lia.
Qed.

(** An instance: the mainnet values (33024 epochs of 32 slots, the largest
    safe epoch being [(2^64 - 1) / 32]) at slot 2000000. *)
Lemma MinimumBackfillSlot_spec_witness :
  MinimumBackfillSlot 33024 576460752303423487 32 2000000
    = Z.max 0 (2000000 - Z.min 33024 576460752303423487 * 32) /\
  (2000000 < Z.min 33024 576460752303423487 * 32 ->
     MinimumBackfillSlot 33024 576460752303423487 32 2000000 = 0).
Proof.
  apply (MinimumBackfillSlot_spec 33024 576460752303423487 32 2000000);
    unfold is_slot, slot_modulus; simpl; lia.
Defined.

End MinimumBackfillSlot.

(** ** [importable] *)

Section Importable.

(** The scan from index [i] with [n] entries left appends to [imp] the
    entries from [i] up to the first index [k] whose batch is not
    [batchImportable]. *)
Lemma importable_scan_prefix (w : list batch) (n i : nat) (imp : list batch) :
  i + n = length w ->
  exists k, i <= k <= length w /\
    importable_scan w n i imp = imp ++ take (k - i) (drop i w) /\
    (forall j x, i <= j < k -> w !! j = Some x -> state x = batchImportable) /\
    (forall x, w !! k = Some x -> state x <> batchImportable).
Proof.
  revert i imp. induction n as [|n IH]; intros i imp Hlen.
  - exists i. split; [lia|]. split.
    + cbn. replace (i - i) with 0 by lia. cbn. rewrite app_nil_r. reflexivity.
    + split; [intros j x Hj; lia|].
      intros x Hx. apply lookup_lt_Some in Hx. lia.
  - destruct (lookup_lt_is_Some_2 w i) as [x Hx]; [lia|].
    cbn [importable_scan]. rewrite Hx.
    destruct (decide (state x = batchImportable)) as [Himp|Hnot].
    + destruct (IH (S i) (imp ++ [x])) as (k & Hk & Heq & Hall & Hstop); [lia|].
      exists k. split; [lia|]. split; [|split; [|exact Hstop]].
      * rewrite Heq. rewrite <- app_assoc. f_equal.
        rewrite (drop_S w x i Hx). replace (k - i) with (S (k - S i)) by lia.
        reflexivity.
      * intros j y Hj Hy. destruct (decide (j = i)) as [->|Hne].
        -- rewrite Hx in Hy. injection Hy as <-. exact Himp.
        -- apply (Hall j y); [lia|exact Hy].
    + exists i. split; [lia|]. split; [|split].
      * replace (i - i) with 0 by lia. cbn. rewrite app_nil_r. reflexivity.
      * intros j y Hj; lia.
      * intros y Hy. rewrite Hx in Hy. injection Hy as <-. exact Hnot.
Qed.

(** C5: [importable] returns the longest prefix of the window whose batches
    are all [batchImportable]: it is a prefix, all of it is importable, the
    entry that follows it (if any) is not, so no batch at or after an entry
    in another state is returned, and the result is empty when the first
    entry is not importable. *)
Theorem importable_longest_prefix (c : batchSequencer) :
  let imp := importable c in
  imp = take (length imp) (seq c) /\
  Forall (fun x => state x = batchImportable) imp /\
  (forall x, seq c !! length imp = Some x -> state x <> batchImportable) /\
  (forall j x, seq c !! j = Some x -> state x <> batchImportable ->
     length imp <= j) /\
  (forall x, seq c !! 0 = Some x -> state x <> batchImportable -> imp = []).
Proof.
  cbv zeta. unfold importable.
  destruct (importable_scan_prefix (seq c) (length (seq c)) 0 [])
    as (k & Hk & Heq & Hall & Hstop); [lia|].
  rewrite Heq. cbn [app]. rewrite drop_0, Nat.sub_0_r.
  assert (Hlen : length (take k (seq c)) = k) by (rewrite length_take; lia).
  rewrite Hlen.
  assert (Hbefore : forall j x, seq c !! j = Some x ->
            state x <> batchImportable -> k <= j).
  { intros j x Hx Hnot. destruct (le_lt_dec k j) as [|Hlt]; [assumption|].
    exfalso. apply Hnot. apply (Hall j x); [lia|exact Hx]. }
  split; [reflexivity|]. split; [|split; [exact Hstop|split; [exact Hbefore|]]].
  - apply Forall_forall. intros x Hin.
    apply list_elem_of_lookup in Hin as [j Hj].
    assert (j < k) by (apply lookup_lt_Some in Hj; lia).
    rewrite lookup_take_lt in Hj by lia. apply (Hall j x); [lia|exact Hj].
  - intros x Hx Hnot. specialize (Hbefore 0 x Hx Hnot).
    replace k with 0 by lia. reflexivity.
Qed.

End Importable.

(** ** [update]: the in-place compaction rebuilds the window *)

Section UpdateRefinement.

Lemma chain_end_shift (r : batcher) (n : nat) (lst : batch) :
  chain_end r n (beforeBatch r lst) = beforeBatch r (chain_end r n lst).
Proof. induction n as [|n IH]; cbn; [reflexivity|]. rewrite IH. reflexivity. Qed.

Lemma chain_snoc (r : batcher) (n : nat) (lst : batch) :
  chain r (S n) lst = chain r n lst ++ [chain_end r (S n) lst].
Proof.
  revert lst. induction n as [|n IH]; intros lst; [reflexivity|].
  change (chain r (S (S n)) lst)
    with (beforeBatch r lst :: chain r (S n) (beforeBatch r lst)).
  rewrite IH. cbn [chain chain_end app]. rewrite chain_end_shift. reflexivity.
Qed.

Lemma length_chain (r : batcher) (n : nat) (lst : batch) :
  length (chain r n lst) = n.
Proof. revert lst. induction n as [|n IH]; intros lst; cbn; [|rewrite IH]; reflexivity. Qed.

Lemma scan_inv_step (b : batch) (w0 : list batch) (i : nat)
    (st : list batch * nat) :
  i < length w0 -> scan_inv b w0 i st ->
  exists st', update_scan b i st = Some st' /\ scan_inv b w0 (S i) st'.
Proof.
  destruct st as [w done]. intros Hi (Hlen & Hdone & Htake & Hdrop & Hprev).
  destruct (lookup_lt_is_Some_2 w0 i Hi) as [x Hx0].
  assert (Hx : w !! i = Some x).
  { rewrite <- (Nat.add_0_r i), <- lookup_drop, Hdrop, lookup_drop, Nat.add_0_r.
    exact Hx0. }
  assert (Hw1 : (if replaces b x then <[i:=b]> w else w) = <[i:=replace_by b x]> w).
  { unfold replace_by. destruct (replaces b x); [reflexivity|].
    symmetry. apply list_insert_id. exact Hx. }
  assert (Hnext : filter unfinished (replace_by b <$> take (S i) w0)
                  = filter unfinished (replace_by b <$> take i w0)
                    ++ filter unfinished [replace_by b x]).
  { rewrite (take_S_r w0 i x Hx0), fmap_app, filter_app. reflexivity. }
  unfold update_scan. rewrite Hx. cbn [mbind option_bind]. rewrite Hw1.
  rewrite list_lookup_insert_eq by lia. cbn [mbind option_bind].
  destruct (decide (state (replace_by b x) = batchImportComplete)) as [Hc|Hnc].
  - eexists. split; [reflexivity|]. unfold scan_inv.
    split; [rewrite length_insert; exact Hlen|]. split; [lia|].
    split; [|split].
    + replace (S i - S done) with (i - done) by lia.
      rewrite take_insert_ge by lia. rewrite Htake, Hnext.
      rewrite (filter_singleton_False unfinished _ []) by (intros Hu; exact (Hu Hc)).
      rewrite app_nil_r. reflexivity.
    + rewrite drop_insert_lt by lia. replace (S i) with (i + 1) by lia.
      rewrite <- !drop_drop, Hdrop. reflexivity.
    + intros _. replace (S i - 1) with i by lia.
      rewrite list_lookup_insert_eq by lia. rewrite Hx0. reflexivity.
  - destruct (decide (done <= i)) as [_|Hgt]; [|lia].
    eexists. split; [reflexivity|]. unfold scan_inv.
    split; [rewrite !length_insert; exact Hlen|]. split; [lia|].
    split; [|split].
    + replace (S i - done) with (S (i - done)) by lia.
      rewrite (take_S_r _ (i - done) (replace_by b x))
        by (apply list_lookup_insert_eq; rewrite length_insert; lia).
      rewrite take_insert_ge by lia. rewrite take_insert_ge by lia.
      rewrite Htake, Hnext.
      rewrite (filter_singleton_True unfinished _ []) by exact Hnc. reflexivity.
    + rewrite drop_insert_lt by lia. rewrite drop_insert_lt by lia.
      replace (S i) with (i + 1) by lia.
      rewrite <- !drop_drop, Hdrop. reflexivity.
    + intros _. replace (S i - 1) with i by lia. rewrite Hx0. cbn.
      destruct (decide (i - done = i)) as [->|Hne].
      * apply list_lookup_insert_eq. rewrite length_insert. lia.
      * rewrite list_lookup_insert_ne by exact Hne.
        apply list_lookup_insert_eq. lia.
Qed.

Lemma fill_inv_step (r : batcher) (w1 : list batch) (k : nat) (l0 : batch)
    (i : nat) (st : list batch * batch) :
  i < length w1 -> fill_inv r w1 k l0 i st ->
  exists st', update_fill r i st = Some st' /\ fill_inv r w1 k l0 (S i) st'.
Proof.
  destruct st as [w lst]. intros Hi (j & -> & Hlen & Htake & Hchain & ->).
  unfold update_fill.
  destruct (decide (k + j < length w)) as [Hlt|Hge]; [|lia].
  rewrite list_lookup_insert_eq by exact Hlt. cbn [mbind option_bind].
  eexists. split; [reflexivity|]. exists (S j).
  split; [lia|]. split; [rewrite length_insert; exact Hlen|].
  split; [rewrite take_insert_ge by lia; exact Htake|]. split; [|reflexivity].
  rewrite drop_insert_ge by lia. replace (k + j - k) with j by lia.
  rewrite (take_S_r _ j (beforeBatch r (chain_end r j l0)))
    by (apply list_lookup_insert_eq; rewrite length_drop; lia).
  rewrite take_insert_ge by lia. rewrite Hchain, chain_snoc. reflexivity.
Qed.

(** The loops of [update] compute what [update_rebuild] does, and panic on
    the same windows (the empty ones). *)
Theorem update_refines_rebuild (b : batch) (c : batchSequencer) :
  update b c = update_rebuild b c.
Proof.
  unfold update, update_rebuild. set (w0 := seq c). set (n := length w0).
  destruct (for_loop_invariant (update_scan b) (scan_inv b w0) n
              (scan_inv_step b w0) n 0 (w0, 0)) as ([w done] & E1 & HI).
  { lia. }
  { unfold scan_inv. repeat split; [lia|]. intros H0; lia. }
  rewrite E1. cbn [mbind option_bind].
  destruct HI as (Hlen & Hdone & Htake & _ & Hprev). cbn [Nat.add] in *.
  fold n in Hlen.
  destruct (decide (n = 0)) as [Hn|Hn].
  { assert (Hnil : w0 = []) by (apply length_zero_iff_nil; exact Hn).
    rewrite Hnil. reflexivity. }
  destruct (lookup_lt_is_Some_2 w0 (n - 1)) as [xl Hxl]; [unfold n in *; lia|].
  assert (Hlast : last (replace_by b <$> w0) = Some (replace_by b xl)).
  { rewrite last_lookup, length_fmap, list_lookup_fmap.
    replace (Init.Nat.pred (length w0)) with (n - 1) by (unfold n; lia).
    rewrite Hxl. reflexivity. }
  rewrite Hlast, Hprev by lia. rewrite Hxl. cbn [fmap option_fmap option_map mbind option_bind].
  set (r := batcher_ c). set (l0 := replace_by b xl).
  destruct (for_loop_invariant (update_fill r) (fill_inv r w (n - done) l0) n
              (fun i st Hi => fill_inv_step r w (n - done) l0 i st
                                ltac:(rewrite Hlen; exact Hi))
              done (n - done) (w, l0)) as ([w' lst'] & E2 & j & Hj & Hlen' & Htake' & Hchain & _).
  { lia. }
  { exists 0. split; [lia|]. repeat split. }
  rewrite E2. cbn [mbind option_bind]. do 2 f_equal.
  assert (j = done) by lia. subst j.
  rewrite (take_ge w0 n) in Htake by (unfold n; lia).
  assert (Hk : length (filter unfinished (replace_by b <$> w0)) = n - done).
  { rewrite <- Htake, length_take. lia. }
  rewrite Hk, length_fmap. fold n. replace (n - (n - done)) with done by lia.
  rewrite <- (take_drop (n - done) w'). f_equal.
  - rewrite Htake', Htake. reflexivity.
  - rewrite <- Hchain. symmetry. apply take_ge. rewrite length_drop. lia.
Qed.

End UpdateRefinement.

Section UpdateCompaction.

Lemma chain_states (r : batcher) (n : nat) (lst : batch) :
  Forall (fun z => state z = batchInit \/ state z = batchEndSequence)
         (chain r n lst).
Proof.
  revert lst. induction n as [|n IH]; intros lst; cbn; constructor.
  - apply before_state.
  - apply IH.
Qed.

Lemma chain_unfinished (r : batcher) (n : nat) (lst : batch) :
  Forall unfinished (chain r n lst).
Proof.
  eapply Forall_impl; [apply chain_states|].
  intros z [E|E]; unfold unfinished; rewrite E; discriminate.
Qed.

Lemma filter_unfinished (w : list batch) : Forall unfinished (filter unfinished w).
Proof.
  apply Forall_forall. intros x Hx. apply list_elem_of_filter in Hx. tauto.
Qed.

(** [update] panics exactly on the empty window. *)
Lemma update_None_iff (b : batch) (c : batchSequencer) :
  update b c = None <-> seq c = [].
Proof.
  rewrite update_refines_rebuild. unfold update_rebuild.
  destruct (last (replace_by b <$> seq c)) as [lst|] eqn:E; cbn.
  - split; [discriminate|]. intros Hnil. rewrite Hnil in E. discriminate E.
  - split; [|reflexivity]. intros _. apply last_None in E.
    apply fmap_nil_inv in E. exact E.
Qed.

(** C4: on a window that is not empty (the only windows on which [update]
    returns), [update b] returns a window of the same length without any
    [batchImportComplete] entry: it is made of the entries that are not
    complete once [b] has replaced the entries of its range, in their order,
    followed by as many batches as were removed, issued by the batcher one
    below the other, starting below the last entry. *)
Theorem update_no_import_complete (b : batch) (c : batchSequencer) :
  seq c <> [] ->
  exists c' lst,
    update b c = Some c' /\
    Forall (fun x => state x <> batchImportComplete) (seq c') /\
    batcher_ c' = batcher_ c /\
    length (seq c') = length (seq c) /\
    last (replace_by b <$> seq c) = Some lst /\
    let kept := filter (fun x => state x <> batchImportComplete)
                  (replace_by b <$> seq c) in
    seq c' = kept ++ chain (batcher_ c) (length (seq c) - length kept) lst.
Proof.
  intros Hne. rewrite update_refines_rebuild. unfold update_rebuild.
  destruct (last (replace_by b <$> seq c)) as [lst|] eqn:E.
  2:{ apply last_None, fmap_nil_inv in E. contradiction. }
  cbn [mbind option_bind]. eexists _, lst. split; [reflexivity|].
  cbn [seq batcher_]. rewrite length_fmap.
  split; [|split; [reflexivity|split; [|split; reflexivity]]].
  - apply Forall_app. split; [apply filter_unfinished|apply chain_unfinished].
  - rewrite length_app, length_chain.
    pose proof (length_filter unfinished (replace_by b <$> seq c)) as Hle.
    rewrite length_fmap in Hle. fold unfinished. lia.
Qed.

(** An instance: the first of two batches completes. *)
Lemma update_no_import_complete_witness :
  exists c' lst,
    update (mkBatch 128 192 batchImportComplete 7 [130%Z])
           (mkSequencer (mkBatcher 0 192 64)
              [mkBatch 128 192 batchImportable 7 [130%Z];
               mkBatch 64 128 batchSequenced 0 []]) = Some c' /\
    Forall (fun x => state x <> batchImportComplete) (seq c') /\
    batcher_ c' = mkBatcher 0 192 64 /\
    length (seq c') = 2 /\
    last (replace_by (mkBatch 128 192 batchImportComplete 7 [130%Z]) <$>
            [mkBatch 128 192 batchImportable 7 [130%Z];
             mkBatch 64 128 batchSequenced 0 []]) = Some lst /\
    seq c' = [mkBatch 64 128 batchSequenced 0 []] ++
             chain (mkBatcher 0 192 64) 1 lst.
Proof.
  apply (update_no_import_complete
           (mkBatch 128 192 batchImportComplete 7 [130%Z])
           (mkSequencer (mkBatcher 0 192 64)
              [mkBatch 128 192 batchImportable 7 [130%Z];
               mkBatch 64 128 batchSequenced 0 []])).
  simpl. discriminate.
Defined.

End UpdateCompaction.

(** ** [sequence] *)

Section Sequence.

(** One round of the scan writes one entry [x'] at its index and appends
    [out] to the output.  The entry keeps its bounds unless it was
    [batchNil]; a [batchNil] entry is re-issued by the batcher below the
    entry before it. *)
Lemma sequence_scan_facts (r : batcher) (i : nat) (w s : list batch) (x : batch) :
  w !! i = Some x ->
  exists x' out,
    sequence_scan r i (w, s) = Some (<[i:=x']> w, s ++ out) /\
    state x' <> batchNil /\
    (unfinished x -> unfinished x') /\
    (state x <> batchNil -> begin x' = begin x /\ end_ x' = end_ x) /\
    (state x = batchNil -> forall p, w !! (i - 1) = Some p -> 0 < i ->
       end_ x' = begin p) /\
    Forall sequenced_or_end out /\
    (batcher_fits r -> Forall valid_range w -> valid_range x').
Proof.
  intros Hx. unfold sequence_scan. rewrite Hx. cbn [mbind option_bind].
  assert (Hsame : forall s' out, s' = s ++ out -> Forall sequenced_or_end out ->
            state x <> batchNil ->
            exists x' out',
              Some (w, s') = Some (<[i:=x']> w, s ++ out') /\
              state x' <> batchNil /\
              (unfinished x -> unfinished x') /\
              (state x <> batchNil -> begin x' = begin x /\ end_ x' = end_ x) /\
              (state x = batchNil -> forall p, w !! (i - 1) = Some p -> 0 < i ->
                 end_ x' = begin p) /\
              Forall sequenced_or_end out' /\
              (batcher_fits r -> Forall valid_range w -> valid_range x')).
  { intros s' out -> Hout Hnn. exists x, out. rewrite (list_insert_id w i x Hx).
    split; [reflexivity|]. split; [exact Hnn|]. split; [intros H; exact H|].
    split; [intros _; split; reflexivity|]. split; [intros E; contradiction|].
    split; [exact Hout|]. intros _ Hall. apply (Forall_lookup_1 _ _ _ _ Hall Hx). }
  assert (Hre : forall y, (state x <> batchNil -> begin y = begin x /\ end_ y = end_ x) ->
            (state x = batchNil -> forall p, w !! (i - 1) = Some p -> 0 < i ->
               end_ y = begin p) ->
            (batcher_fits r -> Forall valid_range w -> valid_range y) ->
            exists x' out',
              Some (<[i:=withState y batchSequenced]> w,
                    s ++ [withState y batchSequenced])
                = Some (<[i:=x']> w, s ++ out') /\
              state x' <> batchNil /\
              (unfinished x -> unfinished x') /\
              (state x <> batchNil -> begin x' = begin x /\ end_ x' = end_ x) /\
              (state x = batchNil -> forall p, w !! (i - 1) = Some p -> 0 < i ->
                 end_ x' = begin p) /\
              Forall sequenced_or_end out' /\
              (batcher_fits r -> Forall valid_range w -> valid_range x')).
  { intros y Hrange Hnil Hvalid.
    exists (withState y batchSequenced), [withState y batchSequenced].
    split; [reflexivity|]. split; [discriminate|]. split; [intros _; discriminate|].
    split; [exact Hrange|]. split; [exact Hnil|].
    split; [constructor; [left; reflexivity|constructor]|exact Hvalid]. }
  assert (Hxvalid : batcher_fits r -> Forall valid_range w -> valid_range x).
  { intros _ Hall. apply (Forall_lookup_1 _ _ _ _ Hall Hx). }
  destruct (state x) eqn:Es.
  - (* batchNil *)
    destruct (decide (i = 0)) as [->|Hi]; cbn [mbind option_bind].
    + apply Hre; [intros H; contradiction|intros _ p _ H0; lia|].
      intros Hfits _. apply before_valid; [exact Hfits|]. apply Hfits.
    + destruct (lookup_lt_is_Some_2 w (i - 1)) as [p Hp].
      { apply lookup_lt_Some in Hx. lia. }
      specialize (Hre (beforeBatch r p)). rewrite Hp in Hre |- *.
      cbn [fmap option_fmap option_map mbind option_bind].
      apply Hre; [intros H; contradiction| |].
      * intros _ p' Hp' _. injection Hp' as <-. apply before_end.
      * intros Hfits Hall. apply before_valid; [exact Hfits|].
        apply (Forall_lookup_1 _ _ _ _ Hall Hp).
  - apply Hre; [intros _; split; reflexivity|discriminate|exact Hxvalid].
  - apply (Hsame s []); [symmetry; apply app_nil_r|constructor|discriminate].
  - apply (Hsame s []); [symmetry; apply app_nil_r|constructor|discriminate].
  - apply Hre; [intros _; split; reflexivity|discriminate|exact Hxvalid].
  - apply (Hsame s []); [symmetry; apply app_nil_r|constructor|discriminate].
  - apply (Hsame s []); [symmetry; apply app_nil_r|constructor|discriminate].
  - destruct (decide (length s = 0)).
    + apply (Hsame (s ++ [x]) [x]); [reflexivity| |discriminate].
      constructor; [right; exact Es|constructor].
    + apply (Hsame s []); [symmetry; apply app_nil_r|constructor|discriminate].
Qed.

Lemma output_inv_step (r : batcher) (n i : nat) (st : list batch * list batch) :
  i < n -> output_inv n i st ->
  exists st', sequence_scan r i st = Some st' /\ output_inv n (S i) st'.
Proof.
  destruct st as [w s]. intros Hi [Hlen Hs].
  destruct (lookup_lt_is_Some_2 w i) as [x Hx]; [lia|].
  destruct (sequence_scan_facts r i w s x Hx) as (x' & out & E & _ & _ & _ & _ & Hout & _).
  eexists. split; [exact E|]. split.
  - rewrite length_insert. exact Hlen.
  - apply Forall_app. split; assumption.
Qed.

(** C7: [sequence] always returns; it returns either a list that is not
    empty, with no error, or the empty list with [errMaxBatches]; and every
    batch of the returned list is in state [batchSequenced] or
    [batchEndSequence]. *)
Theorem sequence_output_states (c : batchSequencer) :
  exists c' s err,
    sequence c = Some (c', (s, err)) /\
    Forall (fun x => state x = batchSequenced \/ state x = batchEndSequence) s /\
    (err = None /\ s <> [] \/ err = Some errMaxBatches /\ s = []).
Proof.
  unfold sequence.
  destruct (for_loop_invariant (sequence_scan (batcher_ c))
              (output_inv (length (seq c))) (length (seq c))
              (output_inv_step (batcher_ c) (length (seq c)))
              (length (seq c)) 0 (seq c, []))
    as ([w s] & E & _ & Hs).
  { lia. }
  { split; [reflexivity|constructor]. }
  rewrite E. cbn [mbind option_bind].
  destruct (decide (length s = 0)) as [Hz|Hnz].
  - eexists _, [], _. split; [reflexivity|]. split; [constructor|].
    right. split; reflexivity.
  - eexists _, s, _. split; [reflexivity|]. split; [exact Hs|].
    left. split; [reflexivity|]. intros ->. apply Hnz. reflexivity.
Qed.

(** C2 (the code at the failing input): the window is reached from a fresh
    sequencer of two entries (min 0, max 128, size 64) by [sequence], an
    [update] that puts the upper batch in state [batchEndSequence] and one
    that puts the lower batch in state [batchErrRetryable].  [sequence] then
    returns the sentinel and, after it, the lower batch, which it has
    sequenced: the scan has gone on past the [batchEndSequence] entry.  It
    goes on as well when the output is not empty: in a window whose second
    entry is the sentinel, the third entry is sequenced and returned. *)
Example sequence_scans_past_end_sequence :
  let upper := mkBatch 64 128 batchEndSequence 0 [] in
  let lower := mkBatch 0 64 batchErrRetryable 0 [] in
  let c3 := mkSequencer (mkBatcher 0 128 64) [upper; lower] in
  let top := mkBatch 128 192 batchErrRetryable 0 [] in
  let c4 := mkSequencer (mkBatcher 0 192 64) [top; upper; lower] in
  (c1 ← fst <$> sequence (newBatchSequencer 2 0 128 64);
   c2 ← update upper c1;
   update lower c2) = Some c3 /\
  sequence c3
    = Some (mkSequencer (mkBatcher 0 128 64)
              [upper; withState lower batchSequenced],
            ([upper; withState lower batchSequenced], None)) /\
  sequence c4
    = Some (mkSequencer (mkBatcher 0 192 64)
              [withState top batchSequenced; upper;
               withState lower batchSequenced],
            ([withState top batchSequenced;
              withState lower batchSequenced], None)).
Proof. cbv zeta. repeat split; vm_compute; reflexivity. Qed.

End Sequence.

(** ** Invariant B1: the window tiles descending *)

Section Tiling.

Lemma tiled_nil : tiled [].
Proof. intros i x y Hx. rewrite lookup_nil in Hx. discriminate. Qed.

Lemma tiled_cons (x : batch) (l : list batch) :
  tiled (x :: l) <-> (forall y, head l = Some y -> begin x = end_ y) /\ tiled l.
Proof.
  split.
  - intros H. split.
    + intros y Hy. rewrite head_lookup in Hy. apply (H 0 x y); [reflexivity|exact Hy].
    + intros i a c Ha Hc. apply (H (S i) a c); assumption.
  - intros [Hhead Htl] i a c Ha Hc. destruct i as [|i].
    + cbn in Ha. injection Ha as <-. apply Hhead. rewrite head_lookup. exact Hc.
    + apply (Htl i a c); assumption.
Qed.

Lemma tiled_app (l1 l2 : list batch) :
  tiled l1 -> tiled l2 ->
  (forall x y, last l1 = Some x -> head l2 = Some y -> begin x = end_ y) ->
  tiled (l1 ++ l2).
Proof.
  induction l1 as [|x l1 IH]; intros H1 H2 Hj; [exact H2|].
  apply tiled_cons in H1 as [Hhead Htl]. cbn [app]. apply tiled_cons. split.
  - intros y Hy. destruct l1 as [|x1 l1].
    + apply Hj; [reflexivity|exact Hy].
    + apply Hhead. exact Hy.
  - apply IH; [exact Htl|exact H2|]. intros a c Ha Hc. apply Hj; [|exact Hc].
    destruct l1 as [|x1 l1]; [discriminate Ha|].
    rewrite last_cons_cons. exact Ha.
Qed.

Lemma tiled_drop (k : nat) (l : list batch) : tiled l -> tiled (drop k l).
Proof.
  intros H i x y Hx Hy. rewrite lookup_drop in Hx, Hy.
  apply (H (k + i) x y); [exact Hx|]. replace (S (k + i)) with (k + S i) by lia.
  exact Hy.
Qed.

(** A map that keeps the bounds of every batch keeps the tiling. *)
Lemma tiled_fmap (f : batch -> batch) (l : list batch) :
  (forall x, begin (f x) = begin x /\ end_ (f x) = end_ x) ->
  tiled l -> tiled (f <$> l).
Proof.
  intros Hf H i x y Hx Hy. rewrite list_lookup_fmap in Hx, Hy.
  destruct (l !! i) as [x0|] eqn:Ex; [|discriminate Hx].
  destruct (l !! S i) as [y0|] eqn:Ey; [|discriminate Hy].
  cbn in Hx, Hy. injection Hx as <-. injection Hy as <-.
  destruct (Hf x0) as [-> _]. destruct (Hf y0) as [_ ->].
  apply (H i x0 y0); assumption.
Qed.

Lemma replaces_bounds (b x : batch) :
  replaces b x = true -> begin b = begin x /\ end_ b = end_ x.
Proof.
  unfold replaces. intros H. apply andb_prop in H as [H1 H2].
  apply Z.eqb_eq in H1, H2. split; assumption.
Qed.

Lemma replace_by_bounds (b x : batch) :
  begin (replace_by b x) = begin x /\ end_ (replace_by b x) = end_ x.
Proof.
  unfold replace_by. destruct (replaces b x) eqn:E; [|split; reflexivity].
  apply replaces_bounds. exact E.
Qed.

Lemma chain_head (r : batcher) (n : nat) (lst y : batch) :
  head (chain r n lst) = Some y -> end_ y = begin lst.
Proof.
  destruct n as [|n]; cbn; [discriminate|]. intros H. injection H as <-.
  apply before_end.
Qed.

Lemma tiled_chain (r : batcher) (n : nat) (lst : batch) : tiled (chain r n lst).
Proof.
  revert lst. induction n as [|n IH]; intros lst; [apply tiled_nil|].
  cbn [chain]. apply tiled_cons. split; [|apply IH].
  intros y Hy. symmetry. apply (chain_head r n _ y Hy).
Qed.

Lemma tiled_replicate_zero (n : nat) : tiled (replicate n zeroBatch).
Proof.
  intros i x y Hx Hy. apply lookup_replicate_1 in Hx as [-> _].
  apply lookup_replicate_1 in Hy as [-> _]. reflexivity.
Qed.

End Tiling.

Section SequenceWindow.

Lemma last_take_lookup (i : nat) (w : list batch) (p : batch) :
  i <= length w -> last (take i w) = Some p -> 0 < i /\ w !! (i - 1) = Some p.
Proof.
  intros Hi Hp. rewrite last_lookup, length_take in Hp.
  replace (Init.Nat.min i (length w)) with i in Hp by lia.
  destruct i as [|i]; [rewrite take_0 in Hp; discriminate Hp|].
  split; [lia|]. cbn [Init.Nat.pred] in Hp. rewrite lookup_take_lt in Hp by lia.
  replace (S i - 1) with i by lia. exact Hp.
Qed.

Lemma window_inv_step (r : batcher) (w0 : list batch) (i : nat)
    (st : list batch * list batch) :
  seq_ready w0 -> i < length w0 -> window_inv w0 i st ->
  exists st', sequence_scan r i st = Some st' /\ window_inv w0 (S i) st'.
Proof.
  destruct st as [w s]. intros Hready Hi (Hlen & Hdrop & Htiled & Hnn & Hunf & Hrange).
  destruct (lookup_lt_is_Some_2 w0 i Hi) as [x Hx0].
  assert (Hx : w !! i = Some x).
  { rewrite <- (Nat.add_0_r i), <- lookup_drop, Hdrop, lookup_drop, Nat.add_0_r.
    exact Hx0. }
  destruct (sequence_scan_facts r i w s x Hx)
    as (x' & out & E & Hx'nn & Hx'unf & Hx'range & Hx'nil & _).
  eexists. split; [exact E|]. unfold window_inv.
  assert (Htake : take (S i) (<[i:=x']> w) = take i w ++ [x']).
  { rewrite (take_S_r _ i x') by (apply list_lookup_insert_eq; lia).
    rewrite take_insert_ge by lia. reflexivity. }
  split; [rewrite length_insert; exact Hlen|].
  split.
  { rewrite drop_insert_lt by lia. replace (S i) with (i + 1) by lia.
    rewrite <- !drop_drop, Hdrop. reflexivity. }
  rewrite Htake. split; [|split; [|split]].
  - apply tiled_app; [exact Htiled|apply tiled_cons; split; [discriminate|apply tiled_nil]|].
    intros p y Hp Hy. cbn in Hy. injection Hy as <-.
    apply last_take_lookup in Hp as [Hpos Hp]; [|lia].
    destruct (decide (state x = batchNil)) as [Hnil|Hnotnil].
    + symmetry. apply (Hx'nil Hnil p Hp Hpos).
    + destruct (Hx'range Hnotnil) as [_ ->].
      destruct (lookup_lt_is_Some_2 w0 (i - 1)) as [p0 Hp0]; [lia|].
      destruct (Hready (i - 1) p0 x Hp0) as [Hp0nn Hb].
      { replace (S (i - 1)) with i by lia. exact Hx0. }
      { exact Hnotnil. }
      destruct (Hrange (i - 1) p p0 Hp Hp0) as [-> _]; [lia|exact Hp0nn|].
      exact Hb.
  - apply Forall_app. split; [exact Hnn|]. constructor; [exact Hx'nn|constructor].
  - intros Hall. apply Forall_app. split; [apply Hunf; exact Hall|].
    constructor; [|constructor]. apply Hx'unf.
    apply (Forall_lookup_1 _ _ _ _ Hall Hx0).
  - intros j a a0 Ha Ha0 Hj Ha0nn. destruct (decide (j = i)) as [->|Hne].
    + rewrite list_lookup_insert_eq in Ha by lia. injection Ha as <-.
      rewrite Hx0 in Ha0. injection Ha0 as <-. apply Hx'range. exact Ha0nn.
    + rewrite list_lookup_insert_ne in Ha by (intros Heq; apply Hne; symmetry; exact Heq).
      apply (Hrange j a a0 Ha Ha0); [lia|exact Ha0nn].
Qed.

(** [sequence] leaves a window that is ready for it tiled and without any
    [batchNil] entry; it keeps the batcher, and adds no complete batch. *)
Lemma sequence_window (c c' : batchSequencer) (out : list batch * option error) :
  sequence c = Some (c', out) -> seq_ready (seq c) ->
  tiled (seq c') /\
  Forall (fun x => state x <> batchNil) (seq c') /\
  (Forall unfinished (seq c) -> Forall unfinished (seq c')) /\
  batcher_ c' = batcher_ c.
Proof.
  intros Hseq Hready. unfold sequence in Hseq.
  destruct (for_loop_invariant (sequence_scan (batcher_ c))
              (window_inv (seq c)) (length (seq c))
              (fun i st => window_inv_step (batcher_ c) (seq c) i st Hready)
              (length (seq c)) 0 (seq c, []))
    as ([w s] & E & Hlen & _ & Htiled & Hnn & Hunf & _).
  { lia. }
  { unfold window_inv. rewrite take_0.
    split; [reflexivity|]. split; [reflexivity|]. split; [apply tiled_nil|].
    split; [constructor|]. split; [intros _; constructor|].
    intros j x x0 _ _ Hj. lia. }
  rewrite E in Hseq. cbn [mbind option_bind Nat.add] in *.
  rewrite take_ge in Htiled, Hnn, Hunf by lia.
  assert (Hc' : seq c' = w /\ batcher_ c' = batcher_ c).
  { destruct (decide (length s = 0)); injection Hseq as <- _; split; reflexivity. }
  destruct Hc' as [-> ->]. repeat split; assumption.
Qed.

End SequenceWindow.

Section UpdateWindow.

(** A list whose first [k] elements fail [P] and whose other elements
    satisfy it is filtered to what follows the first [k] elements. *)
Lemma filter_suffix {A : Type} (P : A -> Prop) `{!forall x, Decision (P x)}
    (l : list A) (k : nat) :
  (forall i x, l !! i = Some x -> i < k -> ~ P x) ->
  (forall i x, l !! i = Some x -> k <= i -> P x) ->
  filter P l = drop k l.
Proof.
  revert k. induction l as [|a l IH]; intros k Hlow Hhigh.
  - rewrite drop_nil. reflexivity.
  - destruct k as [|k].
    + rewrite filter_cons_True by (apply (Hhigh 0 a); [reflexivity|lia]).
      rewrite drop_0. f_equal. rewrite (IH 0), drop_0; [reflexivity| |].
      * intros i x _ Hi. lia.
      * intros i x Hx _. apply (Hhigh (S i) x); [exact Hx|lia].
    + rewrite filter_cons_False by (apply (Hlow 0 a); [reflexivity|lia]).
      cbn [drop]. apply IH.
      * intros i x Hx Hi. apply (Hlow (S i) x); [exact Hx|lia].
      * intros i x Hx Hi. apply (Hhigh (S i) x); [exact Hx|lia].
Qed.

Lemma filter_all {A : Type} (P : A -> Prop) `{!forall x, Decision (P x)}
    (l : list A) :
  Forall P l -> filter P l = l.
Proof.
  intros Hall. rewrite (filter_suffix P l 0), drop_0; [reflexivity| |].
  - intros i x _ Hi. lia.
  - intros i x Hx _. apply (Forall_lookup_1 _ _ _ _ Hall Hx).
Qed.

Lemma last_drop_nonempty {A : Type} (k : nat) (l : list A) :
  drop k l <> [] -> last (drop k l) = last l.
Proof.
  intros Hne. assert (Hk : k < length l).
  { destruct (le_lt_dec (length l) k) as [Hge|Hlt]; [|exact Hlt].
    exfalso. apply Hne. apply drop_ge. exact Hge. }
  rewrite !last_lookup, lookup_drop, length_drop. f_equal. lia.
Qed.

Lemma replace_by_unfinished (b x : batch) :
  unfinished b -> unfinished x -> unfinished (replace_by b x).
Proof. unfold replace_by. destruct (replaces b x); intros; assumption. Qed.

(** When batches complete in order, the entries [update] keeps are a suffix
    of the window. *)
Lemma kept_suffix (b : batch) (c : batchSequencer) :
  Forall unfinished (seq c) -> in_order b c ->
  exists k, filter unfinished (replace_by b <$> seq c)
            = drop k (replace_by b <$> seq c).
Proof.
  intros Hunf Hord. destruct (decide (state b = batchImportComplete)) as [Hc|Hnc].
  - destruct (Hord Hc) as [k Hk]. exists k. apply filter_suffix.
    + intros i x1 Hx1 Hi. rewrite list_lookup_fmap in Hx1.
      destruct (seq c !! i) as [x|] eqn:Ex; [|discriminate Hx1].
      cbn in Hx1. injection Hx1 as <-.
      assert (Hflag : (replaces b <$> seq c) !! i = Some true).
      { rewrite Hk, lookup_app_l by (rewrite length_replicate; exact Hi).
        apply lookup_replicate_2. exact Hi. }
      rewrite list_lookup_fmap, Ex in Hflag. cbn in Hflag. injection Hflag as Hflag.
      unfold replace_by. rewrite Hflag. intros Hu. exact (Hu Hc).
    + intros i x1 Hx1 Hi. rewrite list_lookup_fmap in Hx1.
      destruct (seq c !! i) as [x|] eqn:Ex; [|discriminate Hx1].
      cbn in Hx1. injection Hx1 as <-.
      assert (Hflag : (replaces b <$> seq c) !! i = Some (replaces b x)).
      { rewrite list_lookup_fmap, Ex. reflexivity. }
      rewrite Hk, lookup_app_r in Hflag by (rewrite length_replicate; exact Hi).
      apply lookup_replicate_1 in Hflag as [Hflag _].
      unfold replace_by. rewrite Hflag. apply (Forall_lookup_1 _ _ _ _ Hunf Ex).
  - exists 0. rewrite drop_0. apply filter_all. apply Forall_fmap.
    eapply Forall_impl; [exact Hunf|]. intros x Hx. cbn.
    apply replace_by_unfinished; [exact Hnc|exact Hx].
Qed.

(** [update], called in order on a tiled window without complete batches,
    leaves the window tiled. *)
Lemma update_window_tiled (b : batch) (c c' : batchSequencer) :
  update b c = Some c' -> tiled (seq c) -> Forall unfinished (seq c) ->
  in_order b c -> tiled (seq c').
Proof.
  rewrite update_refines_rebuild. unfold update_rebuild.
  intros Hupd Htiled Hunf Hord.
  destruct (last (replace_by b <$> seq c)) as [lst|] eqn:Elast; [|discriminate Hupd].
  cbn [mbind option_bind] in Hupd. injection Hupd as <-. cbn [seq].
  destruct (kept_suffix b c Hunf Hord) as [k ->].
  apply tiled_app.
  - apply tiled_drop, tiled_fmap; [apply replace_by_bounds|exact Htiled].
  - apply tiled_chain.
  - intros p y Hp Hy. apply chain_head in Hy. rewrite Hy.
    rewrite last_drop_nonempty in Hp by (intros Hnil; rewrite Hnil in Hp; discriminate Hp).
    rewrite Elast in Hp. injection Hp as <-. reflexivity.
Qed.

Lemma update_unfinished (b : batch) (c c' : batchSequencer) :
  update b c = Some c' -> Forall unfinished (seq c').
Proof.
  rewrite update_refines_rebuild. unfold update_rebuild. intros Hupd.
  destruct (last (replace_by b <$> seq c)) as [lst|]; [|discriminate Hupd].
  cbn [mbind option_bind] in Hupd. injection Hupd as <-. cbn [seq].
  apply Forall_app. split; [apply filter_unfinished|apply chain_unfinished].
Qed.

Lemma update_window_nil (b : batch) (c c' : batchSequencer) :
  update b c = Some c' -> state b <> batchNil -> nil_uniform (seq c) ->
  nil_uniform (seq c').
Proof.
  rewrite update_refines_rebuild. unfold update_rebuild. intros Hupd Hb Hnil.
  destruct (last (replace_by b <$> seq c)) as [lst|]; [|discriminate Hupd].
  cbn [mbind option_bind] in Hupd. injection Hupd as <-. cbn [seq].
  assert (Hno : Forall (fun x => state x <> batchNil) (replace_by b <$> seq c) ->
                nil_uniform
                  (filter unfinished (replace_by b <$> seq c) ++
                   chain (batcher_ c)
                     (length (replace_by b <$> seq c) -
                      length (filter unfinished (replace_by b <$> seq c))) lst)).
  { intros Hall. right. apply Forall_app. split.
    - apply Forall_forall. intros x Hx. apply list_elem_of_filter in Hx as [_ Hx].
      revert x Hx. apply Forall_forall. exact Hall.
    - eapply Forall_impl; [apply chain_states|].
      intros z [E|E]; rewrite E; discriminate. }
  destruct Hnil as [Hzero|Hnn].
  - destruct (replaces b zeroBatch) eqn:Erep.
    + apply Hno. rewrite Hzero, fmap_replicate. apply Forall_replicate.
      unfold replace_by. rewrite Erep. exact Hb.
    + assert (Hsame : replace_by b <$> seq c = seq c).
      { rewrite Hzero at 1. rewrite fmap_replicate. unfold replace_by.
        rewrite Erep. symmetry. exact Hzero. }
      rewrite Hsame. rewrite filter_all.
      * rewrite Nat.sub_diag. cbn [chain]. rewrite app_nil_r. left. exact Hzero.
      * rewrite Hzero. apply Forall_replicate. discriminate.
  - apply Hno. apply Forall_fmap. eapply Forall_impl; [exact Hnn|].
    intros x Hx. cbn. unfold replace_by. destruct (replaces b x); assumption.
Qed.

End UpdateWindow.

Section TilingInvariant.

Lemma seq_ready_of_tiled (w : list batch) :
  tiled w -> nil_uniform w -> seq_ready w.
Proof.
  intros Htiled [Hzero|Hnn] i x y Hx Hy Hynn.
  - rewrite Hzero in Hy. apply lookup_replicate_1 in Hy as [-> _].
    exfalso. apply Hynn. reflexivity.
  - split; [apply (Forall_lookup_1 _ _ _ _ Hnn Hx)|apply (Htiled i x y Hx Hy)].
Qed.

(** What holds of the window in every state reached in order. *)
Lemma reachable_in_order_window (c : batchSequencer) :
  reachable_in_order c ->
  tiled (seq c) /\ Forall unfinished (seq c) /\ nil_uniform (seq c).
Proof.
  induction 1 as [n mn mx sz|c b c' _ (Htiled & Hunf & Hnil) Hb Hord Hupd
                  |c c' out _ (Htiled & Hunf & Hnil) Hseq].
  - cbn [newBatchSequencer seq]. split; [apply tiled_replicate_zero|].
    split; [apply Forall_replicate; discriminate|].
    left. rewrite length_replicate. reflexivity.
  - split; [exact (update_window_tiled b c c' Hupd Htiled Hunf Hord)|].
    split; [exact (update_unfinished b c c' Hupd)|].
    exact (update_window_nil b c c' Hupd Hb Hnil).
  - destruct (sequence_window c c' out Hseq (seq_ready_of_tiled _ Htiled Hnil))
      as (Ht & Hnn & Hu & _).
    split; [exact Ht|]. split; [exact (Hu Hunf)|]. right. exact Hnn.
Qed.

(** C1 (counterexample): from a fresh sequencer of three entries (min 0,
    max 192, size 64), [sequence] and then an [update] that completes the
    middle batch [64,128) before the first one reach a window whose first
    entry begins at 128 while the second ends at 64.  And from a fresh
    sequencer of two entries (min 0, max 128, size 64), [sequence], the
    [update] that completes the first batch, an [update] that hands the
    batch [0,64) back in state [batchNil] and [sequence], which issues the
    first entry anew from [max], reach a window whose first entry begins at
    64 while the second ends at 0. *)
Lemma tiling_counterexample :
  let out_of_order := mkSequencer (mkBatcher 0 192 64)
                        [mkBatch 128 192 batchSequenced 0 [];
                         mkBatch 0 64 batchSequenced 0 [];
                         mkBatch 0 0 batchEndSequence 0 []] in
  let nil_again := mkSequencer (mkBatcher 0 128 64)
                     [mkBatch 64 128 batchSequenced 0 [];
                      mkBatch 0 0 batchEndSequence 0 []] in
  (reachable out_of_order /\ ~ tiled (seq out_of_order)) /\
  (reachable nil_again /\ ~ tiled (seq nil_again)).
Proof.
  cbv zeta. split; split.
  - eapply (reachable_update _ (mkBatch 64 128 batchImportComplete 0 [])).
    + eapply reachable_sequence; [apply (reachable_new 3 0 192 64)|].
      vm_compute. reflexivity.
    + vm_compute. reflexivity.
  - intros H. specialize (H 0 _ _ eq_refl eq_refl). discriminate H.
  - eapply reachable_sequence.
    + eapply (reachable_update _ (mkBatch 0 64 batchNil 0 [])).
      * eapply (reachable_update _ (mkBatch 64 128 batchImportComplete 0 [])).
        -- eapply reachable_sequence; [apply (reachable_new 2 0 128 64)|].
           vm_compute. reflexivity.
        -- vm_compute. reflexivity.
      * vm_compute. reflexivity.
    + vm_compute. reflexivity.
  - intros H. specialize (H 0 _ _ eq_refl eq_refl). discriminate H.
Qed.

(** C1 (amended): in every state reached from a fresh sequencer by calls of
    [sequence] and by calls of [update] that are made in order (a batch in
    state [batchImportComplete] replaces leading entries of the window only)
    and never with a batch in state [batchNil], adjacent entries of the
    window tile: [seq[i].begin == seq[i+1].end] whenever [i+1] is in range. *)
Theorem reachable_in_order_tiled (c : batchSequencer) :
  reachable_in_order c ->
  forall i x y, seq c !! i = Some x -> seq c !! S i = Some y ->
    begin x = end_ y.
Proof.
  intros Hreach. destruct (reachable_in_order_window c Hreach) as [Htiled _].
  exact Htiled.
Qed.

(** An instance: the window of three entries after [sequence] and the
    completion of its first batch. *)
Lemma reachable_in_order_tiled_witness :
  tiled [mkBatch 64 128 batchSequenced 0 [];
         mkBatch 0 64 batchSequenced 0 [];
         mkBatch 0 0 batchEndSequence 0 []].
Proof.
  refine (reachable_in_order_tiled
            (mkSequencer (mkBatcher 0 192 64)
               [mkBatch 64 128 batchSequenced 0 [];
                mkBatch 0 64 batchSequenced 0 [];
                mkBatch 0 0 batchEndSequence 0 []]) _).
  eapply (in_order_update _ (mkBatch 128 192 batchImportComplete 3 [150%Z])).
  - eapply in_order_sequence; [apply (in_order_new 3 0 192 64)|].
    vm_compute. reflexivity.
  - simpl. discriminate.
  - intros _. exists 1. vm_compute. reflexivity.
  - vm_compute. reflexivity.
Defined.

End TilingInvariant.

(** ** Calling [update] twice *)

Section BatcherChain.

Local Open Scope Z_scope.

Lemma chain_lookup (r : batcher) (d : nat) (lst : batch) (m : nat) (z : batch) :
  chain r d lst !! m = Some z ->
  (m < d)%nat /\ z = before r (Nat.iter m (begin_before r) (begin lst)).
Proof.
  revert lst m. induction d as [|d IH]; intros lst m Hz; [discriminate Hz|].
  cbn [chain] in Hz. destruct m as [|m].
  - cbn in Hz. injection Hz as <-. split; [lia|reflexivity].
  - cbn [lookup list_lookup] in Hz. apply IH in Hz as [Hm ->]. split; [lia|].
    rewrite Nat.iter_succ_r. reflexivity.
Qed.

(** Below a slot at which it issues an empty batch, the batcher issues that
    batch again and again. *)
Lemma chain_const (r : batcher) (d : nat) (lst : batch) :
  begin_before r (begin lst) = begin lst ->
  chain r d lst = replicate d (before r (begin lst)).
Proof.
  intros Hfix. revert lst Hfix. induction d as [|d IH]; intros lst Hfix; [reflexivity|].
  cbn [chain replicate]. unfold beforeBatch. f_equal.
  rewrite IH; unfold begin_before in *; rewrite Hfix; [reflexivity|exact Hfix].
Qed.

(** The chain depends on the lower bound of the batch it starts below only. *)
Lemma chain_begin_ext (r : batcher) (d : nat) (l1 l2 : batch) :
  begin l1 = begin l2 -> chain r d l1 = chain r d l2.
Proof.
  intros Heq. destruct d as [|d]; [reflexivity|].
  cbn [chain]. unfold beforeBatch. rewrite Heq. reflexivity.
Qed.

(** The slots at which the batcher issues an empty batch: the slots at or
    below the floor, and all of them when the batch size is 0. *)
Lemma begin_before_fixed (r : batcher) (a : Slot) :
  is_slot (min r) -> is_slot (size r) -> is_slot a ->
  begin_before r a = a -> a <= min r \/ size r = 0.
Proof.
  unfold begin_before, before, is_slot. intros Hmin Hsize Ha.
  destruct (Z.leb_spec a (min r)) as [Hle|Hgt]; [left; exact Hle|].
  cbn [begin].
  destruct (a >? slot_add (size r) (min r)); [|intros Heq; lia].
  unfold slot_sub, slot_wrap. intros Heq. right.
  destruct (Z_le_gt_dec (size r) a) as [Hsa|Hsa].
  - rewrite Z.mod_small in Heq by lia. lia.
  - rewrite <- (Z.mod_add _ 1 slot_modulus) in Heq by (unfold slot_modulus; lia).
    rewrite Z.mod_small in Heq by lia. lia.
Qed.

Lemma begin_before_floor (r : batcher) (u : Slot) :
  is_slot (min r) -> is_slot u -> u <= min r \/ size r = 0 ->
  begin_before r u = u.
Proof.
  unfold begin_before, before, is_slot. intros Hmin Hu Hcase.
  destruct (Z.leb_spec u (min r)) as [Hle|Hgt]; [reflexivity|].
  destruct Hcase as [Hle|Hzero]; [lia|]. cbn [begin]. rewrite Hzero.
  unfold slot_add, slot_sub, slot_wrap. rewrite Z.add_0_l, Z.sub_0_r.
  rewrite (Z.mod_small (min r)) by lia.
  destruct (Z.gtb_spec u (min r)) as [_|Hle]; [|lia].
  apply Z.mod_small. lia.
Qed.

Lemma iter_fixed {A : Type} (f : A -> A) (x : A) (m : nat) :
  f x = x -> Nat.iter m f x = x.
Proof.
  intros Hfix. induction m as [|m IH]; [reflexivity|].
  rewrite Nat.iter_succ, IH. exact Hfix.
Qed.

End BatcherChain.

Section UpdateTwice.

(** A filter that shortens a list removes an element. *)
Lemma one_removed {A : Type} (P : A -> Prop) `{!forall x, Decision (P x)}
    (l : list A) :
  length (filter P l) < length l -> exists i x, l !! i = Some x /\ ~ P x.
Proof.
  induction l as [|a l IH]; intros Hlt; [cbn in Hlt; lia|].
  destruct (decide (P a)) as [Ha|Ha].
  - rewrite filter_cons_True in Hlt by exact Ha. cbn [length] in Hlt.
    destruct IH as (i & x & Hx & Hnx); [lia|]. exists (S i), x. split; assumption.
  - exists 0, a. split; [reflexivity|exact Ha].
Qed.

(** A filter that shortens a list by two removes two elements. *)
Lemma two_removed {A : Type} (P : A -> Prop) `{!forall x, Decision (P x)}
    (l : list A) :
  2 <= length l - length (filter P l) ->
  exists i j x y, i < j /\ l !! i = Some x /\ l !! j = Some y /\ ~ P x /\ ~ P y.
Proof.
  induction l as [|a l IH]; intros Hge; [cbn in Hge; lia|].
  destruct (decide (P a)) as [Ha|Ha].
  - rewrite filter_cons_True in Hge by exact Ha. cbn [length] in Hge.
    destruct IH as (i & j & x & y & Hij & Hx & Hy & Hnx & Hny); [lia|].
    exists (S i), (S j), x, y. repeat split; try assumption. lia.
  - rewrite filter_cons_False in Hge by exact Ha. cbn [length] in Hge.
    destruct (one_removed P l) as (j & y & Hy & Hny); [lia|].
    exists 0, (S j), a, y. repeat split; try assumption. lia.
Qed.

(** In a tiled window of ordered ranges, a later entry lies below an earlier
    one. *)
Lemma tiled_descending (w : list batch) (i j : nat) (x y : batch) :
  tiled w -> ranges_ordered w -> i < j ->
  w !! i = Some x -> w !! j = Some y -> (end_ y <= begin x)%Z.
Proof.
  intros Htiled Hord Hij Hx. revert y.
  induction j as [|j IH]; intros y Hy; [lia|].
  destruct (decide (i = j)) as [->|Hne].
  - rewrite (Htiled j x y Hx Hy). lia.
  - destruct (lookup_lt_is_Some_2 w j) as [z Hz].
    { apply lookup_lt_Some in Hy. lia. }
    assert (Hzx : (end_ z <= begin x)%Z) by (apply IH; [lia|exact Hz]).
    pose proof (Htiled j z y Hz Hy) as Hzy.
    pose proof (Forall_lookup_1 _ _ _ _ Hord Hz) as Hzz. cbn in Hzz. lia.
Qed.

Lemma replace_by_idem (b x : batch) :
  replace_by b (replace_by b x) = replace_by b x.
Proof.
  unfold replace_by. destruct (replaces b x) eqn:E.
  - destruct (replaces b b); reflexivity.
  - rewrite E. reflexivity.
Qed.

Lemma replace_by_fixed (b x : batch) : replaces b x = false -> replace_by b x = x.
Proof. unfold replace_by. intros ->. reflexivity. Qed.

(** On a window without complete batches in which [b] replaces nothing but
    itself, [update b] changes nothing. *)
Lemma update_rebuild_fixed (b : batch) (c : batchSequencer) :
  seq c <> [] -> Forall unfinished (seq c) -> replace_by b <$> seq c = seq c ->
  update_rebuild b c = Some c.
Proof.
  intros Hne Hunf Hfix. unfold update_rebuild. rewrite Hfix.
  destruct (last (seq c)) as [lst|] eqn:E.
  2:{ apply last_None in E. contradiction. }
  cbn [mbind option_bind]. rewrite filter_all by exact Hunf.
  rewrite Nat.sub_diag. cbn [chain]. rewrite app_nil_r. destruct c; reflexivity.
Qed.

Lemma fmap_fixed {A : Type} (f : A -> A) (l : list A) :
  Forall (fun x => f x = x) l -> f <$> l = l.
Proof.
  induction 1 as [|x l Hx _ IH]; [reflexivity|].
  cbn [fmap list_fmap]. rewrite Hx. f_equal. exact IH.
Qed.

Lemma filter_none {A : Type} (P : A -> Prop) `{!forall x, Decision (P x)}
    (l : list A) :
  Forall (fun x => ~ P x) l -> filter P l = [].
Proof.
  intros Hall. rewrite (filter_suffix P l (length l)), drop_all; [reflexivity| |].
  - intros i x Hx _. apply (Forall_lookup_1 _ _ _ _ Hall Hx).
  - intros i x Hx Hi. apply lookup_lt_Some in Hx. lia.
Qed.

Lemma last_replicate {A : Type} (n : nat) (x : A) :
  0 < n -> last (replicate n x) = Some x.
Proof.
  intros Hn. rewrite last_lookup, length_replicate. apply lookup_replicate_2. lia.
Qed.

(** An entry that [update b] removes from a window without complete batches
    is one that [b], itself complete, has replaced. *)
Lemma removed_matches (b : batch) (w : list batch) (i : nat) (x1 : batch) :
  Forall unfinished w -> (replace_by b <$> w) !! i = Some x1 -> ~ unfinished x1 ->
  state b = batchImportComplete /\
  exists x, w !! i = Some x /\ replaces b x = true.
Proof.
  intros Hunf Hx1 Hrem. rewrite list_lookup_fmap in Hx1.
  destruct (w !! i) as [x|] eqn:Ex; [|discriminate Hx1].
  cbn in Hx1. injection Hx1 as <-.
  pose proof (Forall_lookup_1 _ _ _ _ Hunf Ex) as Hx.
  unfold replace_by in Hrem. destruct (replaces b x) eqn:Erep; [|contradiction].
  split; [|exists x; split; [reflexivity|exact Erep]].
  destruct (decide (state b = batchImportComplete)) as [Hc|Hnc]; [exact Hc|].
  exfalso. apply Hrem. exact Hnc.
Qed.

(** If [b] would replace one of the batches that [update b] has just had the
    batcher issue, then [b] is an empty range at the lower bound of the last
    entry, and all the batches issued are the empty batch of that slot. *)
Lemma chain_match (b : batch) (c : batchSequencer) (lst z : batch) (m : nat) :
  slots_typed c -> Forall unfinished (seq c) -> tiled (seq c) ->
  ranges_ordered (seq c) ->
  last (replace_by b <$> seq c) = Some lst ->
  let d := length (replace_by b <$> seq c)
           - length (filter unfinished (replace_by b <$> seq c)) in
  chain (batcher_ c) d lst !! m = Some z -> replaces b z = true ->
  0 < d /\ begin b = begin lst /\
  chain (batcher_ c) d lst = replicate d (before (batcher_ c) (begin lst)) /\
  replaces b (before (batcher_ c) (begin lst)) = true.
Proof.
  intros (Hmin & _ & Hsize & Hslots) Hunf Htiled Hord Hlast d Hz Hrep.
  set (r := batcher_ c) in *. set (w := seq c) in *.
  apply chain_lookup in Hz as [Hm Hz].
  set (u := begin lst) in *. set (v := Nat.iter m (begin_before r) u) in *.
  apply replaces_bounds in Hrep as [Hzb Hze]. rewrite Hz in Hzb, Hze.
  rewrite before_end in Hze. fold (begin_before r v) in Hzb.
  (* an entry of the window that [b] has replaced *)
  destruct (one_removed unfinished (replace_by b <$> w)) as (i & x1 & Hx1 & Hrem).
  { unfold d in Hm. lia. }
  destruct (removed_matches b w i x1 Hunf Hx1 Hrem) as (Hc & x & Hx & Hxrep).
  apply replaces_bounds in Hxrep as [Hxb Hxe].
  pose proof (Forall_lookup_1 _ _ _ _ Hord Hx) as Hxord. cbn in Hxord.
  pose proof (Forall_lookup_1 _ _ _ _ Hslots Hx) as [Hxslot _].
  (* the last entry lies at or below it *)
  rewrite last_lookup, list_lookup_fmap, length_fmap in Hlast.
  destruct (w !! Init.Nat.pred (length w)) as [xl|] eqn:Exl; [|discriminate Hlast].
  cbn in Hlast. injection Hlast as Hlst.
  assert (Hu : u = begin xl).
  { unfold u. rewrite <- Hlst. apply replace_by_bounds. }
  pose proof (Forall_lookup_1 _ _ _ _ Hord Exl) as Hlord. cbn in Hlord.
  pose proof (Forall_lookup_1 _ _ _ _ Hslots Exl) as [Hlslot _].
  assert (Hua : (u <= begin b)%Z).
  { rewrite Hu, Hxb. destruct (decide (i = Init.Nat.pred (length w))) as [->|Hne].
    - rewrite Hx in Exl. injection Exl as <-. lia.
    - apply lookup_lt_Some in Hx as Hi.
      assert (Hlt : i < Init.Nat.pred (length w)) by lia.
      pose proof (tiled_descending w i _ x xl Htiled Hord Hlt Hx Exl). lia. }
  assert (Hfix : begin_before r u = u /\ begin b = u /\ end_ b = u).
  { destruct m as [|m].
    - cbn in v. subst v. split; [|split]; lia.
    - destruct (two_removed unfinished (replace_by b <$> w))
        as (i1 & j1 & y1 & y2 & Hij & Hy1 & Hy2 & Hr1 & Hr2).
      { unfold d in Hm. lia. }
      destruct (removed_matches b w i1 y1 Hunf Hy1 Hr1) as (_ & a1 & Ha1 & Hrep1).
      destruct (removed_matches b w j1 y2 Hunf Hy2 Hr2) as (_ & a2 & Ha2 & Hrep2).
      apply replaces_bounds in Hrep1 as [Hb1 _].
      apply replaces_bounds in Hrep2 as [_ He2].
      pose proof (tiled_descending w i1 j1 a1 a2 Htiled Hord Hij Ha1 Ha2) as Hdesc.
      assert (Hempty : begin b = end_ b) by lia.
      assert (Hfloor : (begin b <= min r)%Z \/ size r = 0%Z).
      { apply begin_before_fixed; [exact Hmin|exact Hsize|rewrite Hxb; exact Hxslot|].
        rewrite Hempty at 1. rewrite Hze, <- Hzb. reflexivity. }
      assert (Hufix : begin_before r u = u).
      { apply begin_before_floor; [exact Hmin|rewrite Hu; exact Hlslot|].
        destruct Hfloor as [Hle|Hzero]; [left; lia|right; exact Hzero]. }
      assert (Hv : v = u) by (apply iter_fixed; exact Hufix).
      split; [exact Hufix|]. split; lia. }
  destruct Hfix as (Hufix & Hbu & Heu).
  split; [lia|]. split; [exact Hbu|]. split; [apply chain_const; exact Hufix|].
  unfold replaces. rewrite before_end. fold (begin_before r u).
  rewrite Hufix, Hbu, Heu, Z.eqb_refl. reflexivity.
Qed.

End UpdateTwice.

Section UpdateIdempotent.

(** C9 (counterexample): [update b] twice differs from [update b] once on
    windows that break an invariant of the sequencer.  In the first window a
    complete batch has been left behind: the first call compacts it and has
    the batcher issue the sentinel [0,0), which the second call overwrites
    with [b].  The second window ascends and the third holds a range that
    ends below its beginning: the first call removes [6,10) and has the
    batcher issue [6,10) again below the last entry, which the second call
    removes in turn. *)
Lemma update_twice_counterexample :
  let stale := mkSequencer (mkBatcher 0 128 64)
                 [mkBatch 64 128 batchImportComplete 0 [];
                  mkBatch 0 64 batchSequenced 0 []] in
  let ascending := mkSequencer (mkBatcher 0 20 4)
                     [mkBatch 6 10 batchSequenced 0 [];
                      mkBatch 10 20 batchSequenced 0 []] in
  let inverted := mkSequencer (mkBatcher 0 20 4)
                    [mkBatch 6 10 batchSequenced 0 [];
                     mkBatch 10 6 batchSequenced 0 []] in
  let b0 := mkBatch 0 0 batchImportable 0 [] in
  let b6 := mkBatch 6 10 batchImportComplete 0 [] in
  update b0 stale ≫= update b0 <> update b0 stale /\
  update b6 ascending ≫= update b6 <> update b6 ascending /\
  update b6 inverted ≫= update b6 <> update b6 inverted.
Proof. cbv zeta. repeat split; vm_compute; discriminate. Qed.

(** C9 (amended): for every batch [b] and every sequencer state whose window
    holds no [batchImportComplete] batch and tiles descending (adjacent
    entries tile and no entry ends below its beginning), all slots being
    [uint64] values, calling [update b] twice leaves the sequencer in the
    state that calling it once leaves it in. *)
Theorem update_twice (b : batch) (c : batchSequencer) :
  slots_typed c -> Forall unfinished (seq c) -> tiled (seq c) ->
  ranges_ordered (seq c) ->
  update b c ≫= update b = update b c.
Proof.
  intros Htyped Hunf Htiled Hord.
  destruct (update b c) as [c1|] eqn:E; [|reflexivity].
  cbn [mbind option_bind]. rewrite update_refines_rebuild in E |- *.
  unfold update_rebuild in E.
  destruct (last (replace_by b <$> seq c)) as [lst|] eqn:Elast; [|discriminate E].
  cbn [mbind option_bind] in E. injection E as <-.
  set (w1 := replace_by b <$> seq c) in *.
  set (kept := filter unfinished w1).
  set (d := length w1 - length kept).
  assert (Hkeptfix : replace_by b <$> kept = kept).
  { apply fmap_fixed, Forall_forall. intros x Hx.
    apply list_elem_of_filter in Hx as [_ Hx]. apply list_elem_of_fmap in Hx as (x0 & -> & _).
    apply replace_by_idem. }
  assert (Hlen : length kept + d = length w1).
  { pose proof (length_filter unfinished w1). unfold d, kept. lia. }
  assert (Hw1 : 0 < length w1).
  { destruct w1; [discriminate Elast|cbn; lia]. }
  destruct (decide (Forall (fun z => replaces b z = false) (chain (batcher_ c) d lst)))
    as [Hnone|Hsome].
  - apply update_rebuild_fixed; cbn [seq].
    + intros Hnil. apply (f_equal length) in Hnil.
      rewrite length_app, length_chain in Hnil. cbn in Hnil. lia.
    + apply Forall_app. split; [apply filter_unfinished|apply chain_unfinished].
    + rewrite fmap_app, Hkeptfix. f_equal. apply fmap_fixed.
      eapply Forall_impl; [exact Hnone|]. intros z Hz. apply replace_by_fixed, Hz.
  - apply not_Forall_Exists in Hsome; [|intros z; apply _].
    apply Exists_exists in Hsome as (z & Hz & Hrep). cbn in Hrep.
    apply list_elem_of_lookup in Hz as [m Hm].
    assert (Hrep' : replaces b z = true) by (destruct (replaces b z); [reflexivity|contradiction]).
    destruct (chain_match b c lst z m Htyped Hunf Htiled Hord Elast Hm Hrep')
      as (Hd & Hbegin & Hchain & Hrepc).
    fold w1 in Hd, Hchain. fold kept in Hd, Hchain. fold d in Hd, Hchain.
    unfold update_rebuild. cbn [seq batcher_]. rewrite Hchain.
    rewrite fmap_app, Hkeptfix, fmap_replicate.
    assert (Hb : replace_by b (before (batcher_ c) (begin lst)) = b).
    { unfold replace_by. rewrite Hrepc. reflexivity. }
    rewrite Hb, last_app, last_replicate by exact Hd.
    cbn [mbind option_bind]. rewrite filter_app.
    rewrite (filter_all unfinished kept) by apply filter_unfinished.
    assert (Hcomplete : state b = batchImportComplete).
    { destruct (one_removed unfinished w1) as (i & x1 & Hx1 & Hrem);
        [fold kept; lia|].
      apply (removed_matches b (seq c) i x1 Hunf Hx1 Hrem). }
    rewrite (filter_none unfinished (replicate d b))
      by (apply Forall_replicate; intros Hu; exact (Hu Hcomplete)).
    rewrite app_nil_r, length_app, length_replicate.
    replace (length kept + d - length kept) with d by lia.
    rewrite <- Hchain, (chain_begin_ext _ d b lst Hbegin). reflexivity.
Qed.

(** An instance: the first batch of a window of three entries completes. *)
Lemma update_twice_witness :
  let c := mkSequencer (mkBatcher 0 192 64)
             [mkBatch 128 192 batchImportable 3 [150%Z];
              mkBatch 64 128 batchSequenced 0 [];
              mkBatch 0 64 batchSequenced 0 []] in
  let b := mkBatch 128 192 batchImportComplete 3 [150%Z] in
  update b c ≫= update b = update b c.
Proof.
  apply (update_twice
           (mkBatch 128 192 batchImportComplete 3 [150%Z])
           (mkSequencer (mkBatcher 0 192 64)
              [mkBatch 128 192 batchImportable 3 [150%Z];
               mkBatch 64 128 batchSequenced 0 [];
               mkBatch 0 64 batchSequenced 0 []])).
  - unfold slots_typed, is_slot, slot_modulus. simpl.
    repeat split; try lia; repeat constructor; simpl; lia.
  - repeat constructor; discriminate.
  - repeat (apply tiled_cons; split; [intros y [= <-]; reflexivity|]).
    apply tiled_nil.
  - unfold ranges_ordered. repeat constructor; simpl; lia.
Defined.

End UpdateIdempotent.

(** ** The windows of ordered operation *)

Section OrderedOperation.

Lemma chain_valid (r : batcher) (n : nat) (lst : batch) :
  batcher_fits r -> is_slot (begin lst) -> Forall valid_range (chain r n lst).
Proof.
  intros Hfits. revert lst. induction n as [|n IH]; intros lst Hlst; cbn [chain].
  - constructor.
  - pose proof (before_valid r (begin lst) Hfits Hlst) as Hnb.
    constructor; [exact Hnb|]. apply IH. apply Hnb.
Qed.

Lemma replace_by_valid (b x : batch) :
  valid_range x -> valid_range (replace_by b x).
Proof.
  unfold valid_range. destruct (replace_by_bounds b x) as [-> ->].
  intros H; exact H.
Qed.

(** [update] keeps the batcher, and keeps the ranges of the window in
    order. *)
Lemma update_valid (b : batch) (c c' : batchSequencer) :
  update b c = Some c' -> batcher_fits (batcher_ c) ->
  Forall valid_range (seq c) ->
  batcher_ c' = batcher_ c /\ Forall valid_range (seq c').
Proof.
  rewrite update_refines_rebuild. unfold update_rebuild. intros Hupd Hfits Hall.
  destruct (last (replace_by b <$> seq c)) as [lst|] eqn:Elast; [|discriminate Hupd].
  cbn [mbind option_bind] in Hupd. injection Hupd as <-. cbn [seq batcher_].
  split; [reflexivity|].
  assert (Hw1 : Forall valid_range (replace_by b <$> seq c)).
  { apply Forall_fmap. eapply Forall_impl; [exact Hall|].
    intros x Hx. apply replace_by_valid, Hx. }
  apply Forall_app. split.
  - apply Forall_forall. intros x Hx. apply list_elem_of_filter in Hx as [_ Hx].
    revert x Hx. apply Forall_forall. exact Hw1.
  - apply chain_valid; [exact Hfits|].
    apply last_Some_elem_of in Elast.
    revert lst Elast. apply Forall_forall.
    eapply Forall_impl; [exact Hw1|]. intros x Hx. apply Hx.
Qed.

Lemma range_inv_step (r : batcher) (n i : nat) (st : list batch * list batch) :
  batcher_fits r -> i < n -> range_inv n i st ->
  exists st', sequence_scan r i st = Some st' /\ range_inv n (S i) st'.
Proof.
  destruct st as [w s]. intros Hfits Hi [Hlen Hall].
  destruct (lookup_lt_is_Some_2 w i) as [x Hx]; [lia|].
  destruct (sequence_scan_facts r i w s x Hx)
    as (x' & out & E & _ & _ & _ & _ & _ & Hvalid).
  eexists. split; [exact E|]. split; [rewrite length_insert; exact Hlen|].
  apply Forall_insert; [exact Hall|]. apply Hvalid; assumption.
Qed.

(** [sequence] keeps the batcher, and keeps the ranges of the window in
    order. *)
Lemma sequence_valid (c c' : batchSequencer) (out : list batch * option error) :
  sequence c = Some (c', out) -> batcher_fits (batcher_ c) ->
  Forall valid_range (seq c) ->
  batcher_ c' = batcher_ c /\ Forall valid_range (seq c').
Proof.
  intros Hseq Hfits Hall. unfold sequence in Hseq.
  destruct (for_loop_invariant (sequence_scan (batcher_ c))
              (range_inv (length (seq c))) (length (seq c))
              (fun i st => range_inv_step (batcher_ c) (length (seq c)) i st Hfits)
              (length (seq c)) 0 (seq c, []))
    as ([w s] & E & _ & Hw).
  { lia. }
  { split; [reflexivity|exact Hall]. }
  rewrite E in Hseq. cbn [mbind option_bind] in Hseq.
  destruct (decide (length s = 0)); injection Hseq as <- _; split;
    first [reflexivity | exact Hw].
Qed.

Lemma reachable_in_order_valid (c : batchSequencer) :
  reachable_in_order c -> batcher_fits (batcher_ c) ->
  Forall valid_range (seq c).
Proof.
  induction 1 as [n mn mx sz|c b c' _ IH _ _ Hupd|c c' out _ IH Hseq];
    intros Hfits.
  - cbn [newBatchSequencer seq]. apply Forall_replicate.
    unfold valid_range, is_slot, slot_modulus. cbn. lia.
  - assert (Hc : batcher_fits (batcher_ c)).
    { rewrite update_refines_rebuild in Hupd. unfold update_rebuild in Hupd.
      destruct (last (replace_by b <$> seq c)); [|discriminate Hupd].
      cbn [mbind option_bind] in Hupd. injection Hupd as <-. exact Hfits. }
    apply (update_valid b c c' Hupd Hc (IH Hc)).
  - assert (Hc : batcher_fits (batcher_ c)).
    { unfold sequence in Hseq.
      destruct (for_loop (length (seq c)) 0 (sequence_scan (batcher_ c)) (seq c, []))
        as [[w s]|]; [|discriminate Hseq].
      cbn [mbind option_bind] in Hseq.
      destruct (decide (length s = 0)); injection Hseq as <- _; exact Hfits. }
    apply (sequence_valid c c' out Hseq Hc (IH Hc)).
Qed.

(** Every state reached in order from a fresh sequencer whose batcher does
    not wrap around has a window without complete batches, that tiles
    descending, all its slots being [uint64] values: the windows on which
    calling [update] twice is calling it once. *)
Lemma reachable_in_order_well_formed (c : batchSequencer) :
  reachable_in_order c -> batcher_fits (batcher_ c) ->
  slots_typed c /\ Forall unfinished (seq c) /\ tiled (seq c) /\
  ranges_ordered (seq c).
Proof.
  intros Hreach Hfits.
  pose proof (reachable_in_order_valid c Hreach Hfits) as Hvalid.
  destruct (reachable_in_order_window c Hreach) as (Htiled & Hunf & _).
  split; [|split; [exact Hunf|split; [exact Htiled|]]].
  - destruct Hfits as (Hmin & Hmax & Hsize & _).
    split; [exact Hmin|]. split; [exact Hmax|]. split; [exact Hsize|].
    eapply Forall_impl; [exact Hvalid|]. intros x (Hb & He & _). split; assumption.
  - eapply Forall_impl; [exact Hvalid|]. intros x (_ & _ & Hle). exact Hle.
Qed.

End OrderedOperation.

(** * Further properties of the batcher *)

Section Remaining.

Local Open Scope Z_scope.

Lemma int_wrap_id (z : Z) : is_int z -> int_wrap z = z.
Proof.
  unfold is_int, int_wrap. intros Hz.
  rewrite Z.mod_small by lia. lia.
Qed.

(** The number of batches of [size] slots that cover [delta] slots. *)
Lemma ceil_div (delta sz : Z) :
  0 < sz -> 0 <= delta ->
  (delta + sz - 1) / sz
  = if delta mod sz =? 0 then delta / sz else delta / sz + 1.
Proof.
  intros Hsz Hdelta.
  pose proof (Z.div_mod delta sz ltac:(lia)) as Hdm.
  pose proof (Z.mod_pos_bound delta sz Hsz) as Hm.
  destruct (Z.eqb_spec (delta mod sz) 0) as [Hz|Hnz].
  - symmetry. apply (Z.div_unique _ _ _ (sz - 1)); lia.
  - symmetry. apply (Z.div_unique _ _ _ (delta mod sz - 1)); lia.
Qed.

(** The value of [remaining] when the count fits in an [int]. *)
Lemma remaining_ceil (r : batcher) (upTo : Slot) :
  is_slot (min r) -> is_slot (size r) -> is_slot upTo -> 0 < size r ->
  (upTo - min r + size r - 1) / size r < 2 ^ 63 ->
  remaining r upTo
  = Some (if upTo <=? min r then 0 else (upTo - min r + size r - 1) / size r).
Proof.
  unfold is_slot, slot_modulus. intros Hmin Hsize Hup Hpos Hfit. unfold remaining.
  rewrite Z.geb_leb. destruct (Z.leb_spec upTo (min r)) as [Hle|Hgt]; [reflexivity|].
  unfold slot_sub, slot_wrap, slot_modulus. rewrite (Z.mod_small (upTo - min r)) by lia.
  destruct (Z.eqb_spec (size r) 0) as [Hz|_]; [lia|].
  rewrite ceil_div in Hfit |- * by lia.
  pose proof (Z.div_pos (upTo - min r) (size r) ltac:(lia) Hpos) as Hq.
  destruct (Z.eqb_spec ((upTo - min r) mod size r) 0) as [Hm|Hm]; cbn [negb].
  - rewrite int_wrap_id by (unfold is_int; lia). reflexivity.
  - rewrite (int_wrap_id ((upTo - min r) / size r)) by (unfold is_int; lia).
    rewrite int_wrap_id by (unfold is_int; lia). reflexivity.
Qed.

(** X1: for a batch size above 0 and a count that fits in an [int],
    [remaining upTo] is 0 at or below the floor and otherwise the number [k]
    of batches of [size] slots that cover the slots from [min] to [upTo]:
    [k = ceil((upTo - min) / size)], that is,
    [(k - 1) * size < upTo - min <= k * size]. *)
Theorem remaining_ceiling (r : batcher) (upTo : Slot) :
  is_slot (min r) -> is_slot (size r) -> is_slot upTo -> 0 < size r ->
  (upTo - min r + size r - 1) / size r < 2 ^ 63 ->
  exists k,
    remaining r upTo = Some k /\
    (upTo <= min r -> k = 0) /\
    (min r < upTo ->
       k = (upTo - min r + size r - 1) / size r /\
       (k - 1) * size r < upTo - min r <= k * size r).
Proof.
  intros Hmin Hsize Hup Hpos Hfit.
  rewrite (remaining_ceil r upTo Hmin Hsize Hup Hpos Hfit).
  eexists. split; [reflexivity|].
  destruct (Z.leb_spec upTo (min r)) as [Hle|Hgt].
  - split; [reflexivity|lia].
  - split; [lia|]. intros _. split; [reflexivity|].
    pose proof (Z.div_mod (upTo - min r + size r - 1) (size r) ltac:(lia)) as Hdm.
    pose proof (Z.mod_pos_bound (upTo - min r + size r - 1) (size r) Hpos) as Hm.
    nia.
Qed.

(** An instance: 100 slots above the floor in batches of 64 (scenario S2). *)
Lemma remaining_ceiling_witness :
  exists k,
    remaining {| min := 0; max := 100; size := 64 |} 100 = Some k /\
    (100 <= 0 -> k = 0) /\
    (0 < 100 ->
       k = (100 - 0 + 64 - 1) / 64 /\ (k - 1) * 64 < 100 - 0 <= k * 64).
Proof.
  apply (remaining_ceiling {| min := 0; max := 100; size := 64 |} 100);
    [unfold is_slot, slot_modulus; simpl; lia ..|vm_compute; reflexivity].
Defined.

(** At or below the floor nothing remains, whatever the batch size. *)
Lemma remaining_floor (r : batcher) (upTo : Slot) :
  upTo <= min r -> remaining r upTo = Some 0.
Proof.
  intros Hle. unfold remaining. rewrite Z.geb_leb.
  apply Z.leb_le in Hle. rewrite Hle. reflexivity.
Qed.

(** [remaining] panics on a division by zero only. *)
Lemma remaining_panics_iff_edge (r : batcher) (upTo : Slot) :
  remaining r upTo = None <-> size r = 0 /\ min r < upTo.
Proof.
  unfold remaining. rewrite Z.geb_leb.
  destruct (Z.leb_spec upTo (min r)) as [Hle|Hgt].
  - split; [discriminate|]. intros [_ H]. lia.
  - destruct (Z.eqb_spec (size r) 0) as [Hz|Hnz].
    + split; [intros _; split; assumption|reflexivity].
    + destruct (negb (slot_sub upTo (min r) mod size r =? 0));
        (split; [discriminate|intros [H _]; contradiction]).
Qed.

(** X2: [remaining] panics, with an integer division by zero, exactly when
    the batch size is 0 and [upTo] is above the floor; at or below the floor
    it returns 0 whatever the size. *)
Theorem remaining_panics_iff (r : batcher) (upTo : Slot) :
  (remaining r upTo = None <-> size r = 0 /\ min r < upTo) /\
  (upTo <= min r -> remaining r upTo = Some 0).
Proof.
  unfold remaining. rewrite Z.geb_leb.
  destruct (Z.leb_spec upTo (min r)) as [Hle|Hgt].
  - split; [|reflexivity]. split; [discriminate|]. intros [_ H]. lia.
  - split; [|intros H; lia].
    destruct (Z.eqb_spec (size r) 0) as [Hz|Hnz].
    + split; [intros _; split; assumption|reflexivity].
    + destruct (negb (slot_sub upTo (min r) mod size r =? 0));
        (split; [discriminate|intros [H _]; contradiction]).
Qed.

End Remaining.

Section BatcherRanges.

Local Open Scope Z_scope.

Lemma ceil_fits (delta sz : Z) :
  0 < sz -> delta < 2 ^ 63 -> (delta + sz - 1) / sz < 2 ^ 63.
Proof. intros Hsz Hdelta. apply Z.div_lt_upper_bound; [exact Hsz|]. nia. Qed.

(** Above the floor the batcher issues a batch in state [batchInit], and one
    batch less remains below it. *)
Lemma remaining_step (r : batcher) (u : Slot) :
  batcher_fits r -> 0 < size r -> is_slot u -> u < 2 ^ 63 -> min r < u ->
  state (before r u) = batchInit /\
  is_slot (begin (before r u)) /\ begin (before r u) < 2 ^ 63 /\
  exists k, remaining r u = Some k /\ 1 <= k /\
            remaining r (begin (before r u)) = Some (k - 1).
Proof.
  intros Hfits Hpos Hu Hsmall Hgt.
  pose proof (before_valid r u Hfits Hu) as (Hb & _ & Hbe).
  rewrite before_end in Hbe.
  destruct Hfits as (Hmin & _ & Hsize & Hfit).
  assert (Hfit1 : (u - min r + size r - 1) / size r < 2 ^ 63).
  { apply ceil_fits; [exact Hpos|]. unfold is_slot in *. lia. }
  assert (Hfit2 : (begin (before r u) - min r + size r - 1) / size r < 2 ^ 63).
  { apply ceil_fits; [exact Hpos|]. unfold is_slot in *. lia. }
  rewrite (remaining_ceil r u Hmin Hsize Hu Hpos Hfit1).
  rewrite (remaining_ceil r _ Hmin Hsize Hb Hpos Hfit2).
  destruct (Z.leb_spec u (min r)) as [Hle|_]; [lia|].
  assert (Hstate : state (before r u) = batchInit).
  { unfold before. destruct (Z.leb_spec u (min r)) as [Hle|_]; [lia|reflexivity]. }
  split; [exact Hstate|]. split; [exact Hb|]. split; [lia|].
  eexists. split; [reflexivity|].
  unfold before. destruct (Z.leb_spec u (min r)) as [Hle|_]; [lia|]. cbn [begin].
  unfold slot_add, slot_sub, slot_wrap, is_slot in *.
  rewrite (Z.mod_small (size r + min r)) by lia.
  destruct (Z.gtb_spec u (size r + min r)) as [Hbig|Hfew].
  - rewrite (Z.mod_small (u - size r)) by lia.
    destruct (Z.leb_spec (u - size r) (min r)) as [Hle|_]; [lia|].
    replace (u - min r + size r - 1) with (u - size r - min r + size r - 1 + 1 * size r) by lia.
    rewrite Z.div_add by lia.
    pose proof (Z.div_pos (u - size r - min r + size r - 1) (size r) ltac:(lia) Hpos).
    split; [lia|]. f_equal. lia.
  - rewrite Z.leb_refl.
    assert (Hone : (u - min r + size r - 1) / size r = 1).
    { symmetry. apply (Z.div_unique _ _ _ (u - min r - 1)); lia. }
    rewrite Hone. split; [lia|reflexivity].
Qed.

(** At or below the floor the batcher issues its sentinel, which ends the
    sequence: the batch below the sentinel is the sentinel again. *)
Lemma sentinel_step (r : batcher) (u : Slot) :
  u <= min r ->
  state (before r u) = batchEndSequence /\ begin (before r u) = u.
Proof.
  intros Hle. unfold before. apply Z.leb_le in Hle. rewrite Hle. split; reflexivity.
Qed.

(** The states of the batches issued below [lst], given the count [k] that
    [remaining] gives for its lower bound. *)
Lemma chain_states_count (r : batcher) (n : nat) (lst : batch) (k : Z) :
  batcher_fits r -> 0 < size r -> is_slot (begin lst) -> begin lst < 2 ^ 63 ->
  remaining r (begin lst) = Some k ->
  forall j z, chain r n lst !! j = Some z ->
    (state z = batchInit <-> Z.of_nat j < k) /\
    (state z = batchEndSequence <-> k <= Z.of_nat j).
Proof.
  intros Hfits Hpos. revert lst k.
  induction n as [|n IH]; intros lst k Hu Hsmall Hk j z Hz; [discriminate Hz|].
  cbn [chain] in Hz. unfold beforeBatch in Hz.
  destruct (Z.le_gt_cases (begin lst) (min r)) as [Hle|Hgt].
  - destruct (sentinel_step r (begin lst) Hle) as [Hst Hbeg].
    assert (Hk0 : k = 0).
    { rewrite (remaining_floor r (begin lst) Hle) in Hk.
      injection Hk as <-. reflexivity. }
    subst k. destruct j as [|j].
    + cbn in Hz. injection Hz as <-. rewrite Hst.
      split; split; intros H; try discriminate H; try reflexivity; lia.
    + cbn [lookup list_lookup] in Hz.
      destruct (IH (before r (begin lst)) 0) with (j := j) (z := z) as [H1 H2].
      * rewrite Hbeg. exact Hu.
      * rewrite Hbeg. exact Hsmall.
      * rewrite Hbeg. exact Hk.
      * exact Hz.
      * split; [rewrite H1|rewrite H2]; lia.
  - destruct (remaining_step r (begin lst) Hfits Hpos Hu Hsmall Hgt)
      as (Hst & Hb & Hbsmall & k' & Hk' & Hk1 & Hnext).
    rewrite Hk in Hk'. injection Hk' as <-. destruct j as [|j].
    + cbn in Hz. injection Hz as <-. rewrite Hst.
      split; split; intros H; try discriminate H; try reflexivity; lia.
    + cbn [lookup list_lookup] in Hz.
      destruct (IH (before r (begin lst)) (k - 1) Hb Hbsmall Hnext j z Hz) as [H1 H2].
      split; [rewrite H1|rewrite H2]; lia.
Qed.

End BatcherRanges.

Section BatcherExtras.

Local Open Scope Z_scope.

Lemma chain_lookup_end (r : batcher) (j : nat) (lst : batch) :
  chain r (S j) lst !! j = Some (chain_end r (S j) lst).
Proof.
  rewrite chain_snoc, lookup_app_r by (rewrite length_chain; lia).
  rewrite length_chain, Nat.sub_diag. reflexivity.
Qed.

(** X3: [remaining] counts the batches that are left to issue.  For a
    batcher that does not wrap around, with a batch size above 0, and a slot
    below [2^63], let [k] be what [remaining] returns for the lower bound of
    [lst]: calling [beforeBatch] again and again from [lst] gives [k] batches
    in state [batchInit] and from then on the [batchEndSequence] sentinel
    only. *)
Theorem remaining_counts_batches (r : batcher) (lst : batch) :
  batcher_fits r -> 0 < size r -> is_slot (begin lst) -> begin lst < 2 ^ 63 ->
  exists k,
    remaining r (begin lst) = Some k /\ 0 <= k /\
    forall j : nat,
      (state (chain_end r (S j) lst) = batchInit <-> Z.of_nat j < k) /\
      (state (chain_end r (S j) lst) = batchEndSequence <-> k <= Z.of_nat j).
Proof.
  intros Hfits Hpos Hu Hsmall.
  destruct Hfits as (Hmin & Hmax & Hsize & Hfit).
  assert (Hk : (begin lst - min r + size r - 1) / size r < 2 ^ 63).
  { apply ceil_fits; [exact Hpos|]. unfold is_slot in *. lia. }
  pose proof (remaining_ceil r (begin lst) Hmin Hsize Hu Hpos Hk) as Hrem.
  eexists. split; [exact Hrem|]. split.
  - destruct (Z.leb_spec (begin lst) (min r)); [lia|].
    apply Z.div_pos; lia.
  - intros j.
    apply (chain_states_count r (S j) lst _ (conj Hmin (conj Hmax (conj Hsize Hfit)))
             Hpos Hu Hsmall Hrem j).
    apply chain_lookup_end.
Qed.

(** An instance: below [0,100) the batcher of scenario S2 issues two batches
    and then the sentinel. *)
Lemma remaining_counts_batches_witness :
  exists k,
    remaining {| min := 0; max := 100; size := 64 |} 100 = Some k /\ 0 <= k /\
    forall j : nat,
      (state (chain_end {| min := 0; max := 100; size := 64 |} (S j)
                (mkBatch 100 100 batchNil 0 [])) = batchInit
       <-> Z.of_nat j < k) /\
      (state (chain_end {| min := 0; max := 100; size := 64 |} (S j)
                (mkBatch 100 100 batchNil 0 [])) = batchEndSequence
       <-> k <= Z.of_nat j).
Proof.
  apply (remaining_counts_batches {| min := 0; max := 100; size := 64 |}
           (mkBatch 100 100 batchNil 0 []));
    unfold batcher_fits, is_slot, slot_modulus; simpl; lia.
Defined.

(** X4: above the floor, a batcher that does not wrap around issues a batch
    in state [batchInit] that ends at [upTo], begins at or above the floor
    and holds at most [size] slots; it holds fewer only when it begins at the
    floor, and it is not empty when the batch size is above 0. *)
Theorem before_range (r : batcher) (upTo : Slot) :
  batcher_fits r -> is_slot upTo -> min r < upTo ->
  state (before r upTo) = batchInit /\
  end_ (before r upTo) = upTo /\
  min r <= begin (before r upTo) <= upTo /\
  upTo - begin (before r upTo) <= size r /\
  (upTo - begin (before r upTo) < size r -> begin (before r upTo) = min r) /\
  (0 < size r -> begin (before r upTo) < upTo).
Proof.
  unfold batcher_fits, is_slot, before. intros (Hmin & _ & Hsize & Hfit) Hup Hgt.
  destruct (Z.leb_spec upTo (min r)) as [Hle|_]; [lia|]. cbn [state begin end_].
  unfold slot_add, slot_sub, slot_wrap.
  rewrite (Z.mod_small (size r + min r)) by lia.
  destruct (Z.gtb_spec upTo (size r + min r)) as [Hbig|Hfew].
  - rewrite Z.mod_small by lia. repeat split; lia.
  - repeat split; lia.
Qed.

(** An instance: the truncated batch [0,36) of scenario S2. *)
Lemma before_range_witness :
  state (before {| min := 0; max := 100; size := 64 |} 36) = batchInit /\
  end_ (before {| min := 0; max := 100; size := 64 |} 36) = 36 /\
  0 <= begin (before {| min := 0; max := 100; size := 64 |} 36) <= 36 /\
  36 - begin (before {| min := 0; max := 100; size := 64 |} 36) <= 64 /\
  (36 - begin (before {| min := 0; max := 100; size := 64 |} 36) < 64 ->
     begin (before {| min := 0; max := 100; size := 64 |} 36) = 0) /\
  (0 < 64 -> begin (before {| min := 0; max := 100; size := 64 |} 36) < 36).
Proof.
  apply (before_range {| min := 0; max := 100; size := 64 |} 36);
    unfold batcher_fits, is_slot, slot_modulus; simpl; lia.
Defined.

End BatcherExtras.

(** * Further properties of the sequencer *)

Section NumTodo.

Local Open Scope Z_scope.

(** The loop of [numTodo] adds one for every active batch, as long as the
    sum fits in an [int]. *)
Lemma numTodo_loop (l : list batch) (t : Z) :
  0 <= t -> t + Z.of_nat (length l) < 2 ^ 63 ->
  fold_left
    (fun todo b =>
       match state b with
       | batchEndSequence | batchImportComplete | batchNil => todo
       | _ => int_wrap (todo + 1)
       end) l t
  = t + Z.of_nat (length (filter active l)).
Proof.
  revert t. induction l as [|x l IH]; intros t Ht Hfit; [cbn; lia|].
  cbn [fold_left]. cbn [length] in Hfit.
  assert (Hstep : forall t', t' = (if decide (active x) then t + 1 else t) ->
            fold_left
              (fun todo b =>
                 match state b with
                 | batchEndSequence | batchImportComplete | batchNil => todo
                 | _ => int_wrap (todo + 1)
                 end) l t'
            = t + Z.of_nat (length (filter active (x :: l)))).
  { intros t' ->. destruct (decide (active x)) as [Ha|Hna].
    - rewrite IH by lia. rewrite filter_cons_True by exact Ha. cbn [length]. lia.
    - rewrite IH by lia. rewrite filter_cons_False by exact Hna. reflexivity. }
  apply Hstep. destruct (decide (active x)) as [(H1 & H2 & H3)|Hna].
  - destruct (state x); try contradiction;
      apply int_wrap_id; unfold is_int; lia.
  - destruct (state x) eqn:Es; try reflexivity;
      exfalso; apply Hna; unfold active; rewrite Es;
      repeat split; discriminate.
Qed.

(** X5: [numTodo] is 0 on an empty window, and it panics exactly when the
    window is not empty, its last batch is not the sentinel, the batch size
    is 0 and that batch begins above the floor (the division by zero of
    [remaining]). *)
Theorem numTodo_panics_iff (c : batchSequencer) :
  (seq c = [] -> numTodo c = Some 0) /\
  (numTodo c = None <->
     exists lowest, last (seq c) = Some lowest /\
       state lowest <> batchEndSequence /\
       size (batcher_ c) = 0 /\ min (batcher_ c) < begin lowest).
Proof.
  unfold numTodo. split.
  - intros ->. reflexivity.
  - rewrite last_lookup.
    replace (Init.Nat.pred (length (seq c))) with (length (seq c) - 1)%nat by lia.
    destruct (decide (length (seq c) = 0%nat)) as [Hz|Hnz].
    + split; [discriminate|]. intros (lowest & Hl & _).
      apply lookup_lt_Some in Hl. lia.
    + destruct (lookup_lt_is_Some_2 (seq c) (length (seq c) - 1)) as [lowest Hl]; [lia|].
      rewrite Hl. cbn [mbind option_bind].
      destruct (decide (state lowest <> batchEndSequence)) as [Hne|He].
      * destruct (remaining (batcher_ c) (begin lowest)) as [k|] eqn:Er;
          cbn [mbind option_bind].
        -- split; [discriminate|]. intros (l' & Hl' & _ & Hs & Hm).
           injection Hl' as <-.
           assert (Hn : remaining (batcher_ c) (begin lowest) = None).
           { apply remaining_panics_iff_edge. split; assumption. }
           rewrite Hn in Er. discriminate Er.
        -- split; [|reflexivity]. intros _. exists lowest.
           apply remaining_panics_iff_edge in Er as [Hs Hm].
           repeat split; assumption.
      * cbn [mbind option_bind]. split; [discriminate|].
        intros (l' & Hl' & Hne & _). injection Hl' as <-. contradiction.
Qed.

Lemma ceil_le (delta sz : Z) :
  0 < sz -> 1 <= delta -> 0 <= (delta + sz - 1) / sz <= delta.
Proof.
  intros Hsz Hdelta. split.
  - apply Z.div_pos; lia.
  - apply Z.div_le_upper_bound; [exact Hsz|]. nia.
Qed.

(** X6: with a batch size above 0, and slots small enough for the count to
    fit in an [int], [numTodo] returns the number of batches that are
    neither sentinel, complete nor [batchNil], plus, unless the last batch is
    the sentinel, what [remaining] gives below the last batch.  In a window
    without complete and [batchNil] batches it is 0 exactly when every batch
    is the sentinel. *)
Theorem numTodo_value (c : batchSequencer) :
  is_slot (min (batcher_ c)) -> is_slot (size (batcher_ c)) ->
  0 < size (batcher_ c) ->
  Forall (fun x => is_slot (begin x) /\
                   begin x + Z.of_nat (length (seq c)) < 2 ^ 63) (seq c) ->
  exists k rem,
    numTodo c = Some k /\
    k = rem + Z.of_nat (length (filter active (seq c))) /\ 0 <= rem /\
    (forall lowest, last (seq c) = Some lowest ->
       if decide (state lowest = batchEndSequence) then rem = 0
       else remaining (batcher_ c) (begin lowest) = Some rem) /\
    (Forall (fun x => state x <> batchNil /\ state x <> batchImportComplete)
            (seq c) ->
     (k = 0 <-> Forall (fun x => state x = batchEndSequence) (seq c))).
Proof.
  intros Hmin Hsize Hpos Hslots. unfold numTodo.
  destruct (decide (length (seq c) = 0%nat)) as [Hz|Hnz].
  { apply length_zero_iff_nil in Hz. rewrite Hz. exists 0, 0.
    split; [reflexivity|]. split; [reflexivity|]. split; [lia|].
    split; [intros lowest Hl; discriminate Hl|].
    intros _. split; [constructor|reflexivity]. }
  destruct (lookup_lt_is_Some_2 (seq c) (length (seq c) - 1)) as [lowest Hl]; [lia|].
  rewrite Hl. cbn [mbind option_bind].
  assert (Hlast : last (seq c) = Some lowest).
  { rewrite last_lookup.
    replace (Init.Nat.pred (length (seq c))) with (length (seq c) - 1)%nat by lia.
    exact Hl. }
  pose proof (Forall_lookup_1 _ _ _ _ Hslots Hl) as [Hlslot Hlfit].
  assert (Hrem : exists rem,
            (if decide (state lowest <> batchEndSequence)
             then remaining (batcher_ c) (begin lowest) else Some 0) = Some rem /\
            0 <= rem <= begin lowest /\
            (if decide (state lowest = batchEndSequence) then rem = 0
             else remaining (batcher_ c) (begin lowest) = Some rem)).
  { destruct (decide (state lowest <> batchEndSequence)) as [Hne|He].
    - assert (Hfit : (begin lowest - min (batcher_ c) + size (batcher_ c) - 1)
                       / size (batcher_ c) < 2 ^ 63).
      { apply ceil_fits; [exact Hpos|]. unfold is_slot in *. lia. }
      destruct (decide (state lowest = batchEndSequence)) as [He|_]; [contradiction|].
      rewrite (remaining_ceil _ _ Hmin Hsize Hlslot Hpos Hfit).
      eexists. split; [reflexivity|]. split; [|reflexivity].
      destruct (Z.leb_spec (begin lowest) (min (batcher_ c))) as [Hle|Hgt].
      + unfold is_slot in *. lia.
      + pose proof (ceil_le (begin lowest - min (batcher_ c)) (size (batcher_ c))
                      Hpos ltac:(lia)).
        unfold is_slot in *. lia.
    - exists 0. split; [reflexivity|]. unfold is_slot in *. split; [lia|].
      destruct (decide (state lowest = batchEndSequence)) as [_|Hne]; [reflexivity|].
      exfalso. apply He. exact Hne. }
  destruct Hrem as (rem & E & Hrange & Hcase). rewrite E. cbn [mbind option_bind].
  rewrite numTodo_loop by lia.
  exists (rem + Z.of_nat (length (filter active (seq c)))), rem.
  split; [reflexivity|]. split; [reflexivity|]. split; [lia|]. split.
  - intros l' Hl'. rewrite Hlast in Hl'. injection Hl' as <-. exact Hcase.
  - intros Hstates. split.
    + intros Hzero.
      assert (Hnone : filter active (seq c) = []).
      { apply length_zero_iff_nil. lia. }
      apply Forall_forall. intros x Hx.
      pose proof (proj1 (Forall_forall _ _) Hstates x Hx) as [Hnn Hnc].
      destruct (decide (state x = batchEndSequence)) as [He|Hne]; [exact He|].
      exfalso. assert (Hin : x ∈ filter active (seq c)).
      { apply list_elem_of_filter. split; [|exact Hx]. repeat split; assumption. }
      rewrite Hnone in Hin. apply elem_of_nil in Hin. exact Hin.
    + intros Hall.
      rewrite (filter_none active (seq c)).
      * pose proof (Forall_lookup_1 _ _ _ _ Hall Hl) as He. cbn in He.
        destruct (decide (state lowest = batchEndSequence)) as [_|Hne];
          [|contradiction]. cbn. lia.
      * eapply Forall_impl; [exact Hall|]. intros x He (Hne & _). contradiction.
Qed.

(** An instance: a window of three batches, the last of which begins at slot
    64 above the floor 0, with batches of 64 slots. *)
Lemma numTodo_value_witness :
  let c := mkSequencer (mkBatcher 0 192 64)
             [mkBatch 128 192 batchImportable 0 [];
              mkBatch 64 128 batchSequenced 0 [];
              mkBatch 64 64 batchNil 0 []] in
  exists k rem,
    numTodo c = Some k /\
    k = rem + Z.of_nat (length (filter active (seq c))) /\ 0 <= rem /\
    (forall lowest, last (seq c) = Some lowest ->
       if decide (state lowest = batchEndSequence) then rem = 0
       else remaining (batcher_ c) (begin lowest) = Some rem) /\
    (Forall (fun x => state x <> batchNil /\ state x <> batchImportComplete)
            (seq c) ->
     (k = 0 <-> Forall (fun x => state x = batchEndSequence) (seq c))).
Proof.
  apply (numTodo_value
           (mkSequencer (mkBatcher 0 192 64)
              [mkBatch 128 192 batchImportable 0 [];
               mkBatch 64 128 batchSequenced 0 [];
               mkBatch 64 64 batchNil 0 []])).
  - unfold is_slot, slot_modulus. simpl. lia.
  - unfold is_slot, slot_modulus. simpl. lia.
  - simpl. lia.
  - unfold is_slot, slot_modulus. repeat constructor; simpl; lia.
Defined.

End NumTodo.

Section SequenceExtras.

(** What one round of the scan does to the entry [x] at its index: a
    sequencable entry is written back in state [batchSequenced] (with its own
    bounds unless it was [batchNil]) and appended to the output; any other
    entry is left as it is, and appended only if it is the sentinel and the
    output is empty. *)
Lemma sequence_scan_entry (r : batcher) (i : nat) (w s : list batch) (x : batch) :
  w !! i = Some x ->
  exists x' out,
    sequence_scan r i (w, s) = Some (<[i:=x']> w, s ++ out) /\
    (sequencable x ->
       state x' = batchSequenced /\ out = [x'] /\
       (state x <> batchNil -> x' = withState x batchSequenced) /\
       (state x = batchNil -> i = 0 ->
          x' = withState (before r (max r)) batchSequenced) /\
       (state x = batchNil -> forall p, w !! (i - 1) = Some p -> 0 < i ->
          x' = withState (beforeBatch r p) batchSequenced)) /\
    (~ sequencable x ->
       x' = x /\
       out = if decide (state x = batchEndSequence)
             then (if decide (length s = 0) then [x] else []) else []).
Proof.
  intros Hx. unfold sequence_scan. rewrite Hx. cbn [mbind option_bind].
  assert (Hkeep : forall s' out, s' = s ++ out ->
            out = (if decide (state x = batchEndSequence)
                   then (if decide (length s = 0) then [x] else []) else []) ->
            ~ sequencable x ->
            exists x' out',
              Some (w, s') = Some (<[i:=x']> w, s ++ out') /\
              (sequencable x ->
                 state x' = batchSequenced /\ out' = [x'] /\
                 (state x <> batchNil -> x' = withState x batchSequenced) /\
                 (state x = batchNil -> i = 0 ->
                    x' = withState (before r (max r)) batchSequenced) /\
                 (state x = batchNil -> forall p, w !! (i - 1) = Some p -> 0 < i ->
                    x' = withState (beforeBatch r p) batchSequenced)) /\
              (~ sequencable x ->
                 x' = x /\
                 out' = if decide (state x = batchEndSequence)
                        then (if decide (length s = 0) then [x] else []) else [])).
  { intros s' out -> Hout Hns. exists x, out. rewrite (list_insert_id w i x Hx).
    split; [reflexivity|]. split; [intros Hs; contradiction|].
    intros _. split; [reflexivity|exact Hout]. }
  assert (Hput : forall y,
            sequencable x ->
            (state x <> batchNil -> y = x) ->
            (state x = batchNil -> i = 0 -> y = before r (max r)) ->
            (state x = batchNil -> forall p, w !! (i - 1) = Some p -> 0 < i ->
               y = beforeBatch r p) ->
            exists x' out',
              Some (<[i:=withState y batchSequenced]> w,
                    s ++ [withState y batchSequenced])
                = Some (<[i:=x']> w, s ++ out') /\
              (sequencable x ->
                 state x' = batchSequenced /\ out' = [x'] /\
                 (state x <> batchNil -> x' = withState x batchSequenced) /\
                 (state x = batchNil -> i = 0 ->
                    x' = withState (before r (max r)) batchSequenced) /\
                 (state x = batchNil -> forall p, w !! (i - 1) = Some p -> 0 < i ->
                    x' = withState (beforeBatch r p) batchSequenced)) /\
              (~ sequencable x ->
                 x' = x /\
                 out' = if decide (state x = batchEndSequence)
                        then (if decide (length s = 0) then [x] else []) else [])).
  { intros y Hs Hsame Hfirst Hnext.
    exists (withState y batchSequenced), [withState y batchSequenced].
    split; [reflexivity|]. split; [|intros Hns; contradiction].
    intros _. split; [reflexivity|]. split; [reflexivity|].
    split; [intros Hnn; rewrite (Hsame Hnn); reflexivity|].
    split; [intros Hn H0; rewrite (Hfirst Hn H0); reflexivity|].
    intros Hn p Hp Hi. rewrite (Hnext Hn p Hp Hi). reflexivity. }
  unfold sequencable in *. destruct (state x) eqn:Es.
  - (* batchNil *)
    destruct (decide (i = 0)) as [->|Hi]; cbn [mbind option_bind].
    + apply Hput; [left; reflexivity|intros H; contradiction|reflexivity|].
      intros _ p _ H0. lia.
    + destruct (lookup_lt_is_Some_2 w (i - 1)) as [p Hp].
      { apply lookup_lt_Some in Hx. lia. }
      specialize (Hput (beforeBatch r p)). rewrite Hp in Hput |- *.
      cbn [fmap option_fmap option_map mbind option_bind].
      apply Hput; [left; reflexivity|intros H; contradiction|intros _ H0; contradiction|].
      intros _ p' Hp' _. injection Hp' as <-. reflexivity.
  - apply Hput; [right; left; reflexivity|reflexivity|discriminate|discriminate].
  - apply (Hkeep s []); [symmetry; apply app_nil_r| |intros [H|[H|H]]; discriminate H].
    destruct (decide (batchSequenced = batchEndSequence)) as [H|_]; [discriminate H|reflexivity].
  - apply (Hkeep s []); [symmetry; apply app_nil_r| |intros [H|[H|H]]; discriminate H].
    destruct (decide (batchInFlight = batchEndSequence)) as [H|_]; [discriminate H|reflexivity].
  - apply Hput; [right; right; reflexivity|reflexivity|discriminate|discriminate].
  - apply (Hkeep s []); [symmetry; apply app_nil_r| |intros [H|[H|H]]; discriminate H].
    destruct (decide (batchImportable = batchEndSequence)) as [H|_]; [discriminate H|reflexivity].
  - apply (Hkeep s []); [symmetry; apply app_nil_r| |intros [H|[H|H]]; discriminate H].
    destruct (decide (batchImportComplete = batchEndSequence)) as [H|_]; [discriminate H|reflexivity].
  - destruct (decide (length s = 0)) as [Hz|Hnz].
    + apply (Hkeep (s ++ [x]) [x]); [reflexivity| |intros [H|[H|H]]; discriminate H].
      destruct (decide (batchEndSequence = batchEndSequence)) as [_|H]; [|contradiction].
      destruct (decide (length s = 0)); [reflexivity|contradiction].
    + apply (Hkeep s []); [symmetry; apply app_nil_r| |intros [H|[H|H]]; discriminate H].
      destruct (decide (batchEndSequence = batchEndSequence)) as [_|H]; [|contradiction].
      destruct (decide (length s = 0)); [contradiction|reflexivity].
Qed.

Lemma sequence_inv_step (r : batcher) (w0 : list batch) (i : nat)
    (st : list batch * list batch) :
  i < length w0 -> sequence_inv w0 i st ->
  exists st', sequence_scan r i st = Some st' /\ sequence_inv w0 (S i) st'.
Proof.
  destruct st as [w s]. intros Hi (Hlen & Hdrop & Hpos & Hempty & Hidle).
  destruct (lookup_lt_is_Some_2 w0 i Hi) as [x Hx0].
  assert (Hx : w !! i = Some x).
  { rewrite <- (Nat.add_0_r i), <- lookup_drop, Hdrop, lookup_drop, Nat.add_0_r.
    exact Hx0. }
  destruct (sequence_scan_entry r i w s x Hx) as (x' & out & E & Hseq & Hkeep).
  eexists. split; [exact E|]. unfold sequence_inv.
  rewrite (take_S_r w0 i x Hx0).
  split; [rewrite length_insert; exact Hlen|]. split.
  { rewrite drop_insert_lt by lia. replace (S i) with (i + 1) by lia.
    rewrite <- !drop_drop, Hdrop. reflexivity. }
  split; [|split].
  - intros j y Hj Hy. destruct (decide (j = i)) as [->|Hne].
    + rewrite Hx0 in Hy. injection Hy as <-. exists x'.
      split; [apply list_lookup_insert_eq; lia|]. split.
      * intros Hs. destruct (Hseq Hs) as (Hst & _ & Hsame & _). split; assumption.
      * intros Hns. apply (Hkeep Hns).
    + rewrite list_lookup_insert_ne by (intros Heq; apply Hne; symmetry; exact Heq).
      apply Hpos; [lia|exact Hy].
  - rewrite Forall_app, Forall_singleton. destruct (decide (sequencable x)) as [Hs|Hns].
    + destruct (Hseq Hs) as (_ & -> & _). split.
      * intros Hnil. apply app_eq_nil in Hnil as [_ Hnil]. discriminate Hnil.
      * intros [_ [Hns _]]. contradiction.
    + destruct (Hkeep Hns) as [_ ->].
      destruct (decide (state x = batchEndSequence)) as [He|Hne].
      * split; [|intros [_ [_ Hne]]; contradiction].
        destruct (decide (length s = 0)) as [Hz|Hnz].
        -- intros Hnil. apply app_eq_nil in Hnil as [_ Hnil]. discriminate Hnil.
        -- rewrite app_nil_r. intros ->. contradiction.
      * rewrite app_nil_r, Hempty. split.
        -- intros H. split; [exact H|]. split; assumption.
        -- intros [H _]. exact H.
  - rewrite Forall_app, Forall_singleton. intros [Hall Hns].
    pose proof (Hidle Hall) as Hs. rewrite filter_app.
    destruct (Hkeep Hns) as [_ ->].
    destruct (decide (state x = batchEndSequence)) as [He|Hne].
    + rewrite (filter_singleton_True (fun y => state y = batchEndSequence) x []) by exact He.
      destruct (filter (fun y => state y = batchEndSequence) (take i w0)) as [|e F'].
      * rewrite Hs. reflexivity.
      * rewrite Hs. reflexivity.
    + rewrite (filter_singleton_False (fun y => state y = batchEndSequence) x []) by exact Hne.
      rewrite !app_nil_r. exact Hs.
Qed.

(** A complete run of [sequence]: it never panics, and ends in the
    invariant. *)
Lemma sequence_run (c : batchSequencer) :
  exists w s,
    sequence c
    = Some ({| batcher_ := batcher_ c; seq := w |},
            if decide (length s = 0) then ([], Some errMaxBatches) else (s, None)) /\
    sequence_inv (seq c) (length (seq c)) (w, s).
Proof.
  unfold sequence.
  destruct (for_loop_invariant (sequence_scan (batcher_ c))
              (sequence_inv (seq c)) (length (seq c))
              (sequence_inv_step (batcher_ c) (seq c))
              (length (seq c)) 0 (seq c, []))
    as ([w s] & E & HI).
  { lia. }
  { unfold sequence_inv. rewrite take_0.
    split; [reflexivity|]. split; [reflexivity|].
    split; [intros j x Hj; lia|]. split; [|intros _; reflexivity].
    split; [intros _; constructor|reflexivity]. }
  exists w, s. rewrite E. cbn [mbind option_bind Nat.add] in *.
  split; [|exact HI]. destruct (decide (length s = 0)); reflexivity.
Qed.

Lemma sequenced_not_sequencable (x : batch) :
  state x = batchSequenced -> ~ sequencable x.
Proof. intros E [H|[H|H]]; rewrite E in H; discriminate H. Qed.

(** After [sequence] no entry is sequencable any more. *)
Lemma sequence_run_consumed (w0 w s : list batch) :
  sequence_inv w0 (length w0) (w, s) -> Forall (fun x => ~ sequencable x) w.
Proof.
  intros (Hlen & _ & Hpos & _). apply Forall_lookup. intros j x' Hx'.
  assert (Hj : j < length w0) by (apply lookup_lt_Some in Hx'; lia).
  destruct (lookup_lt_is_Some_2 w0 j Hj) as [x Hx].
  destruct (Hpos j x Hj Hx) as (y & Hy & Hs & Hns).
  rewrite Hx' in Hy. injection Hy as <-.
  destruct (decide (sequencable x)) as [Hsx|Hnsx].
  - apply sequenced_not_sequencable. apply (Hs Hsx).
  - rewrite (Hns Hnsx). exact Hnsx.
Qed.

(** A window without sequencable entries is left as it is. *)
Lemma sequence_run_idle (w0 w s : list batch) :
  sequence_inv w0 (length w0) (w, s) ->
  Forall (fun x => ~ sequencable x) w0 ->
  w = w0 /\ s = take 1 (filter (fun x => state x = batchEndSequence) w0).
Proof.
  intros (Hlen & _ & Hpos & _ & Hidle) Hall. split.
  - apply list_eq. intros j. destruct (w0 !! j) as [x|] eqn:Hx.
    + assert (Hj : j < length w0) by (apply lookup_lt_Some in Hx; exact Hx).
      destruct (Hpos j x Hj Hx) as (y & Hy & _ & Hns).
      rewrite Hy, (Hns (Forall_lookup_1 _ _ _ _ Hall Hx)). reflexivity.
    + apply lookup_ge_None in Hx. apply lookup_ge_None. lia.
  - rewrite take_ge in Hidle by lia. apply Hidle. exact Hall.
Qed.

(** X7: [sequence] never panics; it keeps the batcher and the length of the
    window; afterwards no entry is [batchNil], [batchInit] or
    [batchErrRetryable]: an entry that was [batchInit] or
    [batchErrRetryable] is the same batch in state [batchSequenced], and an
    entry in any state that is not sequencable is untouched. *)
Theorem sequence_consumes (c : batchSequencer) :
  exists c' out,
    sequence c = Some (c', out) /\
    batcher_ c' = batcher_ c /\
    length (seq c') = length (seq c) /\
    Forall (fun x => state x <> batchNil /\ state x <> batchInit /\
                     state x <> batchErrRetryable) (seq c') /\
    (forall i x, seq c !! i = Some x ->
       state x = batchInit \/ state x = batchErrRetryable ->
       seq c' !! i = Some (withState x batchSequenced)) /\
    (forall i x, seq c !! i = Some x -> ~ sequencable x ->
       seq c' !! i = Some x).
Proof.
  destruct (sequence_run c) as (w & s & E & HI).
  eexists _, _. split; [exact E|]. cbn [batcher_ seq].
  pose proof (sequence_run_consumed _ _ _ HI) as Hcons.
  destruct HI as (Hlen & _ & Hpos & _).
  split; [reflexivity|]. split; [exact Hlen|]. split; [|split].
  - eapply Forall_impl; [exact Hcons|]. intros x Hns. unfold sequencable in Hns.
    repeat split; intros E'; apply Hns; tauto.
  - intros i x Hx Hst.
    assert (Hi : i < length (seq c)) by (apply lookup_lt_Some in Hx; exact Hx).
    destruct (Hpos i x Hi Hx) as (y & Hy & Hs & _). rewrite Hy. f_equal.
    apply Hs; [right; exact Hst|]. destruct Hst as [E'|E']; rewrite E'; discriminate.
  - intros i x Hx Hns.
    assert (Hi : i < length (seq c)) by (apply lookup_lt_Some in Hx; exact Hx).
    destruct (Hpos i x Hi Hx) as (y & Hy & _ & Hk). rewrite Hy, (Hk Hns). reflexivity.
Qed.

(** X8: [sequence] returns [errMaxBatches] exactly when no entry of the
    window is [batchNil], [batchInit], [batchErrRetryable] or the sentinel
    (on the empty window too); it then returns no batch and leaves the
    sequencer as it is. *)
Theorem sequence_errMaxBatches_iff (c : batchSequencer) :
  exists c' s err,
    sequence c = Some (c', (s, err)) /\
    (err = Some errMaxBatches <->
     Forall (fun x => ~ sequencable x /\ state x <> batchEndSequence) (seq c)) /\
    (err = Some errMaxBatches -> c' = c /\ s = []) /\
    (err = None -> s <> []).
Proof.
  destruct (sequence_run c) as (w & s & E & HI).
  pose proof HI as (Hlen & _ & _ & Hempty & _).
  rewrite take_ge in Hempty by lia.
  destruct (decide (length s = 0)) as [Hz|Hnz].
  - apply length_zero_iff_nil in Hz. subst s.
    pose proof (proj1 Hempty eq_refl) as Hall.
    assert (Hidle : Forall (fun x => ~ sequencable x) (seq c)).
    { eapply Forall_impl; [exact Hall|]. intros x [H _]. exact H. }
    destruct (sequence_run_idle _ _ _ HI Hidle) as [-> _].
    eexists _, _, _. split; [exact E|].
    split; [split; [intros _; exact Hall|reflexivity]|].
    split; [|discriminate]. intros _. split; [destruct c; reflexivity|reflexivity].
  - eexists _, _, _. split; [exact E|].
    split; [split; [discriminate|]|split; [discriminate|]].
    + intros Hall. apply Hempty in Hall. subst s. contradiction.
    + intros _ ->. apply Hnz. reflexivity.
Qed.

(** X9: calling [sequence] again right after [sequence] changes nothing:
    the second call leaves the sequencer as it is and returns the first
    [batchEndSequence] entry of the window alone, or [errMaxBatches] when the
    window holds no sentinel. *)
Theorem sequence_twice (c c1 : batchSequencer) (out1 : list batch * option error) :
  sequence c = Some (c1, out1) ->
  sequence c1
  = Some (c1, match head (filter (fun x => state x = batchEndSequence) (seq c1)) with
              | Some e => ([e], None)
              | None => ([], Some errMaxBatches)
              end).
Proof.
  intros Hfirst. destruct (sequence_run c) as (w & s & E & HI).
  rewrite E in Hfirst. injection Hfirst as <- _.
  pose proof (sequence_run_consumed _ _ _ HI) as Hcons.
  destruct (sequence_run {| batcher_ := batcher_ c; seq := w |}) as (w' & s' & E' & HI').
  cbn [seq batcher_] in *.
  destruct (sequence_run_idle _ _ _ HI' Hcons) as [-> ->].
  rewrite E'. f_equal. f_equal.
  destruct (filter (fun x => state x = batchEndSequence) w) as [|e F]; reflexivity.
Qed.

(** An instance: the second [sequence] on a fresh sequencer of five entries
    (scenario S1) returns [errMaxBatches]. *)
Lemma sequence_twice_witness :
  let c1 := mkSequencer (mkBatcher 0 320 64)
              [mkBatch 256 320 batchSequenced 0 [];
               mkBatch 192 256 batchSequenced 0 [];
               mkBatch 128 192 batchSequenced 0 [];
               mkBatch 64 128 batchSequenced 0 [];
               mkBatch 0 64 batchSequenced 0 []] in
  sequence c1
  = Some (c1, match head (filter (fun x => state x = batchEndSequence) (seq c1)) with
              | Some e => ([e], None)
              | None => ([], Some errMaxBatches)
              end).
Proof.
  refine (sequence_twice (newBatchSequencer 5 0 320 64) _ _ _).
  vm_compute. reflexivity.
Defined.

(** The scan of a fresh window: after [i] rounds the first [i] entries are
    the batches that the batcher issues below [max], sequenced. *)
Lemma sequence_fresh_loop (n : nat) (r : batcher) (l0 : batch) (i : nat) :
  begin l0 = max r -> i <= n ->
  for_loop i 0 (sequence_scan r) (replicate n zeroBatch, [])
  = Some (((fun x => withState x batchSequenced) <$> chain r i l0)
            ++ replicate (n - i) zeroBatch,
          (fun x => withState x batchSequenced) <$> chain r i l0).
Proof.
  intros Hl0. induction i as [|i IH]; intros Hi.
  - cbn. rewrite Nat.sub_0_r. reflexivity.
  - rewrite for_loop_snoc, IH by lia. cbn [mbind option_bind Nat.add].
    set (A := (fun x => withState x batchSequenced) <$> chain r i l0).
    assert (HA : length A = i) by (unfold A; rewrite length_fmap; apply length_chain).
    assert (Hrest : replicate (n - i) zeroBatch
                    = zeroBatch :: replicate (n - S i) zeroBatch).
    { replace (n - i) with (S (n - S i)) by lia. reflexivity. }
    assert (Hprev : 0 < i -> A !! (i - 1)
                    = Some (withState (chain_end r i l0) batchSequenced)).
    { intros Hpos. unfold A. destruct i as [|i']; [lia|].
      rewrite list_lookup_fmap. replace (S i' - 1) with i' by lia.
      rewrite chain_lookup_end. reflexivity. }
    assert (Hcur : (A ++ zeroBatch :: replicate (n - S i) zeroBatch) !! i
                   = Some zeroBatch).
    { rewrite (lookup_app_r A _ i) by lia. rewrite HA, Nat.sub_diag. reflexivity. }
    unfold sequence_scan. rewrite Hrest, Hcur.
    cbn [mbind option_bind zeroBatch state].
    assert (Hnew : (if decide (i = 0) then Some (before r (max r))
                    else beforeBatch r <$> (A ++ zeroBatch :: replicate (n - S i) zeroBatch) !! (i - 1))
                   = Some (chain_end r (S i) l0)).
    { destruct (decide (i = 0)) as [->|Hne].
      - cbn. unfold beforeBatch. rewrite Hl0. reflexivity.
      - rewrite lookup_app_l by lia. rewrite Hprev by lia. reflexivity. }
    rewrite Hnew. cbn [mbind option_bind]. f_equal.
    rewrite chain_snoc, fmap_app. cbn [fmap list_fmap]. fold A.
    rewrite <- HA at 1. rewrite insert_app_r_alt by lia.
    rewrite Nat.sub_diag. cbn [insert list_insert].
    rewrite <- app_assoc. reflexivity.
Qed.

(** X10: the first [sequence] of a fresh sequencer turns the whole window
    into the batches that the batcher issues below [max], one below the other,
    each in state [batchSequenced], and returns them all; with a window of
    length 0 it returns [errMaxBatches]. *)
Theorem sequence_fresh (n : nat) (mn mx sz : Slot) :
  let r := {| min := mn; max := mx; size := sz |} in
  let s := (fun x => withState x batchSequenced)
             <$> chain r n (mkBatch mx mx batchNil 0 []) in
  sequence (newBatchSequencer n mn mx sz)
  = Some ({| batcher_ := r; seq := s |},
          if decide (n = 0) then ([], Some errMaxBatches) else (s, None)).
Proof.
  cbv zeta. unfold sequence, newBatchSequencer. cbn [seq batcher_].
  rewrite length_replicate.
  rewrite (sequence_fresh_loop n _ (mkBatch mx mx batchNil 0 [])) by (reflexivity || lia).
  cbn [mbind option_bind]. rewrite Nat.sub_diag. cbn [replicate]. rewrite app_nil_r.
  rewrite length_fmap, length_chain.
  destruct (decide (n = 0)) as [->|Hn]; reflexivity.
Qed.

End SequenceExtras.

Section UpdateExtras.

(** X11: on a window that is not empty and holds no complete batch, [update]
    with a batch that is not complete works in place: it returns, keeps the
    batcher and the length of the window, writes [b] over the entries that
    have its bounds and leaves every other entry where it is. *)
Theorem update_in_place (b : batch) (c : batchSequencer) :
  seq c <> [] ->
  Forall (fun x => state x <> batchImportComplete) (seq c) ->
  state b <> batchImportComplete ->
  exists c',
    update b c = Some c' /\
    batcher_ c' = batcher_ c /\
    length (seq c') = length (seq c) /\
    forall i x, seq c !! i = Some x ->
      seq c' !! i = Some (if replaces b x then b else x).
Proof.
  intros Hne Hunf Hb. rewrite update_refines_rebuild. unfold update_rebuild.
  destruct (last (replace_by b <$> seq c)) as [lst|] eqn:Elast.
  2:{ apply last_None, fmap_nil_inv in Elast. contradiction. }
  cbn [mbind option_bind]. eexists. split; [reflexivity|]. cbn [batcher_ seq].
  assert (Hall : Forall unfinished (replace_by b <$> seq c)).
  { apply Forall_fmap. eapply Forall_impl; [exact Hunf|].
    intros x Hx. apply replace_by_unfinished; [exact Hb|exact Hx]. }
  rewrite (filter_all unfinished _ Hall), Nat.sub_diag. cbn [chain].
  rewrite app_nil_r, length_fmap.
  split; [reflexivity|]. split; [reflexivity|].
  intros i x Hx. rewrite list_lookup_fmap, Hx. reflexivity.
Qed.

(** An instance: a worker hands back the second of three batches. *)
Lemma update_in_place_witness :
  exists c',
    update (mkBatch 64 128 batchImportable 4 [100%Z])
      (mkSequencer (mkBatcher 0 192 64)
         [mkBatch 128 192 batchSequenced 0 [];
          mkBatch 64 128 batchSequenced 0 [];
          mkBatch 0 64 batchSequenced 0 []]) = Some c' /\
    batcher_ c' = mkBatcher 0 192 64 /\
    length (seq c') = 3 /\
    forall i x,
      [mkBatch 128 192 batchSequenced 0 [];
       mkBatch 64 128 batchSequenced 0 [];
       mkBatch 0 64 batchSequenced 0 []] !! i = Some x ->
      seq c' !! i
      = Some (if replaces (mkBatch 64 128 batchImportable 4 [100%Z]) x
              then mkBatch 64 128 batchImportable 4 [100%Z] else x).
Proof.
  apply (update_in_place
           (mkBatch 64 128 batchImportable 4 [100%Z])
           (mkSequencer (mkBatcher 0 192 64)
              [mkBatch 128 192 batchSequenced 0 [];
               mkBatch 64 128 batchSequenced 0 [];
               mkBatch 0 64 batchSequenced 0 []])).
  - simpl. discriminate.
  - repeat constructor; discriminate.
  - simpl. discriminate.
Defined.

(** In a descending window no entry after the first has the bounds of a
    first entry that is not empty. *)
Lemma head_range_unique (b x0 : batch) (rest : list batch) :
  tiled (x0 :: rest) -> ranges_ordered (x0 :: rest) ->
  begin b = begin x0 -> end_ b = end_ x0 -> (begin x0 < end_ x0)%Z ->
  Forall (fun y => replaces b y = false) rest.
Proof.
  intros Htiled Hord Hb He Hlt. apply Forall_lookup. intros j y Hy.
  pose proof (tiled_descending (x0 :: rest) 0 (S j) x0 y Htiled Hord
                ltac:(lia) eq_refl Hy) as Hdesc.
  unfold replaces. apply andb_false_iff. right. apply Z.eqb_neq. lia.
Qed.

(** X12: the window slides when the batch at its head completes.  In a
    window without complete batches that tiles descending, whose first entry
    is not empty, [update] with a complete batch that has the bounds of the
    first entry drops that entry, moves the others up by one and puts at the
    end the batch that the batcher issues below the last entry. *)
Theorem update_advance (b x0 : batch) (rest : list batch) (r : batcher) :
  tiled (x0 :: rest) -> ranges_ordered (x0 :: rest) ->
  Forall (fun x => state x <> batchImportComplete) (x0 :: rest) ->
  state b = batchImportComplete ->
  begin b = begin x0 -> end_ b = end_ x0 -> (begin x0 < end_ x0)%Z ->
  update b {| batcher_ := r; seq := x0 :: rest |}
  = Some {| batcher_ := r;
            seq := rest ++ [beforeBatch r (default b (last rest))] |}.
Proof.
  intros Htiled Hord Hunf Hc Hb He Hlt.
  pose proof (head_range_unique b x0 rest Htiled Hord Hb He Hlt) as Hrest.
  rewrite update_refines_rebuild. unfold update_rebuild. cbn [seq batcher_].
  assert (Hx0 : replace_by b x0 = b).
  { unfold replace_by, replaces. rewrite Hb, He, !Z.eqb_refl. reflexivity. }
  assert (Hfix : replace_by b <$> rest = rest).
  { apply fmap_fixed. eapply Forall_impl; [exact Hrest|].
    intros y Hy. apply replace_by_fixed, Hy. }
  cbn [fmap list_fmap]. fold (fmap (M:=list) (replace_by b) rest).
  rewrite Hx0, Hfix.
  assert (Hlast : last (b :: rest) = Some (default b (last rest))).
  { rewrite last_cons. destruct (last rest); reflexivity. }
  rewrite Hlast. cbn [mbind option_bind].
  rewrite filter_cons_False by (intros Hu; exact (Hu Hc)).
  apply Forall_cons in Hunf as [_ Hunf].
  rewrite (filter_all unfinished rest) by exact Hunf.
  cbn [length]. replace (S (length rest) - length rest) with 1 by lia.
  reflexivity.
Qed.

(** An instance: the first batch of scenario S1 completes. *)
Lemma update_advance_witness :
  update (mkBatch 256 320 batchImportComplete 2 [300%Z])
    {| batcher_ := mkBatcher 0 320 64;
       seq := [mkBatch 256 320 batchImportable 2 [300%Z];
               mkBatch 192 256 batchSequenced 0 []] |}
  = Some {| batcher_ := mkBatcher 0 320 64;
            seq := [mkBatch 192 256 batchSequenced 0 []]
                   ++ [beforeBatch (mkBatcher 0 320 64)
                         (default (mkBatch 256 320 batchImportComplete 2 [300%Z])
                            (last [mkBatch 192 256 batchSequenced 0 []]))] |}.
Proof.
  apply (update_advance (mkBatch 256 320 batchImportComplete 2 [300%Z])
           (mkBatch 256 320 batchImportable 2 [300%Z])
           [mkBatch 192 256 batchSequenced 0 []] (mkBatcher 0 320 64)).
  - repeat (apply tiled_cons; split; [intros y [= <-]; reflexivity|]).
    apply tiled_nil.
  - unfold ranges_ordered. repeat constructor; simpl; lia.
  - repeat constructor; discriminate.
  - reflexivity.
  - reflexivity.
  - reflexivity.
  - simpl. lia.
Defined.

End UpdateExtras.

(** * Further properties of the service *)

Section RetentionFloor.

Local Open Scope Z_scope.

(** The value of [MinimumBackfillSlot]. *)
Lemma MinimumBackfillSlot_value (minEpochs maxSafeEpoch slotsPerEpoch : Z)
    (current : Slot) :
  is_slot minEpochs -> is_slot maxSafeEpoch -> is_slot slotsPerEpoch ->
  maxSafeEpoch * slotsPerEpoch < slot_modulus -> is_slot current ->
  MinimumBackfillSlot minEpochs maxSafeEpoch slotsPerEpoch current
  = Z.max 0 (current - Z.min minEpochs maxSafeEpoch * slotsPerEpoch).
Proof.
  unfold is_slot. intros Hme Hms Hspe Hsafe Hcur.
  unfold MinimumBackfillSlot, UnsafeEpochStart, slot_mul, slot_sub, slot_wrap.
  assert (Hoe : (if minEpochs >? maxSafeEpoch then maxSafeEpoch else minEpochs)
                = Z.min minEpochs maxSafeEpoch).
  { destruct (Z.gtb_spec minEpochs maxSafeEpoch); lia. }
  rewrite Hoe.
  assert (Hoff : 0 <= slotsPerEpoch * Z.min minEpochs maxSafeEpoch < slot_modulus) by nia.
  rewrite (Z.mod_small _ _ Hoff).
  destruct (Z.gtb_spec (slotsPerEpoch * Z.min minEpochs maxSafeEpoch) current).
  - lia.
  - rewrite Z.mod_small by lia. lia.
Qed.

(** X13: the retention floor follows the clock.  The configuration values
    being [uint64]s and [MaxSafeEpoch] an epoch whose first slot fits in a
    [uint64], [MinimumBackfillSlot] is monotone in the current slot and never
    exceeds it. *)
Theorem MinimumBackfillSlot_monotone (minEpochs maxSafeEpoch slotsPerEpoch : Z)
    (current current' : Slot) :
  is_slot minEpochs -> is_slot maxSafeEpoch -> is_slot slotsPerEpoch ->
  maxSafeEpoch * slotsPerEpoch < slot_modulus ->
  is_slot current -> is_slot current' -> current <= current' ->
  MinimumBackfillSlot minEpochs maxSafeEpoch slotsPerEpoch current
  <= MinimumBackfillSlot minEpochs maxSafeEpoch slotsPerEpoch current' /\
  0 <= MinimumBackfillSlot minEpochs maxSafeEpoch slotsPerEpoch current <= current.
Proof.
  intros Hme Hms Hspe Hsafe Hcur Hcur' Hle.
  rewrite !MinimumBackfillSlot_value by assumption.
  unfold is_slot in *. nia.
Qed.

(** An instance: the mainnet values, one epoch apart. *)
Lemma MinimumBackfillSlot_monotone_witness :
  MinimumBackfillSlot 33024 576460752303423487 32 2000000
  <= MinimumBackfillSlot 33024 576460752303423487 32 2000032 /\
  0 <= MinimumBackfillSlot 33024 576460752303423487 32 2000000 <= 2000000.
Proof.
  apply (MinimumBackfillSlot_monotone 33024 576460752303423487 32 2000000 2000032);
    unfold is_slot, slot_modulus; simpl; lia.
Defined.

(** X14: the driver never lowers the floor.  When the floor of the sequencer
    is the [MinimumBackfillSlot] of a slot and the clock has not gone back,
    [moveMinimum] with the [MinimumBackfillSlot] of the current slot returns
    no error, sets the floor to it and leaves the window as it is. *)
Theorem moveMinimum_follows_clock (minEpochs maxSafeEpoch slotsPerEpoch : Z)
    (current current' : Slot) (c : batchSequencer) :
  is_slot minEpochs -> is_slot maxSafeEpoch -> is_slot slotsPerEpoch ->
  maxSafeEpoch * slotsPerEpoch < slot_modulus ->
  is_slot current -> is_slot current' -> current <= current' ->
  min (batcher_ c)
  = MinimumBackfillSlot minEpochs maxSafeEpoch slotsPerEpoch current ->
  moveMinimum (MinimumBackfillSlot minEpochs maxSafeEpoch slotsPerEpoch current') c
  = ({| batcher_ :=
          {| min := MinimumBackfillSlot minEpochs maxSafeEpoch slotsPerEpoch current';
             max := max (batcher_ c); size := size (batcher_ c) |};
        seq := seq c |}, None).
Proof.
  intros Hme Hms Hspe Hsafe Hcur Hcur' Hle Hmin.
  unfold moveMinimum. rewrite Hmin.
  rewrite !MinimumBackfillSlot_value by assumption.
  destruct (Z.ltb_spec (Z.max 0 (current' - Z.min minEpochs maxSafeEpoch * slotsPerEpoch))
              (Z.max 0 (current - Z.min minEpochs maxSafeEpoch * slotsPerEpoch)))
    as [Hlt|_]; [|reflexivity].
  unfold is_slot in *. nia.
Qed.

(** An instance: a sequencer built at slot 2000000 and the floor moved one
    epoch later. *)
Lemma moveMinimum_follows_clock_witness :
  moveMinimum (MinimumBackfillSlot 33024 576460752303423487 32 2000032)
    (newBatchSequencer 5
       (MinimumBackfillSlot 33024 576460752303423487 32 2000000) 1999000 64)
  = ({| batcher_ :=
          {| min := MinimumBackfillSlot 33024 576460752303423487 32 2000032;
             max := 1999000; size := 64 |};
        seq := replicate 5 zeroBatch |}, None).
Proof.
  apply (moveMinimum_follows_clock 33024 576460752303423487 32 2000000 2000032
           (newBatchSequencer 5
              (MinimumBackfillSlot 33024 576460752303423487 32 2000000) 1999000 64));
    first [reflexivity | unfold is_slot, slot_modulus; simpl; lia].
Defined.

End RetentionFloor.

(** ** [countWithState] *)

Section CountWithState.

(** The loop of [countWithState] from index [i] with [n] rounds left adds to
    the counter the number of entries in state [s] among the next [n]. *)
Lemma countWithState_loop (w : list batch) (s : batchState) (n i k : nat) :
  i + n <= length w ->
  for_loop n i
    (fun i n => x ← w !! i; if decide (state x = s) then Some (n + 1) else Some n)
    k
  = Some (k + length (filter (fun x => state x = s) (take n (drop i w)))).
Proof.
  revert i k. induction n as [|n IH]; intros i k Hle.
  - cbn [for_loop]. rewrite take_0, filter_nil. cbn [length]. f_equal. lia.
  - destruct (lookup_lt_is_Some_2 w i) as [x Hx]; [lia|].
    cbn [for_loop]. rewrite Hx. cbn [mbind option_bind].
    rewrite (drop_S w x i Hx). rewrite firstn_cons, filter_cons.
    destruct (decide (state x = s)) as [Hs|Hs].
    + cbn [mbind option_bind]. rewrite IH by lia. f_equal. cbn [length]. lia.
    + cbn [mbind option_bind]. rewrite IH by lia. reflexivity.
Qed.

(** [countWithState] returns, whatever the window. *)
Lemma countWithState_returns (c : batchSequencer) (s : batchState) :
  exists n, countWithState c s = Some n.
Proof.
  unfold countWithState. rewrite countWithState_loop by lia. eexists. reflexivity.
Qed.

(** X15: [countWithState] never panics and returns the number of entries of
    the window that are in the given state; with [batchImportable] this is
    at least the number of batches that [importable] returns. *)
Theorem countWithState_counts (c : batchSequencer) (s : batchState) :
  countWithState c s
  = Some (length (filter (fun x => state x = s) (seq c))) /\
  exists n, countWithState c batchImportable = Some n /\
            length (importable c) <= n.
Proof.
  assert (Hcount : forall s', countWithState c s'
            = Some (length (filter (fun x => state x = s') (seq c)))).
  { intros s'. unfold countWithState. rewrite countWithState_loop by lia.
    rewrite drop_0, firstn_all. reflexivity. }
  split; [apply Hcount|].
  eexists. split; [apply Hcount|].
  unfold importable.
  destruct (importable_scan_prefix (seq c) (length (seq c)) 0 [])
    as (k & Hk & Heq & Hall & _); [lia|].
  rewrite Heq. cbn [app]. rewrite drop_0, Nat.sub_0_r.
  rewrite <- (take_drop k (seq c)) at 2. rewrite filter_app, length_app.
  rewrite (filter_all (fun x => state x = batchImportable) (take k (seq c))); [lia|].
  apply Forall_forall. intros x Hin.
  apply list_elem_of_lookup in Hin as [j Hj].
  assert (j < k) by (apply lookup_lt_Some in Hj; rewrite length_take in Hj; lia).
  rewrite lookup_take_lt in Hj by lia. apply (Hall j x); [lia|exact Hj].
Qed.

End CountWithState.

(** * Further properties of the driver *)

(** ** One call of [update] on a well-formed window *)

(** A window of literals is well formed by computation. *)
Ltac window_wf_by_computation :=
  unfold window_wf, batcher_fits, is_slot, slot_modulus;
  split; [simpl; lia|];
  split; [repeat constructor; simpl; lia|];
  split; [repeat (apply tiled_cons; split; [intros ? [= <-]; reflexivity|]);
          apply tiled_nil|];
  split; [repeat constructor; discriminate|];
  right; repeat constructor; discriminate.

Section WindowSteps.

(** The window that [update] leaves, when it returns. *)
Lemma update_shape (b : batch) (c c' : batchSequencer) :
  update b c = Some c' ->
  batcher_ c' = batcher_ c /\ length (seq c') = length (seq c) /\
  exists lst, last (replace_by b <$> seq c) = Some lst /\
    seq c' = filter unfinished (replace_by b <$> seq c)
             ++ chain (batcher_ c)
                  (length (replace_by b <$> seq c)
                   - length (filter unfinished (replace_by b <$> seq c))) lst.
Proof.
  rewrite update_refines_rebuild. unfold update_rebuild.
  destruct (last (replace_by b <$> seq c)) as [lst|] eqn:El; [|discriminate].
  cbn [mbind option_bind]. intros [= <-]. cbn [batcher_ seq].
  split; [reflexivity|]. split.
  - rewrite length_app, length_chain.
    pose proof (length_filter unfinished (replace_by b <$> seq c)) as Hle.
    rewrite length_fmap in *. lia.
  - exists lst. split; reflexivity.
Qed.

(** [update] returns on a window that is not empty. *)
Lemma update_returns (b : batch) (c : batchSequencer) :
  seq c <> [] -> exists c', update b c = Some c'.
Proof.
  intros Hne. destruct (update b c) as [c'|] eqn:E; [exists c'; reflexivity|].
  apply update_None_iff in E. contradiction.
Qed.

(** A call of [update] in order, with a batch that is not [batchNil], keeps
    the window well formed. *)
Lemma update_keeps_window (b : batch) (c c' : batchSequencer) :
  update b c = Some c' -> window_wf c -> state b <> batchNil -> in_order b c ->
  window_wf c' /\ batcher_ c' = batcher_ c /\ length (seq c') = length (seq c).
Proof.
  intros Hup (Hfit & Hval & Htile & Hunf & Hnil) Hb Hord.
  destruct (update_valid b c c' Hup Hfit Hval) as [Hr Hval'].
  destruct (update_shape b c c' Hup) as (_ & Hlen & _).
  split; [|split; [exact Hr|exact Hlen]].
  unfold window_wf. rewrite Hr.
  split; [exact Hfit|]. split; [exact Hval'|].
  split; [exact (update_window_tiled b c c' Hup Htile Hunf Hord)|].
  split; [exact (update_unfinished b c c' Hup)|].
  exact (update_window_nil b c c' Hup Hb Hnil).
Qed.

(** [sequence] keeps the window well formed, and leaves no [batchNil]
    entry. *)
Lemma sequence_keeps_window (c c' : batchSequencer)
    (out : list batch * option error) :
  sequence c = Some (c', out) -> window_wf c ->
  window_wf c' /\ batcher_ c' = batcher_ c.
Proof.
  intros Hs (Hfit & Hval & Htile & Hunf & Hnil).
  destruct (sequence_valid c c' out Hs Hfit Hval) as [Hr Hval'].
  destruct (sequence_window c c' out Hs (seq_ready_of_tiled _ Htile Hnil))
    as (Htile' & Hnn & Hunf' & _).
  split; [|exact Hr]. unfold window_wf. rewrite Hr.
  split; [exact Hfit|]. split; [exact Hval'|]. split; [exact Htile'|].
  split; [exact (Hunf' Hunf)|]. right. exact Hnn.
Qed.

(** [replaces] compares the ranges. *)
Lemma replaces_iff_bounds (b z : batch) :
  replaces b z = true <-> bounds b = bounds z.
Proof.
  unfold replaces, bounds. rewrite andb_true_iff, !Z.eqb_eq. split.
  - intros [-> ->]. reflexivity.
  - intros [= -> ->]. split; reflexivity.
Qed.

Lemma replaces_bounds_ext (x b z : batch) :
  bounds x = bounds b -> replaces x z = replaces b z.
Proof. unfold replaces, bounds. intros [= -> ->]. reflexivity. Qed.

(** A list of flags in which [true] never follows [false] is a run of [true]
    followed by a run of [false]. *)
Lemma flags_prefix (l : list bool) :
  (forall i j, i <= j -> l !! j = Some true -> l !! i = Some true) ->
  exists m, m <= length l /\
    l = replicate m true ++ replicate (length l - m) false.
Proof.
  induction l as [|a l IH]; intros Hdown.
  - exists 0. split; [cbn; lia|reflexivity].
  - destruct IH as (m & Hm & Heq).
    { intros i j Hij Hj. apply (Hdown (S i) (S j)); [lia|exact Hj]. }
    destruct a.
    + exists (S m). split; [cbn; lia|]. cbn. f_equal. exact Heq.
    + assert (m = 0) as ->.
      { destruct m as [|m]; [reflexivity|]. exfalso.
        assert (H1 : (false :: l) !! 1 = Some true).
        { cbn. rewrite Heq. reflexivity. }
        specialize (Hdown 0 1 ltac:(lia) H1). discriminate. }
      exists 0. split; [cbn; lia|]. cbn. f_equal.
      rewrite Nat.sub_0_r in Heq. exact Heq.
Qed.

(** In a tiled window of ordered ranges, the entries that a batch with the
    range of the first entry replaces are the leading ones. *)
Lemma head_match_prefix (b x0 : batch) (rest : list batch) :
  tiled (x0 :: rest) -> ranges_ordered (x0 :: rest) -> replaces b x0 = true ->
  exists m, 0 < m <= length (x0 :: rest) /\
    replaces b <$> (x0 :: rest)
    = replicate m true ++ replicate (length (x0 :: rest) - m) false.
Proof.
  intros Htile Hord Hb.
  destruct (flags_prefix (replaces b <$> (x0 :: rest))) as (m & Hm & Heq).
  { intros i j Hij Hj.
    apply list_lookup_fmap_Some in Hj as (y & Hy & Hjy). symmetry in Hy.
    destruct (lookup_lt_is_Some_2 (x0 :: rest) i) as [x Hx].
    { apply lookup_lt_Some in Hjy. lia. }
    rewrite list_lookup_fmap, Hx. cbn. f_equal.
    destruct (decide (i = j)) as [->|Hne].
    { rewrite Hjy in Hx. injection Hx as <-. exact Hy. }
    destruct i as [|i].
    { cbn in Hx. injection Hx as <-. exact Hb. }
    pose proof (replaces_bounds _ _ Hb) as [Hb1 Hb2].
    pose proof (replaces_bounds _ _ Hy) as [Hy1 Hy2].
    pose proof (tiled_descending _ 0 j x0 y Htile Hord ltac:(lia) eq_refl Hjy) as D1.
    pose proof (tiled_descending _ 0 (S i) x0 x Htile Hord ltac:(lia) eq_refl Hx) as D2.
    pose proof (tiled_descending _ (S i) j x y Htile Hord ltac:(lia) Hx Hjy) as D3.
    unfold ranges_ordered in Hord. rewrite Forall_lookup in Hord.
    pose proof (Hord 0 x0 eq_refl) as O0. pose proof (Hord (S i) x Hx) as Ox.
    cbn beta in O0, Ox.
    unfold replaces. apply andb_true_intro. rewrite !Z.eqb_eq. lia. }
  rewrite length_fmap in Hm, Heq.
  exists m. split; [|exact Heq]. split; [|exact Hm].
  destruct m as [|m]; [|lia]. exfalso.
  cbn in Heq. rewrite Hb in Heq. discriminate.
Qed.

(** When the entries that [b] replaces are the first [m], the visit of
    [update] leaves [m] copies of [b] before the other entries. *)
Lemma replace_by_prefix (b : batch) (w : list batch) (m : nat) :
  m <= length w ->
  replaces b <$> w = replicate m true ++ replicate (length w - m) false ->
  replace_by b <$> w = replicate m b ++ drop m w.
Proof.
  revert m. induction w as [|x w IH]; intros m Hm Heq.
  - cbn in Hm. assert (m = 0) as -> by lia. reflexivity.
  - destruct m as [|m].
    + cbn in Heq. injection Heq as Hx Heq.
      cbn. rewrite (replace_by_fixed b x Hx). f_equal.
      specialize (IH 0 ltac:(lia)). rewrite Nat.sub_0_r in IH.
      rewrite (IH Heq). reflexivity.
    + cbn in Heq. injection Heq as Hx Heq.
      cbn. unfold replace_by at 1. rewrite Hx. f_equal.
      apply IH; [cbn in Hm; lia|exact Heq].
Qed.

(** The window after [update] with an [batchImportComplete] batch that
    replaces the first [m] entries: the other entries, then [m] batches that
    the batcher issues below the last entry. *)
Lemma update_slide (b : batch) (c c' : batchSequencer) (m : nat) :
  update b c = Some c' -> Forall unfinished (seq c) ->
  state b = batchImportComplete -> m <= length (seq c) ->
  replaces b <$> seq c
  = replicate m true ++ replicate (length (seq c) - m) false ->
  exists lst, last (replace_by b <$> seq c) = Some lst /\
    replace_by b <$> seq c = replicate m b ++ drop m (seq c) /\
    length (replace_by b <$> seq c)
    - length (filter unfinished (replace_by b <$> seq c)) = m /\
    seq c' = drop m (seq c) ++ chain (batcher_ c) m lst.
Proof.
  intros Hup Hunf Hb Hm Hflags.
  destruct (update_shape b c c' Hup) as (_ & _ & lst & Hlast & Hseq).
  pose proof (replace_by_prefix b (seq c) m Hm Hflags) as Hrb.
  assert (Hkept : filter unfinished (replace_by b <$> seq c) = drop m (seq c)).
  { rewrite Hrb, filter_app.
    rewrite (filter_none unfinished (replicate m b)).
    - cbn [app]. apply filter_all. apply Forall_drop. exact Hunf.
    - apply Forall_replicate. unfold unfinished. intros H. apply H. exact Hb. }
  assert (Hd : length (replace_by b <$> seq c)
               - length (filter unfinished (replace_by b <$> seq c)) = m).
  { rewrite Hkept, length_fmap, length_drop. lia. }
  exists lst. split; [exact Hlast|]. split; [exact Hrb|]. split; [exact Hd|].
  rewrite Hseq, Hd, Hkept. reflexivity.
Qed.

(** A function that is constant on a list maps it to a run. *)
Lemma fmap_const {A B : Type} (f : A -> B) (v : B) (l : list A) :
  Forall (fun x => f x = v) l -> f <$> l = replicate (length l) v.
Proof.
  induction 1 as [|x l Hx _ IH]; [reflexivity|].
  cbn. rewrite Hx. f_equal. exact IH.
Qed.

End WindowSteps.

(** ** [importBatches] *)

Section ImportBatches.

Variable StatusUpdater : Type.
Variable batchImporter : batch -> StatusUpdater -> StatusUpdater * option error.

(** The batches that are left to import stay aligned with the window when
    [update] has removed the entries with the range of the first entry. *)
Lemma aligned_after_slide (b x0 : batch) (rest l : list batch)
    (c : batchSequencer) (m : nat) (lst : batch) :
  window_wf c -> seq c = x0 :: rest -> replaces b x0 = true ->
  0 < m <= length (seq c) ->
  replaces b <$> seq c
  = replicate m true ++ replicate (length (seq c) - m) false ->
  last (replace_by b <$> seq c) = Some lst ->
  replace_by b <$> seq c = replicate m b ++ drop m (seq c) ->
  length (replace_by b <$> seq c)
  - length (filter unfinished (replace_by b <$> seq c)) = m ->
  bounds <$> l = bounds <$> take (length l) rest ->
  aligned l (drop m (seq c) ++ chain (batcher_ c) m lst).
Proof.
  intros (Hfit & Hval & Htile & Hunf & Hnil) Hseq Hb Hm Hflags Hlast Hrb Hd Hl.
  assert (Hlen : length (seq c) = S (length rest)) by (rewrite Hseq; reflexivity).
  assert (Hll : length l <= length rest).
  { apply (f_equal length) in Hl. rewrite !length_fmap, length_take in Hl. lia. }
  assert (Hflag_lt : forall i y, seq c !! i = Some y -> i < m ->
            replaces b y = true).
  { intros i y Hy Hi.
    assert (H : (replaces b <$> seq c) !! i = Some (replaces b y))
      by (rewrite list_lookup_fmap, Hy; reflexivity).
    rewrite Hflags in H. rewrite lookup_app_l in H by (rewrite length_replicate; lia).
    rewrite lookup_replicate_2 in H by lia. congruence. }
  assert (Hflag_ge : forall i y, seq c !! i = Some y -> m <= i ->
            replaces b y = false).
  { intros i y Hy Hi. pose proof (lookup_lt_Some _ _ _ Hy) as Hlt.
    assert (H : (replaces b <$> seq c) !! i = Some (replaces b y))
      by (rewrite list_lookup_fmap, Hy; reflexivity).
    rewrite Hflags in H. rewrite lookup_app_r in H by (rewrite length_replicate; lia).
    rewrite length_replicate in H.
    rewrite lookup_replicate_2 in H by lia. congruence. }
  destruct (decide (Forall (fun z => replaces b z = false)
                      (chain (batcher_ c) m lst))) as [HA|HB].
  - destruct m as [|m0]; [lia|].
    exists (Nat.min m0 (length l)). split; [lia|]. split.
    + intros x z Hx Hz.
      apply list_elem_of_lookup in Hx as [p Hp].
      apply lookup_take_Some in Hp as [Hp Hplt].
      assert (Hbx : bounds x = bounds b).
      { assert (H1 : (bounds <$> l) !! p = Some (bounds x))
          by (rewrite list_lookup_fmap, Hp; reflexivity).
        rewrite Hl in H1. apply list_lookup_fmap_Some in H1 as (y & Hy & Hty).
        apply lookup_take_Some in Hty as [Hry _].
        assert (Hcy : seq c !! S p = Some y) by (rewrite Hseq; exact Hry).
        pose proof (Hflag_lt (S p) y Hcy ltac:(lia)) as Hby.
        apply replaces_iff_bounds in Hby. congruence. }
      rewrite (replaces_bounds_ext x b z Hbx).
      apply elem_of_app in Hz as [Hz|Hz].
      * apply list_elem_of_lookup in Hz as [q Hq]. rewrite lookup_drop in Hq.
        apply (Hflag_ge (S m0 + q) z Hq). lia.
      * rewrite Forall_forall in HA. apply HA. exact Hz.
    + rewrite fmap_drop, Hl, <- fmap_drop. f_equal.
      destruct (le_lt_dec m0 (length l)) as [Hle|Hgt].
      * rewrite Nat.min_l by lia.
        rewrite take_app_le by (rewrite length_drop; lia).
        rewrite Hseq. cbn [drop].
        rewrite take_drop_commute. f_equal. f_equal. lia.
      * rewrite Nat.min_r by lia. rewrite Nat.sub_diag, take_0.
        apply drop_ge. rewrite length_take. lia.
  - apply not_Forall_Exists in HB; [|intros ?; apply _].
    apply Exists_exists in HB as (z & Hz & Hnz). cbn in Hnz.
    destruct (replaces b z) eqn:Ebz; [|contradiction].
    apply list_elem_of_lookup in Hz as [q Hq].
    assert (Htyped : slots_typed c).
    { unfold slots_typed. destruct Hfit as (H1 & H2 & H3 & _).
      split; [exact H1|]. split; [exact H2|]. split; [exact H3|].
      eapply Forall_impl; [exact Hval|]. intros y (Hy1 & Hy2 & _).
      split; assumption. }
    assert (Hord : ranges_ordered (seq c)).
    { unfold ranges_ordered. eapply Forall_impl; [exact Hval|].
      intros y (_ & _ & H). exact H. }
    pose proof (chain_match b c lst z q Htyped Hunf Htile Hord Hlast) as Hcm.
    cbv zeta in Hcm. rewrite Hd in Hcm.
    destruct (Hcm Hq Ebz) as (_ & Hbl & Hrep & Hbz0).
    assert (Hmn : m = length (seq c)).
    { destruct (decide (m = length (seq c))) as [|Hne]; [assumption|]. exfalso.
      destruct (lookup_lt_is_Some_2 (seq c) (length (seq c) - 1)) as [xl Hxl];
        [lia|].
      assert (lst = xl) as ->.
      { rewrite Hrb in Hlast. rewrite last_app in Hlast.
        assert (Hld : last (drop m (seq c)) = Some xl).
        { rewrite last_lookup, lookup_drop, length_drop. rewrite <- Hxl.
          f_equal. lia. }
        rewrite Hld in Hlast. congruence. }
      pose proof (Hflag_ge _ xl Hxl ltac:(lia)) as Hfalse.
      pose proof (replaces_bounds _ _ Hb) as [Hb1 Hb2].
      pose proof (replaces_bounds _ _ Hbz0) as [_ Hz2].
      rewrite before_end in Hz2.
      assert (H0 : seq c !! 0 = Some x0) by (rewrite Hseq; reflexivity).
      pose proof (tiled_descending _ 0 (length (seq c) - 1) x0 xl Htile Hord
                    ltac:(lia) H0 Hxl) as D.
      unfold ranges_ordered in Hord. rewrite Forall_lookup in Hord.
      pose proof (Hord _ _ Hxl) as Ox. cbn beta in Ox.
      assert (replaces b xl = true).
      { unfold replaces. apply andb_true_intro. rewrite !Z.eqb_eq. lia. }
      congruence. }
    exists 0. split; [lia|]. split.
    + intros x z' Hx. rewrite take_0 in Hx. apply elem_of_nil in Hx.
      contradiction.
    + rewrite drop_0, Nat.sub_0_r, Hrep.
      rewrite (drop_ge (seq c) m) by lia. cbn [app].
      rewrite take_replicate, fmap_replicate, Nat.min_l by lia.
      rewrite Hl.
      rewrite (fmap_const bounds
                 (bounds (before (batcher_ c) (begin lst)))).
      * rewrite length_take. f_equal. lia.
      * apply Forall_lookup. intros i y Hy.
        apply lookup_take_Some in Hy as [Hy _].
        assert (Hcy : seq c !! S i = Some y) by (rewrite Hseq; exact Hy).
        pose proof (lookup_lt_Some _ _ _ Hcy) as Hlt.
        pose proof (Hflag_lt (S i) y Hcy ltac:(lia)) as Hby.
        apply replaces_iff_bounds in Hby. apply replaces_iff_bounds in Hbz0.
        congruence.
Qed.

(** The loop of [importBatches] returns and keeps the window well formed,
    whatever the importer answers. *)
Lemma importBatches_loop_keeps_window (l : list batch) :
  forall (c : batchSequencer) (su : StatusUpdater) (k : nat),
    window_wf c -> length l <= length (seq c) -> aligned l (seq c) ->
    exists c' su' k',
      importBatches_loop StatusUpdater batchImporter l c su k
      = Some (c', su', k') /\
      window_wf c' /\ batcher_ c' = batcher_ c /\
      length (seq c') = length (seq c) /\ k <= k' <= k + length l.
Proof.
  induction l as [|ib l IH]; intros c su k Hwf Hlen Hal.
  - exists c, su, k. split; [reflexivity|]. split; [exact Hwf|].
    split; [reflexivity|]. split; [reflexivity|]. cbn. lia.
  - cbn [importBatches_loop length] in *.
    assert (Hne : seq c <> []).
    { intros E. rewrite E in Hlen. cbn in Hlen. lia. }
    destruct (batchImporter ib su) as [su1 [e|]].
    + destruct (update_returns (withState ib batchErrRetryable) c Hne)
        as [c1 Hup].
      rewrite Hup. cbn [mbind option_bind].
      destruct (update_keeps_window _ c c1 Hup Hwf) as (Hwf1 & Hr1 & Hl1).
      { cbn. discriminate. }
      { intros H. cbn in H. discriminate. }
      exists c1, su1, k. split; [reflexivity|]. split; [exact Hwf1|].
      split; [exact Hr1|]. split; [exact Hl1|]. lia.
    + set (b := withState ib batchImportComplete).
      assert (Hbb : bounds b = bounds ib) by reflexivity.
      destruct Hal as (t & Ht & Hstale & Hb).
      destruct t as [|t].
      * assert (Hex : exists x0 rest, seq c = x0 :: rest).
        { destruct (seq c) as [|x0 rest]; [contradiction|].
          exists x0, rest. reflexivity. }
        destruct Hex as (x0 & rest & Hseq).
        rewrite drop_0, Nat.sub_0_r, Hseq in Hb. cbn [length] in Hb.
        rewrite firstn_cons in Hb. cbn [fmap list_fmap] in Hb.
        injection Hb as Hib1 Hib2 Hl.
        assert (Hbx : replaces b x0 = true).
        { apply replaces_iff_bounds. rewrite Hbb. unfold bounds. congruence. }
        pose proof Hwf as (Hfit & Hval & Htile & Hunf & Hnil).
        assert (Hord : ranges_ordered (seq c)).
        { unfold ranges_ordered. eapply Forall_impl; [exact Hval|].
          intros y (_ & _ & H). exact H. }
        destruct (head_match_prefix b x0 rest) as (m & Hm & Hflags);
          [rewrite <- Hseq; exact Htile|rewrite <- Hseq; exact Hord|exact Hbx|].
        rewrite <- Hseq in Hm, Hflags.
        destruct (update_returns b c Hne) as [c1 Hup].
        rewrite Hup. cbn [mbind option_bind].
        assert (Hin : in_order b c).
        { intros _. exists m. exact Hflags. }
        destruct (update_keeps_window b c c1 Hup Hwf) as (Hwf1 & Hr1 & Hl1);
          [cbn; discriminate|exact Hin|].
        destruct (update_slide b c c1 m Hup Hunf eq_refl ltac:(lia) Hflags)
          as (lst & Hlast & Hrb & Hd & Hseq1).
        assert (Hll : length l <= length rest).
        { apply (f_equal length) in Hl.
          rewrite !length_fmap, length_take in Hl. lia. }
        destruct (IH c1 su1 (k + 1) Hwf1)
          as (c' & su' & k' & E & Hwf' & Hr' & Hl' & Hk).
        { rewrite Hl1, Hseq. cbn [length]. lia. }
        { rewrite Hseq1.
          apply (aligned_after_slide b x0 rest l c m lst Hwf Hseq Hbx
                   ltac:(lia) Hflags Hlast Hrb Hd Hl). }
        exists c', su', k'. split; [exact E|]. split; [exact Hwf'|].
        split; [congruence|]. split; [rewrite Hl', Hl1; reflexivity|lia].
      * assert (Hfix : update b c = Some c).
        { rewrite update_refines_rebuild.
          pose proof Hwf as (_ & _ & _ & Hunf & _).
          apply update_rebuild_fixed; [exact Hne|exact Hunf|].
          apply fmap_fixed. apply Forall_forall. intros z Hz.
          apply replace_by_fixed.
          rewrite (replaces_bounds_ext b ib z Hbb).
          apply Hstale; [|exact Hz]. rewrite firstn_cons. apply list_elem_of_here. }
        rewrite Hfix. cbn [mbind option_bind].
        destruct (IH c su1 (k + 1) Hwf) as (c' & su' & k' & E & Hwf' & Hr' & Hl' & Hk).
        { lia. }
        { cbn [length] in Ht. exists t. split; [lia|]. split.
          - intros x z Hx Hz. apply Hstale; [|exact Hz].
            rewrite firstn_cons. apply list_elem_of_further. exact Hx.
          - cbn [length drop Nat.sub] in Hb. exact Hb. }
        exists c', su', k'. split; [exact E|]. split; [exact Hwf'|].
        split; [exact Hr'|]. split; [exact Hl'|lia].
Qed.

(** [numTodo] returns when the batch size is not zero. *)
Lemma numTodo_returns (c : batchSequencer) :
  size (batcher_ c) <> 0%Z -> exists k, numTodo c = Some k.
Proof.
  intros Hsz. unfold numTodo.
  destruct (decide (length (seq c) = 0)) as [|Hn]; [eexists; reflexivity|].
  destruct (lookup_lt_is_Some_2 (seq c) (length (seq c) - 1)) as [x Hx]; [lia|].
  rewrite Hx. cbn [mbind option_bind].
  destruct (decide (state x <> batchEndSequence)) as [Hs|Hs].
  - destruct (remaining (batcher_ c) (begin x)) as [t|] eqn:Er.
    + eexists. reflexivity.
    + apply remaining_panics_iff_edge in Er. destruct Er as [Er _].
      contradiction.
  - eexists. reflexivity.
Qed.

(** The batches that [importable] returns are a prefix of the window. *)
Lemma importable_aligned (c : batchSequencer) :
  length (importable c) <= length (seq c) /\ aligned (importable c) (seq c).
Proof.
  unfold importable.
  destruct (importable_scan_prefix (seq c) (length (seq c)) 0 [])
    as (k & Hk & Heq & _); [lia|].
  rewrite Heq. cbn [app]. rewrite drop_0, Nat.sub_0_r.
  split; [rewrite length_take; lia|].
  exists 0. split; [lia|]. split.
  - intros x z Hx. rewrite take_0 in Hx. apply elem_of_nil in Hx. contradiction.
  - rewrite drop_0, Nat.sub_0_r, length_take.
    f_equal. f_equal. lia.
Qed.

(** X16: on a well-formed window, with a batch size that is not zero,
    [importBatches] returns whatever the importer answers, and leaves a
    well-formed window of the same length over the same batcher: it tiles,
    its ranges are ordered and it holds no [batchImportComplete] entry.  The
    number of batches it reports as imported is at most the number of
    importable ones. *)
Theorem importBatches_keeps_window (c : batchSequencer) (su : StatusUpdater) :
  window_wf c -> size (batcher_ c) <> 0%Z ->
  exists c' su' imported,
    importBatches StatusUpdater batchImporter c su = Some (c', su', imported) /\
    window_wf c' /\ batcher_ c' = batcher_ c /\
    length (seq c') = length (seq c) /\
    imported <= length (importable c).
Proof.
  intros Hwf Hsz. unfold importBatches.
  destruct (importable_aligned c) as [Hlen Hal].
  destruct (importBatches_loop_keeps_window (importable c) c su 0 Hwf Hlen Hal)
    as (c' & su' & k' & E & Hwf' & Hr' & Hl' & Hk).
  rewrite E. cbn [mbind option_bind].
  destruct (numTodo_returns c') as [n Hn]; [rewrite Hr'; exact Hsz|].
  rewrite Hn. cbn [mbind option_bind].
  exists c', su', k'. split; [reflexivity|]. split; [exact Hwf'|].
  split; [exact Hr'|]. split; [exact Hl'|lia].
Qed.

End ImportBatches.

(** ** What [importBatches] does to the window *)

Section ImportBatchesResult.

Variable StatusUpdater : Type.
Variable batchImporter : batch -> StatusUpdater -> StatusUpdater * option error.

(** The result of [importable] is the prefix of the window of its length. *)
Lemma importable_prefix (c : batchSequencer) :
  importable c = take (length (importable c)) (seq c).
Proof.
  unfold importable.
  destruct (importable_scan_prefix (seq c) (length (seq c)) 0 [])
    as (k & Hk & Heq & _); [lia|].
  rewrite Heq. cbn [app]. rewrite drop_0, Nat.sub_0_r, length_take.
  f_equal. lia.
Qed.

(** [update] with a complete batch that has the range of the first entry,
    when that range is not empty: the window slides by one and stays well
    formed. *)
Lemma update_complete_head (b x0 : batch) (rest : list batch)
    (c : batchSequencer) :
  window_wf c -> seq c = x0 :: rest -> state b = batchImportComplete ->
  bounds b = bounds x0 -> (begin x0 < end_ x0)%Z ->
  let c1 := {| batcher_ := batcher_ c;
               seq := rest ++ [beforeBatch (batcher_ c)
                                 (default x0 (last rest))] |} in
  update b c = Some c1 /\ window_wf c1.
Proof.
  intros Hwf Hseq Hb Hbx Hlt c1.
  pose proof Hwf as (Hfit & Hval & Htile & Hunf & Hnil).
  assert (Hord : ranges_ordered (seq c)).
  { unfold ranges_ordered. eapply Forall_impl; [exact Hval|].
    intros y (_ & _ & H). exact H. }
  pose proof Hbx as Hbx'. unfold bounds in Hbx'. injection Hbx' as Hb1 Hb2.
  assert (Hrest : Forall (fun y => replaces b y = false) rest).
  { apply (head_range_unique b x0 rest); try assumption;
      rewrite <- Hseq; assumption. }
  assert (Hflags : replaces b <$> seq c
                   = replicate 1 true ++ replicate (length (seq c) - 1) false).
  { rewrite Hseq, fmap_cons. cbn [length].
    replace (S (length rest) - 1) with (length rest) by lia.
    cbn [replicate app]. f_equal.
    - apply replaces_iff_bounds. exact Hbx.
    - apply fmap_const. exact Hrest. }
  assert (Hne : seq c <> []) by (rewrite Hseq; discriminate).
  destruct (update_returns b c Hne) as [c' Hup].
  assert (H1 : 1 <= length (seq c)) by (rewrite Hseq; cbn; lia).
  destruct (update_slide b c c' 1 Hup Hunf Hb H1 Hflags)
    as (lst & Hlast & Hrb & _ & Hseq1).
  destruct (update_shape b c c' Hup) as (Hr1 & _ & _).
  assert (Hc' : c' = c1).
  { destruct c' as [r1 s1]. cbn [batcher_ seq] in Hr1, Hseq1. subst r1 s1.
    unfold c1. f_equal. rewrite Hseq. cbn [drop chain]. rewrite ?drop_0.
    f_equal. f_equal.
    rewrite Hrb, Hseq in Hlast. cbn [replicate app drop] in Hlast.
    rewrite ?drop_0, last_cons in Hlast. unfold beforeBatch.
    destruct (last rest); injection Hlast as <-; [reflexivity|].
    cbn [default]. congruence. }
  subst c'. split; [exact Hup|].
  apply (update_keeps_window b c c1 Hup Hwf).
  - rewrite Hb. discriminate.
  - intros _. exists 1. exact Hflags.
Qed.


(** The rounds of the loop of [importBatches] over importable batches [l1]
    that lead the window, are not empty and are imported without an error:
    the window slides by their number. *)
Lemma importBatches_loop_imports (l1 : list batch) :
  forall (l2 tl : list batch) (c : batchSequencer) (su : StatusUpdater)
         (k : nat),
    window_wf c -> seq c = l1 ++ tl ->
    Forall (fun x => (begin x < end_ x)%Z) l1 ->
    (forall b su, b ∈ l1 -> (batchImporter b su).2 = None) ->
    let c1 := {| batcher_ := batcher_ c;
                 seq := tl ++ chain (batcher_ c) (length l1)
                                (default zeroBatch (last (seq c))) |} in
    importBatches_loop StatusUpdater batchImporter (l1 ++ l2) c su k
    = importBatches_loop StatusUpdater batchImporter l2 c1
        (fold_left (fun su b => (batchImporter b su).1) l1 su)
        (k + length l1) /\
    window_wf c1.
Proof.
  induction l1 as [|ib l1 IH]; intros l2 tl c su k Hwf Hseq Hpos Hok c1.
  - unfold c1. cbn [app length chain fold_left] in *.
    rewrite app_nil_r, Nat.add_0_r, <- Hseq.
    destruct c as [r s]. cbn [batcher_ seq]. split; [reflexivity|exact Hwf].
  - cbn [app] in Hseq. apply Forall_cons in Hpos as [Hlt Hpos].
    destruct (update_complete_head (withState ib batchImportComplete) ib
                (l1 ++ tl) c Hwf Hseq eq_refl eq_refl Hlt) as [Hup Hwf1].
    set (nb := beforeBatch (batcher_ c) (default ib (last (l1 ++ tl)))) in *.
    set (c0 := {| batcher_ := batcher_ c; seq := (l1 ++ tl) ++ [nb] |}) in *.
    destruct (IH l2 (tl ++ [nb]) c0 (batchImporter ib su).1 (k + 1) Hwf1)
      as [Hrun Hwf2].
    { unfold c0. cbn [seq]. rewrite app_assoc. reflexivity. }
    { exact Hpos. }
    { intros b su' Hin. apply Hok. apply list_elem_of_further. exact Hin. }
    assert (Hc1 : {| batcher_ := batcher_ c0;
                     seq := (tl ++ [nb])
                            ++ chain (batcher_ c0) (length l1)
                                 (default zeroBatch (last (seq c0))) |} = c1).
    { unfold c1, c0. cbn [batcher_ seq length chain]. f_equal.
      rewrite last_snoc, Hseq, last_cons. cbn [default].
      rewrite <- app_assoc. cbn [app]. f_equal.
      assert (Hnb : beforeBatch (batcher_ c)
                      (default zeroBatch
                         match last (l1 ++ tl) with
                         | Some y => Some y
                         | None => Some ib
                         end) = nb).
      { unfold nb. destruct (last (l1 ++ tl)); reflexivity. }
      rewrite Hnb. reflexivity. }
    rewrite Hc1 in Hrun, Hwf2. split; [|exact Hwf2].
    cbn [app importBatches_loop].
    pose proof (Hok ib su (list_elem_of_here _ _)) as Herr.
    destruct (batchImporter ib su) as [su1 err] eqn:Ei. cbn [snd] in Herr.
    cbn [fst] in Hrun. subst err.
    rewrite Hup. cbn [mbind option_bind]. rewrite Hrun.
    cbn [fold_left length]. rewrite Ei. cbn [fst].
    f_equal. lia.
Qed.

(** X17: the window slides by the number of batches imported.  On a
    well-formed window with a batch size that is not zero, when the
    importable batches are not empty and the importer accepts each of them,
    [importBatches] imports them in the order of the window, hands the status
    updater from one import to the next, reports all of them as imported,
    and leaves the entries that were behind them followed by as many batches
    as it has imported, issued by the batcher one below the other from the
    last entry of the window on. *)
Theorem importBatches_slides (c : batchSequencer) (su : StatusUpdater) :
  window_wf c -> size (batcher_ c) <> 0%Z ->
  Forall (fun x => (begin x < end_ x)%Z) (importable c) ->
  (forall b su, b ∈ importable c -> (batchImporter b su).2 = None) ->
  let k := length (importable c) in
  importBatches StatusUpdater batchImporter c su
  = Some ({| batcher_ := batcher_ c;
             seq := drop k (seq c)
                    ++ chain (batcher_ c) k
                         (default zeroBatch (last (seq c))) |},
          fold_left (fun su b => (batchImporter b su).1) (importable c) su,
          k).
Proof.
  intros Hwf Hsz Hpos Hok k.
  assert (Hseq : seq c = importable c ++ drop k (seq c)).
  { rewrite (importable_prefix c) at 1. fold k. rewrite take_drop. reflexivity. }
  destruct (importBatches_loop_imports (importable c) [] (drop k (seq c)) c su 0
              Hwf Hseq Hpos Hok) as [Hrun Hwf1].
  rewrite app_nil_r in Hrun. fold k in Hrun, Hwf1.
  unfold importBatches. rewrite Hrun. cbn [importBatches_loop mbind option_bind].
  match goal with
  | |- context [numTodo ?c1] =>
      destruct (numTodo_returns c1) as [n Hn]; [exact Hsz|]; rewrite Hn
  end.
  reflexivity.
Qed.


End ImportBatchesResult.

(** ** One round of the loop of [Start] *)

Section LoopRound.

Variable StatusUpdater : Type.
Variable batchImporter : batch -> StatusUpdater -> StatusUpdater * option error.

(** [sequence] returns, and hands out sequenced batches and sentinels
    only. *)
Lemma sequence_hands_out (c : batchSequencer) :
  exists c' s err,
    sequence c = Some (c', (s, err)) /\ Forall sequenced_or_end s /\
    Forall (fun x => ~ sequencable x) (seq c') /\
    length (seq c') = length (seq c).
Proof.
  destruct (sequence_run c) as (w & s & E & HI).
  pose proof (sequence_run_consumed _ _ _ HI) as Hcons.
  destruct HI as (Hlen & _).
  assert (Hs : Forall sequenced_or_end s).
  { destruct (decide (length s = 0)) as [Hz'|Hnz'].
    { destruct s; [constructor|discriminate]. }
    pose proof E as E'. unfold sequence in E'.
    destruct (for_loop_invariant (sequence_scan (batcher_ c))
                (output_inv (length (seq c))) (length (seq c))
                (output_inv_step (batcher_ c) (length (seq c)))
                (length (seq c)) 0 (seq c, []))
      as ([w1 s1] & E1 & _ & Hs1); [lia|split; [reflexivity|constructor]|].
    rewrite E1 in E'. cbn [mbind option_bind] in E'.
    destruct (decide (length s1 = 0)); [discriminate E'|].
    injection E' as _ Es. subst s1. exact Hs1. }
  destruct (decide (length s = 0)) as [Hz|Hnz].
  - exists {| batcher_ := batcher_ c; seq := w |}, [], (Some errMaxBatches).
    split; [exact E|]. split; [constructor|]. split; [exact Hcons|exact Hlen].
  - exists {| batcher_ := batcher_ c; seq := w |}, s, None.
    split; [exact E|]. split; [exact Hs|]. split; [exact Hcons|exact Hlen].
Qed.

(** X19: a round of the loop of [Start] keeps the window well formed.  When
    the pool hands back a batch that is neither [batchNil] nor
    [batchImportComplete], the window is well formed and not empty, the batch
    size is not zero and the new minimum is not below the old one and leaves
    room for a batch below [2^64], the round neither panics nor ends the
    process: it leaves a well-formed window of the same length over the
    batcher with the new minimum, in which no entry is left to be sequenced,
    and hands the pool sequenced batches and sentinels only. *)
Theorem loop_round_keeps_window (b : batch) (m : Slot) (c : batchSequencer)
    (su : StatusUpdater) :
  window_wf c -> seq c <> [] -> size (batcher_ c) <> 0%Z ->
  state b <> batchNil -> state b <> batchImportComplete ->
  (min (batcher_ c) <= m)%Z -> is_slot m ->
  (m + size (batcher_ c) < slot_modulus)%Z ->
  exists c' su' todo,
    loop_round StatusUpdater batchImporter (b, None) m c su
    = Some (Some (c', su', todo)) /\
    window_wf c' /\
    batcher_ c' = {| min := m; max := max (batcher_ c);
                     size := size (batcher_ c) |} /\
    length (seq c') = length (seq c) /\
    Forall (fun x => ~ sequencable x) (seq c') /\
    Forall sequenced_or_end todo.
Proof.
  intros Hwf Hne Hsz Hnil Hcomp Hmin Hm Hfit.
  unfold loop_round, updateComplete.
  destruct (update_returns b c Hne) as [c1 Hup]. rewrite Hup.
  cbn [mbind option_bind fst snd].
  destruct (update_keeps_window b c c1 Hup Hwf Hnil) as (Hwf1 & Hr1 & Hl1).
  { intros H. contradiction. }
  destruct (importable_aligned c1) as [Hlen Hal].
  destruct (importBatches_loop_keeps_window StatusUpdater batchImporter
              (importable c1) c1 su 0 Hwf1 Hlen Hal)
    as (c2 & su' & k & E2 & Hwf2 & Hr2 & Hl2 & _).
  unfold importBatches. rewrite E2. cbn [mbind option_bind].
  destruct (numTodo_returns c2) as [n Hn]; [rewrite Hr2, Hr1; exact Hsz|].
  rewrite Hn. cbn [mbind option_bind].
  destruct (countWithState_returns c2 batchImportable) as [w Hw].
  rewrite Hw. cbn [mbind option_bind].
  unfold moveMinimum. rewrite Hr2, Hr1.
  destruct (Z.ltb_spec m (min (batcher_ c))) as [Hlt|_]; [lia|].
  set (c3 := {| batcher_ := {| min := m; max := max (batcher_ c);
                                size := size (batcher_ c) |};
                seq := seq c2 |}).
  assert (Hwf3 : window_wf c3).
  { destruct Hwf2 as (Hf & Hval & Htile & Hunf & Hnu).
    rewrite Hr2, Hr1 in Hf. destruct Hf as (_ & Hmx & Hs & _).
    unfold window_wf, c3, batcher_fits. cbn [batcher_ seq min max size].
    unfold is_slot in *. repeat split; try assumption; lia. }
  destruct (sequence_hands_out c3) as (c4 & s & err & E4 & Hs & Hcons & Hl4).
  destruct (sequence_keeps_window c3 c4 (s, err) E4 Hwf3) as [Hwf4 Hr4].
  unfold scheduleTodos. rewrite E4. cbn [mbind option_bind].
  assert (Hrest : batcher_ c4 = batcher_ c3 /\ length (seq c4) = length (seq c)).
  { split; [exact Hr4|]. rewrite Hl4. unfold c3. cbn [seq]. congruence. }
  destruct Hrest as [Hb4 Hlen4].
  destruct err as [e|].
  - destruct (decide (e = errMaxBatches)) as [He|He].
    + exists c4, su', []. split; [reflexivity|]. split; [exact Hwf4|].
      split; [exact Hb4|]. split; [exact Hlen4|]. split; [exact Hcons|constructor].
    + exists c4, su', s. split; [reflexivity|]. split; [exact Hwf4|].
      split; [exact Hb4|]. split; [exact Hlen4|]. split; [exact Hcons|exact Hs].
  - exists c4, su', s. split; [reflexivity|]. split; [exact Hwf4|].
    split; [exact Hb4|]. split; [exact Hlen4|]. split; [exact Hcons|exact Hs].
Qed.

End LoopRound.

(** ** Instances *)

Section DriverInstances.

(** The importers of the instances count the imports in the place of the
    status updater; one accepts every batch, the other refuses the batches
    of peer 2. *)

(** An instance: a window of three batches, the first two importable. *)
Lemma importBatches_keeps_window_witness :
  let c := mkSequencer (mkBatcher 0 192 64)
             [mkBatch 128 192 batchImportable 1 [150%Z];
              mkBatch 64 128 batchImportable 2 [100%Z];
              mkBatch 0 64 batchSequenced 0 []] in
  exists c' su' imported,
    importBatches nat (fun b su =>
       (S su, if decide (pid b = 2)
              then Some errSequencerMisconfigured else None)) c 0 = Some (c', su', imported) /\
    window_wf c' /\ batcher_ c' = batcher_ c /\
    length (seq c') = length (seq c) /\
    imported <= length (importable c).
Proof.
  apply (importBatches_keeps_window nat (fun b su =>
       (S su, if decide (pid b = 2)
              then Some errSequencerMisconfigured else None))
           (mkSequencer (mkBatcher 0 192 64)
              [mkBatch 128 192 batchImportable 1 [150%Z];
               mkBatch 64 128 batchImportable 2 [100%Z];
               mkBatch 0 64 batchSequenced 0 []]) 0).
  - window_wf_by_computation.
  - simpl. lia.
Defined.

(** An instance: both importable batches of a window of three are
    imported. *)
Lemma importBatches_slides_witness :
  let c := mkSequencer (mkBatcher 0 192 64)
             [mkBatch 128 192 batchImportable 1 [150%Z];
              mkBatch 64 128 batchImportable 2 [100%Z];
              mkBatch 0 64 batchSequenced 0 []] in
  importBatches nat (fun _ su => (S su, None)) c 0
  = Some ({| batcher_ := batcher_ c;
             seq := drop (length (importable c)) (seq c)
                    ++ chain (batcher_ c) (length (importable c))
                         (default zeroBatch (last (seq c))) |},
          fold_left (fun su b => (S su)) (importable c) 0,
          length (importable c)).
Proof.
  apply (importBatches_slides nat (fun _ su => (S su, None))
           (mkSequencer (mkBatcher 0 192 64)
              [mkBatch 128 192 batchImportable 1 [150%Z];
               mkBatch 64 128 batchImportable 2 [100%Z];
               mkBatch 0 64 batchSequenced 0 []]) 0).
  - window_wf_by_computation.
  - simpl. lia.
  - vm_compute. repeat constructor.
  - intros b su _. reflexivity.
Defined.


(** An instance: a worker hands back the first of three batches, verified,
    while the floor moves up by 32 slots. *)
Lemma loop_round_keeps_window_witness :
  let c := mkSequencer (mkBatcher 0 192 64)
             [mkBatch 128 192 batchSequenced 0 [];
              mkBatch 64 128 batchSequenced 0 [];
              mkBatch 0 64 batchSequenced 0 []] in
  exists c' su' todo,
    loop_round nat (fun _ su => (S su, None))
      (mkBatch 128 192 batchImportable 1 [150%Z], None) 32 c 0
    = Some (Some (c', su', todo)) /\
    window_wf c' /\
    batcher_ c' = mkBatcher 32 192 64 /\
    length (seq c') = 3 /\
    Forall (fun x => ~ sequencable x) (seq c') /\
    Forall sequenced_or_end todo.
Proof.
  apply (loop_round_keeps_window nat (fun _ su => (S su, None))
           (mkBatch 128 192 batchImportable 1 [150%Z]) 32
           (mkSequencer (mkBatcher 0 192 64)
              [mkBatch 128 192 batchSequenced 0 [];
               mkBatch 64 128 batchSequenced 0 [];
               mkBatch 0 64 batchSequenced 0 []]) 0).
  - window_wf_by_computation.
  - simpl. discriminate.
  - simpl. lia.
  - simpl. discriminate.
  - simpl. discriminate.
  - simpl. lia.
  - unfold is_slot, slot_modulus. lia.
  - unfold slot_modulus. simpl. lia.
Defined.

End DriverInstances.

(** ** [NewService] and the start of the service *)

Section ServiceStart.




End ServiceStart.
